(** * Age- and area-structured population projection (DLMtool, src/popddynCPP.cpp)

    A shallow embedding of the two exported C++ functions

      - [popdynOneTScpp]: one annual transition (recruitment, mortality and
        ageing, optional plus group, movement between areas);
      - [popdynCPP]: the projection over [pyears] years, which owns the nine
        age x year x area cubes and calls [popdynOneTScpp] once per year.

    Conventions of the model.

      - A C++ [double] is a real number of [R]: rounding, overflow and the IEEE
        special values are not modelled, and [exp] and [log] are the real
        exponential and logarithm.  A quotient by zero, which IEEE arithmetic
        turns into an infinity or a NaN, is outside the model: the properties
        stated of the two functions carry the hypotheses that keep the
        quotients they depend on away from it.
      - The dimensions [nareas], [maxage] and [pyears] (passed as [double] and
        used as extents and loop bounds) are natural numbers, with
        [1 <= maxage] wherever the last age class is addressed.
      - An Armadillo or Rcpp dense array is the function from its indices to its
        elements, read only inside its extents: a matrix is indexed
        (row, column), a cube (row, column, slice).  The vectors have the
        lengths their documentation gives ([nareas] for the vectors by area).
      - [for] loops are folds over the index range ([for_range]); the
        statements of a loop body are functions on the variables they assign.
        A local vector that a loop fills completely before it is read ([SB],
        [d1], [fracE2]) is the function the loop computes.
      - [arma::mat M(r, c)] allocates without initialising: its first contents
        are an arbitrary matrix supplied by [fresh].
      - An [Rcpp::NumericVector] is a handle on a shared R object: the objects
        live in a [heap], [clone] allocates a copy, and element assignment
        writes through the handle.  The vectors a function allocates for
        itself and never shares ([tempVec], [SSB0a]) are plain variables.
        [popdynOneTScpp] only reads its vector arguments, so it is given
        their contents. *)

From Stdlib Require Import Reals Lra Lia ZArith Bool List Arith.
Import ListNotations.
Local Open Scope R_scope.

(** ** Dense arrays *)

Definition vec := nat -> R.
Definition mat := nat -> nat -> R.
Definition cube := nat -> nat -> nat -> R.

(** [v(i) = x] and [m(i, j) = x]. *)
Definition vec_set (v : vec) (i : nat) (x : R) : vec :=
  fun i' => if (i' =? i)%nat then x else v i'.

Definition mat_set (m : mat) (i j : nat) (x : R) : mat :=
  fun i' j' => if ((i' =? i) && (j' =? j))%nat then x else m i' j'.

(** [sum] and [accu] over the first [n] indices. *)
Fixpoint sum_upto (n : nat) (f : nat -> R) : R :=
  match n with
  | O => 0
  | S k => sum_upto k f + f k
  end.

(** [for (int i = lo; i < lo + n; i++) body], as a state transformer. *)
Fixpoint for_range {S : Type} (lo n : nat) (body : nat -> S -> S) (s : S) : S :=
  match n with
  | O => s
  | S k => body (lo + k)%nat (for_range lo k body s)
  end.

(** ** One annual time step: [popdynOneTScpp] *)

Section OneTimeStep.

Variables (nareas maxage : nat) (SSBcurr : vec) (Ncurr Zcurr : mat)
          (PerrYr hs : R) (R0a SSBpR aR bR : vec) (mov : cube)
          (SRrel : R) (plusgroup : Z).

(** [fresh k] is what the k-th matrix allocated by the call holds before
    anything is written to it: [Nnext] is allocation 0, [Nstore] allocation 1,
    and the [tempMat2] of age [age] allocation [2 + age]. *)
Variable fresh : nat -> mat.

(** Line 42, Beverton-Holt. *)
Definition recruit_BH (A : nat) : R :=
  PerrYr * (4 * R0a A * hs * SSBcurr A)
  / (SSBpR A * R0a A * (1 - hs) + (5 * hs - 1) * SSBcurr A).

(** Line 47, Ricker. *)
Definition recruit_Ricker (A : nat) : R :=
  PerrYr * aR A * SSBcurr A * exp (- bR A * SSBcurr A).

(** Lines 40-48: the two guarded recruitment assignments. *)
Definition recruit_stmt (A : nat) (Nnext : mat) : mat :=
  let Nnext := if Req_dec_T SRrel 1 then mat_set Nnext 0 A (recruit_BH A) else Nnext in
  if Req_dec_T SRrel 2 then mat_set Nnext 0 A (recruit_Ricker A) else Nnext.

(** Lines 53-55: survival from the previous age class. *)
Definition mortality_stmt (A : nat) (Nnext : mat) : mat :=
  for_range 1 (maxage - 1)
    (fun age Nn => mat_set Nn age A (Ncurr (age - 1)%nat A * exp (- Zcurr (age - 1)%nat A)))
    Nnext.

(** Lines 56-58: the plus group rescales the last age class in place. *)
Definition plusgroup_stmt (A : nat) (Nnext : mat) : mat :=
  if (plusgroup >? 0)%Z
  then mat_set Nnext (maxage - 1) A
         (Nnext (maxage - 1)%nat A / (1 - exp (- Zcurr (maxage - 1)%nat A)))
  else Nnext.

(** Body of the loop over areas, lines 39-59. *)
Definition area_body (A : nat) (Nnext : mat) : mat :=
  plusgroup_stmt A (mortality_stmt A (recruit_stmt A Nnext)).

(** [Nnext] when the movement loop starts (line 61). *)
Definition Nnext_premove : mat := for_range 0 nareas area_body (fresh 0).

(** Lines 64-71: [tempMat2(BB, AA) = Nnext(age, AA) * mov(age, AA, BB)]. *)
Definition tempMat2_of (Nnext : mat) (age : nat) : mat :=
  for_range 0 nareas
    (fun AA T =>
       for_range 0 nareas
         (fun BB T' => mat_set T' BB AA (Nnext age AA * mov age AA BB)) T)
    (fresh (2 + age)).

(** Body of the loop over ages, lines 62-75. *)
Definition move_body (Nnext : mat) (age : nat) (Nstore : mat) : mat :=
  let tempMat2 := tempMat2_of Nnext age in
  for_range 0 nareas
    (fun BB Ns => mat_set Ns age BB (sum_upto nareas (fun AA => tempMat2 BB AA)))
    Nstore.

Definition popdynOneTScpp : mat :=
  for_range 0 maxage (move_body Nnext_premove) (fresh 1).

(** *** Closed forms of the statements, cell by cell

    What each statement of the area loop leaves in cell [(i, A)] of [Nnext]
    when the cell held [g] before it. *)

Definition recruit_cell (A : nat) (g : R) : R :=
  if Req_dec_T SRrel 2 then recruit_Ricker A
  else if Req_dec_T SRrel 1 then recruit_BH A else g.

Definition aged_cell (i A : nat) (g : R) : R :=
  if ((1 <=? i) && (i <? maxage))%nat
  then Ncurr (i - 1)%nat A * exp (- Zcurr (i - 1)%nat A)
  else g.

Definition plus_cell (i A : nat) (g : R) : R :=
  if ((plusgroup >? 0)%Z && (i =? maxage - 1)%nat)%bool
  then g / (1 - exp (- Zcurr (maxage - 1)%nat A))
  else g.

Definition premove_cell (i A : nat) (g : R) : R :=
  plus_cell i A (aged_cell i A (if (i =? 0)%nat then recruit_cell A g else g)).

End OneTimeStep.

(** ** R objects behind Rcpp handles *)

Definition loc := nat.

(** The R vectors allocated so far are those at locations below [brk]. *)
Record heap := mkHeap { cells : loc -> vec; brk : loc }.

Definition alloc (v : vec) (h : heap) : loc * heap :=
  (brk h, mkHeap (fun l => if (l =? brk h)%nat then v else cells h l) (S (brk h))).

(** [clone(x)]: a new object with the contents of [x]. *)
Definition clone (l : loc) (h : heap) : loc * heap := alloc (cells h l) h.

(** [x = expr] for a sugar expression of the same length: imported in place. *)
Definition assign (l : loc) (v : vec) (h : heap) : heap :=
  mkHeap (fun l' => if (l' =? l)%nat then v else cells h l') (brk h).

(** [x(i) = r]. *)
Definition store (l : loc) (i : nat) (r : R) (h : heap) : heap :=
  assign l (vec_set (cells h l) i r) h.

(** ** Cube operations used by the projection *)

Definition zeros : cube := fun _ _ _ => 0.

(** [C.subcube(0, y, A, maxage-1, y, A) = v]. *)
Definition set_ages (maxage : nat) (C : cube) (y A : nat) (v : vec) : cube :=
  fun a y' A' =>
    if ((a <? maxage) && (y' =? y) && (A' =? A))%nat then v a else C a y' A'.

(** [C.subcube(0, y, 0, maxage-1, y, nareas-1) = m]. *)
Definition set_year (maxage nareas : nat) (C : cube) (y : nat) (m : mat) : cube :=
  fun a y' A' =>
    if ((a <? maxage) && (y' =? y) && (A' <? nareas))%nat then m a A' else C a y' A'.

(** [C.elem(find(C > maxF)).fill(maxF)], over the whole cube. *)
Definition fill_above (maxF : R) (C : cube) : cube :=
  fun a y A => if Rgt_dec (C a y A) maxF then maxF else C a y A.

(** [accu(C.subcube(0, y, A, maxage-1, y, A))]. *)
Definition accu_ages (maxage : nat) (C : cube) (y A : nat) : R :=
  sum_upto maxage (fun a => C a y A).

(** [accu(C.slice(A))]. *)
Definition accu_slice (maxage pyears : nat) (C : cube) (A : nat) : R :=
  sum_upto pyears (fun y => sum_upto maxage (fun a => C a y A)).

(** ** The projection: [popdynCPP] *)

(** The arguments of [popdynCPP], in the order of its parameter list.  The four
    [NumericVector] arguments are handles into the heap. *)
Record inputs := mkInputs {
  nareas : nat; maxage : nat; Ncurr : mat; pyears : nat;
  M_age : mat; Asize_c : vec; MatAge : mat; WtAge : mat;
  Vuln : mat; Retc : mat; Prec : vec;
  movc : nat -> cube; SRrelc : R; Effind : vec;
  Spat_targc : R; hc : R; R0c : loc; SSBpRc : loc;
  aRc : loc; bRc : loc; Qc : R; Fapic : R; maxF : R;
  MPA : mat; control : Z; SSB0c : R; plusgroup : Z }.

(** The same arguments with another control mode. *)
Definition with_control (c : Z) (p : inputs) : inputs :=
  mkInputs (nareas p) (maxage p) (Ncurr p) (pyears p) (M_age p) (Asize_c p)
    (MatAge p) (WtAge p) (Vuln p) (Retc p) (Prec p) (movc p) (SRrelc p)
    (Effind p) (Spat_targc p) (hc p) (R0c p) (SSBpRc p) (aRc p) (bRc p)
    (Qc p) (Fapic p) (maxF p) (MPA p) c (SSB0c p) (plusgroup p).

(** The same arguments with another series of recruitment deviations. *)
Definition with_Prec (d : vec) (p : inputs) : inputs :=
  mkInputs (nareas p) (maxage p) (Ncurr p) (pyears p) (M_age p) (Asize_c p)
    (MatAge p) (WtAge p) (Vuln p) (Retc p) d (movc p) (SRrelc p)
    (Effind p) (Spat_targc p) (hc p) (R0c p) (SSBpRc p) (aRc p) (bRc p)
    (Qc p) (Fapic p) (maxF p) (MPA p) (control p) (SSB0c p) (plusgroup p).

(** The local variables of [popdynCPP] that outlive a statement. *)
Record pstate := mkState {
  Narray : cube; Barray : cube; SSNarray : cube; SBarray : cube;
  VBarray : cube; Marray : cube; FMarray : cube; FMretarray : cube;
  Zarray : cube; tempVec : vec; fishdist : vec; SSB0a : vec; hp : heap }.

Definition set_Narray (c : cube) (s : pstate) : pstate :=
  mkState c (Barray s) (SSNarray s) (SBarray s) (VBarray s) (Marray s)
    (FMarray s) (FMretarray s) (Zarray s) (tempVec s) (fishdist s) (SSB0a s) (hp s).
Definition set_Barray (c : cube) (s : pstate) : pstate :=
  mkState (Narray s) c (SSNarray s) (SBarray s) (VBarray s) (Marray s)
    (FMarray s) (FMretarray s) (Zarray s) (tempVec s) (fishdist s) (SSB0a s) (hp s).
Definition set_SSNarray (c : cube) (s : pstate) : pstate :=
  mkState (Narray s) (Barray s) c (SBarray s) (VBarray s) (Marray s)
    (FMarray s) (FMretarray s) (Zarray s) (tempVec s) (fishdist s) (SSB0a s) (hp s).
Definition set_SBarray (c : cube) (s : pstate) : pstate :=
  mkState (Narray s) (Barray s) (SSNarray s) c (VBarray s) (Marray s)
    (FMarray s) (FMretarray s) (Zarray s) (tempVec s) (fishdist s) (SSB0a s) (hp s).
Definition set_VBarray (c : cube) (s : pstate) : pstate :=
  mkState (Narray s) (Barray s) (SSNarray s) (SBarray s) c (Marray s)
    (FMarray s) (FMretarray s) (Zarray s) (tempVec s) (fishdist s) (SSB0a s) (hp s).
Definition set_Marray (c : cube) (s : pstate) : pstate :=
  mkState (Narray s) (Barray s) (SSNarray s) (SBarray s) (VBarray s) c
    (FMarray s) (FMretarray s) (Zarray s) (tempVec s) (fishdist s) (SSB0a s) (hp s).
Definition set_FMarray (c : cube) (s : pstate) : pstate :=
  mkState (Narray s) (Barray s) (SSNarray s) (SBarray s) (VBarray s) (Marray s)
    c (FMretarray s) (Zarray s) (tempVec s) (fishdist s) (SSB0a s) (hp s).
Definition set_FMretarray (c : cube) (s : pstate) : pstate :=
  mkState (Narray s) (Barray s) (SSNarray s) (SBarray s) (VBarray s) (Marray s)
    (FMarray s) c (Zarray s) (tempVec s) (fishdist s) (SSB0a s) (hp s).
Definition set_Zarray (c : cube) (s : pstate) : pstate :=
  mkState (Narray s) (Barray s) (SSNarray s) (SBarray s) (VBarray s) (Marray s)
    (FMarray s) (FMretarray s) c (tempVec s) (fishdist s) (SSB0a s) (hp s).
Definition set_tempVec (v : vec) (s : pstate) : pstate :=
  mkState (Narray s) (Barray s) (SSNarray s) (SBarray s) (VBarray s) (Marray s)
    (FMarray s) (FMretarray s) (Zarray s) v (fishdist s) (SSB0a s) (hp s).
Definition set_fishdist (v : vec) (s : pstate) : pstate :=
  mkState (Narray s) (Barray s) (SSNarray s) (SBarray s) (VBarray s) (Marray s)
    (FMarray s) (FMretarray s) (Zarray s) (tempVec s) v (SSB0a s) (hp s).
Definition set_SSB0a (v : vec) (s : pstate) : pstate :=
  mkState (Narray s) (Barray s) (SSNarray s) (SBarray s) (VBarray s) (Marray s)
    (FMarray s) (FMretarray s) (Zarray s) (tempVec s) (fishdist s) v (hp s).
Definition set_hp (h : heap) (s : pstate) : pstate :=
  mkState (Narray s) (Barray s) (SSNarray s) (SBarray s) (VBarray s) (Marray s)
    (FMarray s) (FMretarray s) (Zarray s) (tempVec s) (fishdist s) (SSB0a s) h.

Section Projection.

(** [pow] is the power function of <cmath>; nothing is assumed about it. *)
Variable pow : R -> R -> R.

(** [fresh yr] is the uninitialised storage met by the call of
    [popdynOneTScpp] in iteration [yr]; [fishdist0] is what [fishdist] holds
    between its declaration and its first assignment; [h0] is the heap at
    entry. *)
Variable fresh : nat -> nat -> mat.
Variable fishdist0 : vec.
Variable h0 : heap.

Variable p : inputs.

(** Lines 142-144: the three clones. *)
Definition R0c2 : loc := fst (clone (R0c p) h0).
Definition heap1 : heap := snd (clone (R0c p) h0).
Definition aRc2 : loc := fst (clone (aRc p) heap1).
Definition heap2 : heap := snd (clone (aRc p) heap1).
Definition bRc2 : loc := fst (clone (bRc p) heap2).
Definition heap3 : heap := snd (clone (bRc p) heap2).

(** Line 147: [double R0 = sum(R0c)]. *)
Definition R0 : R := sum_upto (nareas p) (cells h0 (R0c p)).

(** Lines 128-146: the declarations. *)
Definition decls : pstate :=
  mkState zeros zeros zeros zeros zeros zeros zeros zeros zeros
    (fun _ => 0) fishdist0 (fun _ => 0) heap3.

(** Lines 157-162: body of the area loop of the initial year. *)
Definition year0_area (A : nat) (s : pstate) : pstate :=
  let s := set_Barray (set_ages (maxage p) (Barray s) 0 A
                         (fun a => Ncurr p a A * WtAge p a 0%nat)) s in
  let s := set_SSNarray (set_ages (maxage p) (SSNarray s) 0 A
                           (fun a => Ncurr p a A * MatAge p a 0%nat)) s in
  let s := set_SBarray (set_ages (maxage p) (SBarray s) 0 A
                          (fun a => Ncurr p a A * WtAge p a 0%nat * MatAge p a 0%nat)) s in
  let s := set_VBarray (set_ages (maxage p) (VBarray s) 0 A
                          (fun a => Ncurr p a A * WtAge p a 0%nat * Vuln p a 0%nat)) s in
  let s := set_Marray (set_ages (maxage p) (Marray s) 0 A
                         (fun a => M_age p a 0%nat)) s in
  set_tempVec (vec_set (tempVec s) A (accu_slice (maxage p) (pyears p) (VBarray s) A)) s.

(** Lines 166 and 223: effort follows vulnerable biomass.  The quotient stands
    for the one of the code where the summed weights are not 0; the
    properties that depend on the value of a share assume it
    ([shares_defined]). *)
Definition fishdist_stmt (s : pstate) : pstate :=
  set_fishdist
    (fun A => pow (tempVec s A) (Spat_targc p)
              / sum_upto (nareas p) (fun A' => pow (tempVec s A') (Spat_targc p))) s.

(** Lines 171-172 and 239-240: F from effort and catchability, year [y]. *)
Definition F_effort_area (y A : nat) (s : pstate) : pstate :=
  let s := set_FMarray (set_ages (maxage p) (FMarray s) y A
             (fun a => Effind p y * Qc p * fishdist s A * Vuln p a y / Asize_c p A)) s in
  set_FMretarray (set_ages (maxage p) (FMretarray s) y A
             (fun a => Effind p y * Qc p * fishdist s A * Retc p a y / Asize_c p A)) s.

(** Lines 177-178 and 246-247: F from the apical F, year [y]. *)
Definition F_apical_area (y A : nat) (s : pstate) : pstate :=
  let s := set_FMarray (set_ages (maxage p) (FMarray s) y A
             (fun a => Fapic p * fishdist s A * Vuln p a y / Asize_c p A)) s in
  set_FMretarray (set_ages (maxage p) (FMretarray s) y A
             (fun a => Fapic p * fishdist s A * Retc p a y / Asize_c p A)) s.

(** Lines 169-180 and 237-250. *)
Definition F_stmt (y : nat) (s : pstate) : pstate :=
  let s := if (control p =? 1)%Z then for_range 0 (nareas p) (F_effort_area y) s else s in
  if (control p =? 2)%Z then for_range 0 (nareas p) (F_apical_area y) s else s.

(** Lines 188-191 and 277-280: the Fmax condition. *)
Definition clamp_stmt (s : pstate) : pstate :=
  let s := set_FMarray (fill_above (maxF p) (FMarray s)) s in
  set_FMretarray (fill_above (maxF p) (FMretarray s)) s.

(** Lines 193 and 281: [Z = M + F] for year [y]. *)
Definition Z_stmt (y : nat) (s : pstate) : pstate :=
  set_Zarray (set_year (maxage p) (nareas p) (Zarray s) y
                (fun a A => Marray s a y A + FMarray s a y A)) s.

(** Lines 150-193: the initial year. *)
Definition year0 : pstate :=
  let s := set_Narray (set_year (maxage p) (nareas p) (Narray decls) 0 (Ncurr p)) decls in
  let s := for_range 0 (nareas p) year0_area s in
  let s := fishdist_stmt s in
  let s := F_stmt 0 s in
  let s := clamp_stmt s in
  Z_stmt 0 s.

(** Lines 214-219: body of the area loop of year [yr + 1]. *)
Definition next_area (yr : nat) (NextYrN : mat) (A : nat) (s : pstate) : pstate :=
  let s := set_Barray (set_ages (maxage p) (Barray s) (yr + 1) A
             (fun a => NextYrN a A * WtAge p a (yr + 1)%nat)) s in
  let s := set_SSNarray (set_ages (maxage p) (SSNarray s) (yr + 1) A
             (fun a => NextYrN a A * MatAge p a (yr + 1)%nat)) s in
  let s := set_SBarray (set_ages (maxage p) (SBarray s) (yr + 1) A
             (fun a => NextYrN a A * WtAge p a (yr + 1)%nat * MatAge p a (yr + 1)%nat)) s in
  let s := set_VBarray (set_ages (maxage p) (VBarray s) (yr + 1) A
             (fun a => NextYrN a A * WtAge p a (yr + 1)%nat * Vuln p a (yr + 1)%nat)) s in
  let s := set_Marray (set_ages (maxage p) (Marray s) (yr + 1) A
             (fun a => M_age p a (yr + 1)%nat)) s in
  set_tempVec (vec_set (tempVec s) A (accu_ages (maxage p) (VBarray s) (yr + 1) A)) s.

(** Lines 225-234: closures and reallocation of the effort.  The quotient by
    [fracE] stands for the one of the code where [fracE] is not 0, that is
    where some effort is left in an open area ([shares_defined]). *)
Definition closure_stmt (yr : nat) (s : pstate) : pstate :=
  let d1 : vec := fun A => MPA p yr A * fishdist s A in
  let fracE := sum_upto (nareas p) d1 in
  let fracE2 : vec := fun A => d1 A * (fracE + (1 - fracE)) / fracE in
  set_fishdist fracE2 s.

(** Lines 256-259. *)
Definition unfished_area (yr A : nat) (s : pstate) : pstate :=
  let s := set_SSB0a (vec_set (SSB0a s) A (accu_ages (maxage p) (SBarray s) (yr + 1) A)) s in
  set_hp (store R0c2 A (accu_ages (maxage p) (SBarray s) yr A) (hp s)) s.

(** Lines 265-268; [log] is [ln]. *)
Definition recpars_area (A : nat) (s : pstate) : pstate :=
  let s := set_hp (store bRc2 A (ln (5 * hc p) / (0.8 * SSB0a s A)) (hp s)) s in
  set_hp (store aRc2 A (exp (cells (hp s) bRc2 A * SSB0a s A)
                        / cells (hp s) (SSBpRc p) A) (hp s)) s.

(** Lines 252-268: the unfished reference run. *)
Definition unfished_stmt (yr : nat) (s : pstate) : pstate :=
  let s := set_Zarray (set_year (maxage p) (nareas p) (Zarray s) (yr + 1)
                         (fun a A => Marray s a (yr + 1)%nat A)) s in
  let s := for_range 0 (nareas p) (unfished_area yr) s in
  let s := set_SSB0a (fun A => SSB0a s A
                               / (sum_upto (nareas p) (SSB0a s) / SSB0c p)) s in
  let s := set_hp (assign R0c2
                     (fun A => cells (hp s) R0c2 A
                               / (sum_upto (nareas p) (cells (hp s) R0c2) / R0))
                     (hp s)) s in
  for_range 0 (nareas p) recpars_area s.

(** Lines 200-201: spawning biomass handed to the transition. *)
Definition SB_of (yr : nat) (s : pstate) : vec :=
  let SB : vec := fun A => accu_ages (maxage p) (SBarray s) yr A in
  if ((0 <? yr)%nat && (control p =? 3)%Z)%bool then SSB0a s else SB.

(** Lines 203-210: the call of [popdynOneTScpp] in iteration [yr]. *)
Definition NextYrN_of (yr : nat) (s : pstate) : mat :=
  let Ncurr2 : mat := fun a A => Narray s a yr A in
  let Zcurr : mat := fun a A => Zarray s a yr A in
  popdynOneTScpp (nareas p) (maxage p) (SB_of yr s) Ncurr2 Zcurr
    (Prec p (yr + maxage p)%nat) (hc p)
    (cells (hp s) R0c2) (cells (hp s) (SSBpRc p))
    (cells (hp s) aRc2) (cells (hp s) bRc2)
    (movc p yr) (SRrelc p) (plusgroup p) (fresh yr).

(** Lines 195-285: body of the loop over years. *)
Definition year_body (yr : nat) (s : pstate) : pstate :=
  let NextYrN := NextYrN_of yr s in
  let s := set_Narray (set_year (maxage p) (nareas p) (Narray s) (yr + 1) NextYrN) s in
  let s := for_range 0 (nareas p) (next_area yr NextYrN) s in
  let s := fishdist_stmt s in
  let s := closure_stmt yr s in
  let s := F_stmt (yr + 1) s in
  if (control p =? 3)%Z
  then unfished_stmt yr s
  else Z_stmt (yr + 1) (clamp_stmt s).

(** The variables after [n] iterations of the loop over years. *)
Definition state_after (n : nat) : pstate := for_range 0 n year_body year0.

(** The list returned, with the heap left behind. *)
Definition popdynCPP : list cube * heap :=
  let s := state_after (pyears p - 1) in
  ([Narray s; Barray s; SSNarray s; SBarray s; VBarray s;
    FMarray s; FMretarray s; Zarray s], hp s).

End Projection.

(** ** A concrete run

    One area, two age classes, natural mortality 0.2 at both ages, starting
    abundance 100 and 50, recruitment deviation 1 every year, Beverton-Holt
    recruitment, three years.  The control mode, the cap [maxF] and the apical
    F are left open; the effort is the apical F in every year and the
    catchability is 1. *)

Definition ones : vec := fun _ => 1.

Definition scen_N : mat := fun a _ => match a with O => 100 | S _ => 50 end.

Definition scen_Z : mat := fun _ _ => 0.2.

Definition no_fish : mat := fun _ _ => 0.

(** One area: everything stays.  Two areas: half of each area moves. *)
Definition stay : cube := fun _ _ _ => 1.

Definition mix : cube := fun _ _ _ => 1 / 2.

(** Contents of uninitialised storage: any value will do. *)
Definition junk : nat -> mat := fun _ _ _ => 7.

(** Four vectors are allocated at entry: unfished recruitment 1000 at
    location 0, and ones at locations 1 to 3. *)
Definition scen_heap : heap :=
  mkHeap (fun l _ => match l with O => 1000 | S _ => 1 end) 4%nat.

Definition scenario (ctl : Z) (cap fapic : R) : inputs :=
  {| nareas := 1; maxage := 2; Ncurr := scen_N; pyears := 3;
     M_age := fun _ _ => 0.2; Asize_c := ones;
     MatAge := fun _ _ => 1; WtAge := fun _ _ => 1;
     Vuln := fun _ _ => 1; Retc := fun _ _ => 1; Prec := ones;
     movc := fun _ => stay; SRrelc := 1; Effind := fun _ => fapic;
     Spat_targc := 1; hc := 0.7; R0c := 0%nat; SSBpRc := 1%nat; aRc := 2%nat;
     bRc := 3%nat;
     Qc := 1; Fapic := fapic; maxF := cap; MPA := fun _ _ => 1;
     control := ctl; SSB0c := 1000; plusgroup := 0 |}.

(** The run of the scenario: [pow] is [Rpower], the uninitialised storage is
    [junk], and [fishdist] starts as [ones]. *)
Definition scen_run (ctl : Z) (cap fapic : R) : list cube * heap :=
  popdynCPP Rpower (fun _ => junk) ones scen_heap (scenario ctl cap fapic).

Definition scen_state (ctl : Z) (cap fapic : R) (n : nat) : pstate :=
  state_after Rpower (fun _ => junk) ones scen_heap (scenario ctl cap fapic) n.

(** Every fish stays in its area. *)
Definition home : cube := fun _ AA B => if (AA =? B)%nat then 1 else 0.

(** Spawning biomass at 20% and at twice the unfished level of [ones]. *)
Definition fifth : vec := fun _ => 0.2.

Definition twice : vec := fun _ => 2.



(** ** Closed form of the effort shares

    Lines 223-234 as a function of [tempVec]: what [fishdist] holds after the
    closures of iteration [yr]. *)

Definition effort_share (pow : R -> R -> R) (p : inputs) (yr : nat) (tv : vec)
           (A : nat) : R :=
  let w := fun A1 => pow (tv A1) (Spat_targc p)
                     / sum_upto (nareas p) (fun A' => pow (tv A') (Spat_targc p)) in
  let d1 := fun A1 => MPA p yr A1 * w A1 in
  let fracE := sum_upto (nareas p) d1 in
  d1 A * (fracE + (1 - fracE)) / fracE.

(** ** The divisors of a run with fishing

    In control modes 1 and 2 the fishing mortality of a year is a quotient of
    quotients, and through the total mortality it feeds the numbers of the
    years that follow.  The two predicates below say that no divisor met on
    the way is 0, in terms of the cubes returned.

    [shares_defined], for the vulnerable biomass [VB]: the size of every area
    (lines 171-172, 177-178, 239-240 and 246-247), the sum of the effort
    weights of every year (lines 166 and 223; in the first year [tempVec]
    holds the sum of the whole slice, of which only year 0 is filled), and the
    fraction [fracE] of effort in open areas of every iteration (line 232). *)

Definition shares_defined (pow : R -> R -> R) (p : inputs) (VB : cube) : Prop :=
  (forall A, (A < nareas p)%nat -> Asize_c p A <> 0)
  /\ (forall y, (y < pyears p)%nat ->
        sum_upto (nareas p)
          (fun A => pow (accu_ages (maxage p) VB y A) (Spat_targc p)) <> 0)
  /\ (forall yr, (yr + 1 < pyears p)%nat ->
        sum_upto (nareas p)
          (fun A => MPA p yr A
                    * (pow (accu_ages (maxage p) VB (yr + 1) A) (Spat_targc p)
                       / sum_upto (nareas p)
                           (fun A' => pow (accu_ages (maxage p) VB (yr + 1) A')
                                        (Spat_targc p)))) <> 0).

(** [transition_defined], for the spawning biomass [SB] and the total
    mortality [Z]: in every call of [popdynOneTScpp], the denominator of the
    Beverton-Holt formula when it is evaluated (line 42) and the divisor of
    the plus group when it is on (line 57).  Outside mode 3 the call gets the
    recruitment parameters as the caller passed them; [SSBpRc], which is not
    cloned, has to name an object that exists at entry. *)

Definition transition_defined (h0 : heap) (p : inputs) (SB Z : cube) : Prop :=
  (SSBpRc p < brk h0)%nat
  /\ (SRrelc p = 1 ->
      forall yr A, (yr + 1 < pyears p)%nat -> (A < nareas p)%nat ->
        cells h0 (SSBpRc p) A * cells h0 (R0c p) A * (1 - hc p)
        + (5 * hc p - 1) * accu_ages (maxage p) SB yr A <> 0)
  /\ ((plusgroup p > 0)%Z ->
      forall yr A, (yr + 1 < pyears p)%nat -> (A < nareas p)%nat ->
        1 - exp (- Z (maxage p - 1)%nat yr A) <> 0).

(** ** Proof automation *)

(** Case analysis on the index tests of the array updates. *)
Ltac index_cases :=
  repeat match goal with
         | |- context [(?a =? ?b)%nat] => destruct (Nat.eqb_spec a b)
         | |- context [(?a <? ?b)%nat] => destruct (Nat.ltb_spec a b)
         | |- context [(?a <=? ?b)%nat] => destruct (Nat.leb_spec a b)
         end;
  simpl; try lia; try reflexivity.

(** Case analysis on the three tests of the control mode. *)
Ltac control_cases p :=
  destruct (control p =? 1)%Z eqn:?, (control p =? 2)%Z eqn:?,
           (control p =? 3)%Z eqn:?; try lia.

(** Unfolds the statements of the loop over years. *)
Ltac open_year :=
  unfold year_body, year0, unfished_stmt, Z_stmt, clamp_stmt, closure_stmt,
    fishdist_stmt.


(** * Properties of the arrays and loops *)

Lemma sum_upto_ext (n : nat) (f g : nat -> R) :
  (forall i, (i < n)%nat -> f i = g i) -> sum_upto n f = sum_upto n g.
Proof.
  induction n as [|n IH]; intros H; simpl; [reflexivity|].
  rewrite IH, (H n) by auto with arith. reflexivity.
Qed.

Lemma sum_upto_plus (n : nat) (f g : nat -> R) :
  sum_upto n (fun i => f i + g i) = sum_upto n f + sum_upto n g.
Proof. induction n as [|n IH]; simpl; [lra|rewrite IH; lra]. Qed.

Lemma sum_upto_scale_l (n : nat) (c : R) (f : nat -> R) :
  sum_upto n (fun i => c * f i) = c * sum_upto n f.
Proof. induction n as [|n IH]; simpl; [lra|rewrite IH; lra]. Qed.

Lemma sum_upto_zero (n : nat) : sum_upto n (fun _ => 0) = 0.
Proof. induction n as [|n IH]; simpl; [reflexivity|rewrite IH; lra]. Qed.

(** Two nested sums commute. *)
Lemma sum_upto_swap (n m : nat) (f : nat -> nat -> R) :
  sum_upto n (fun i => sum_upto m (fun j => f i j))
  = sum_upto m (fun j => sum_upto n (fun i => f i j)).
Proof.
  induction n as [|n IH]; simpl.
  - symmetry. apply sum_upto_zero.
  - rewrite IH, <- sum_upto_plus. reflexivity.
Qed.

Lemma sum_upto_le (n : nat) (f g : nat -> R) :
  (forall i, (i < n)%nat -> f i <= g i) -> sum_upto n f <= sum_upto n g.
Proof.
  induction n as [|n IH]; intros H; simpl; [lra|].
  assert (f n <= g n) by auto with arith.
  assert (sum_upto n f <= sum_upto n g) by auto with arith.
  lra.
Qed.

(** A sum of nonnegative terms that is positive has a positive term. *)
Lemma sum_upto_pos_term (n : nat) (f : nat -> R) :
  (forall i, (i < n)%nat -> 0 <= f i) -> 0 < sum_upto n f ->
  exists i, (i < n)%nat /\ 0 < f i.
Proof.
  induction n as [|n IH]; intros Hf Hs; simpl in Hs; [lra|].
  destruct (Rlt_dec 0 (f n)) as [Hn|Hn].
  - exists n. auto with arith.
  - assert (0 <= f n) by auto with arith.
    destruct IH as (i & Hi & Hp); [auto with arith|lra|].
    exists i. auto with arith.
Qed.

(** Termwise [<=] with one strict term gives a strict inequality. *)
Lemma sum_upto_lt (n : nat) (f g : nat -> R) (k : nat) :
  (forall i, (i < n)%nat -> f i <= g i) -> (k < n)%nat -> f k < g k ->
  sum_upto n f < sum_upto n g.
Proof.
  induction n as [|n IH]; intros H Hk Hlt; simpl; [lia|].
  assert (f n <= g n) by auto with arith.
  assert (sum_upto n f <= sum_upto n g) by (apply sum_upto_le; auto with arith).
  destruct (Nat.eq_dec k n) as [->|Hne]; [lra|].
  assert (sum_upto n f < sum_upto n g) by (apply IH; auto with arith; lia).
  lra.
Qed.

(** A loop that assigns [m(k, A) = f k] for [k] from [lo]. *)
Lemma for_range_rows (lo n A : nat) (f : nat -> R) (m : mat) (i j : nat) :
  for_range lo n (fun k m' => mat_set m' k A (f k)) m i j
  = if ((j =? A) && (lo <=? i) && (i <? lo + n))%nat then f i else m i j.
Proof.
  induction n as [|n IH]; simpl.
  - index_cases.
  - unfold mat_set at 1. rewrite IH. index_cases; subst; reflexivity.
Qed.

(** A loop that assigns [m(r, k) = f k] for [k] from [lo]. *)
Lemma for_range_cols (lo n r : nat) (f : nat -> R) (m : mat) (i j : nat) :
  for_range lo n (fun k m' => mat_set m' r k (f k)) m i j
  = if ((i =? r) && (lo <=? j) && (j <? lo + n))%nat then f j else m i j.
Proof.
  induction n as [|n IH]; simpl.
  - index_cases.
  - unfold mat_set at 1. rewrite IH. index_cases; subst; reflexivity.
Qed.

(** Two nested loops that assign [m(j, i) = f i j]. *)
Lemma for_range_fill (n k : nat) (f : nat -> nat -> R) (m : mat) (r c : nat) :
  for_range 0 n
    (fun i m' => for_range 0 k (fun j m'' => mat_set m'' j i (f i j)) m') m r c
  = if ((c <? n) && (r <? k))%nat then f c r else m r c.
Proof.
  induction n as [|n IH]; simpl; [reflexivity|].
  rewrite (for_range_rows 0 k n (fun j => f n j)), IH.
  index_cases; subst; reflexivity.
Qed.

(** A loop whose body leaves a component of the state alone leaves it alone. *)
Lemma for_range_preserves {S T : Type} (proj : S -> T) (lo n : nat)
      (body : nat -> S -> S) (s : S) :
  (forall k s', proj (body k s') = proj s') ->
  proj (for_range lo n body s) = proj s.
Proof.
  intros H. induction n as [|n IH]; simpl; [reflexivity|].
  rewrite H. exact IH.
Qed.

Lemma for_range_invariant {S : Type} (P : S -> Prop) (lo n : nat)
      (body : nat -> S -> S) (s : S) :
  (forall k s', P s' -> P (body k s')) -> P s -> P (for_range lo n body s).
Proof.
  intros H H0. induction n as [|n IH]; simpl; [exact H0|].
  apply H, IH.
Qed.

(** Loops with the same bound whose bodies agree in range agree. *)
Lemma for_range_ext {S : Type} (lo n : nat) (b1 b2 : nat -> S -> S) (s : S) :
  (forall k s', (lo <= k < lo + n)%nat -> b1 k s' = b2 k s') ->
  for_range lo n b1 s = for_range lo n b2 s.
Proof.
  intros H. induction n as [|n IH]; simpl; [reflexivity|].
  rewrite IH by (intros; apply H; lia). apply H. lia.
Qed.

Lemma fill_above_le (maxF : R) (C : cube) (a y A : nat) :
  fill_above maxF C a y A <= maxF.
Proof. unfold fill_above. destruct (Rgt_dec (C a y A) maxF); lra. Qed.

Lemma fill_above_id (maxF : R) (C : cube) (a y A : nat) :
  C a y A <= maxF -> fill_above maxF C a y A = C a y A.
Proof. unfold fill_above. destruct (Rgt_dec (C a y A) maxF); lra. Qed.

(** Survival over a positive mortality leaves a deficit strictly between 0 and 1. *)
Lemma survival_deficit (z : R) : 0 < z -> 0 < 1 - exp (- z) < 1.
Proof.
  intros Hz. pose proof (exp_pos (- z)) as Hp.
  assert (exp (- z) < exp 0) as Hlt by (apply exp_increasing; lra).
  rewrite exp_0 in Hlt. lra.
Qed.

Lemma div_fraction_ge (g d : R) : 0 < d < 1 -> 0 <= g -> g <= g / d.
Proof.
  intros Hd Hg. apply (Rmult_le_reg_r d); [lra|].
  unfold Rdiv. rewrite Rmult_assoc, Rinv_l by lra. nra.
Qed.

Lemma div_fraction_gt (g d : R) : 0 < d < 1 -> 0 < g -> g < g / d.
Proof.
  intros Hd Hg. apply (Rmult_lt_reg_r d); [lra|].
  unfold Rdiv. rewrite Rmult_assoc, Rinv_l by lra. nra.
Qed.


(** ** The transition [popdynOneTScpp] *)

Section OneTimeStepFacts.

Variables (nareas maxage : nat) (SSBcurr : vec) (Ncurr Zcurr : mat)
          (PerrYr hs : R) (R0a SSBpR aR bR : vec) (mov : cube)
          (SRrel : R) (plusgroup : Z) (fresh : nat -> mat).

Local Abbreviation premove :=
  (Nnext_premove nareas maxage SSBcurr Ncurr Zcurr PerrYr hs R0a SSBpR aR bR
     SRrel plusgroup fresh).
Local Abbreviation onestep :=
  (popdynOneTScpp nareas maxage SSBcurr Ncurr Zcurr PerrYr hs R0a SSBpR aR bR
     mov SRrel plusgroup fresh).
Local Abbreviation body :=
  (area_body maxage SSBcurr Ncurr Zcurr PerrYr hs R0a SSBpR aR bR SRrel plusgroup).
Local Abbreviation cell :=
  (premove_cell maxage SSBcurr Ncurr Zcurr PerrYr hs R0a SSBpR aR bR SRrel plusgroup).

Lemma recruit_stmt_cell (A : nat) (m : mat) (i j : nat) :
  recruit_stmt SSBcurr PerrYr hs R0a SSBpR aR bR SRrel A m i j
  = if ((i =? 0) && (j =? A))%nat
    then recruit_cell SSBcurr PerrYr hs R0a SSBpR aR bR SRrel A (m i j)
    else m i j.
Proof.
  unfold recruit_stmt, recruit_cell, mat_set.
  destruct (Req_dec_T SRrel 2), (Req_dec_T SRrel 1); index_cases.
Qed.

Lemma mortality_stmt_cell (A : nat) (m : mat) (i j : nat) :
  mortality_stmt maxage Ncurr Zcurr A m i j
  = if (j =? A)%nat then aged_cell maxage Ncurr Zcurr i A (m i j) else m i j.
Proof.
  unfold mortality_stmt, aged_cell.
  rewrite (for_range_rows 1 (maxage - 1) A
             (fun age => Ncurr (age - 1)%nat A * exp (- Zcurr (age - 1)%nat A))).
  index_cases.
Qed.

Lemma plusgroup_stmt_cell (A : nat) (m : mat) (i j : nat) :
  plusgroup_stmt maxage Zcurr plusgroup A m i j
  = if (j =? A)%nat then plus_cell maxage Zcurr plusgroup i A (m i j) else m i j.
Proof.
  unfold plusgroup_stmt, plus_cell, mat_set.
  destruct (plusgroup >? 0)%Z; simpl; index_cases; subst; reflexivity.
Qed.

Lemma area_body_cell (A : nat) (m : mat) (i j : nat) :
  body A m i j = if (j =? A)%nat then cell i A (m i j) else m i j.
Proof.
  unfold area_body, premove_cell.
  rewrite plusgroup_stmt_cell, mortality_stmt_cell, recruit_stmt_cell.
  index_cases.
Qed.

(** [Nnext] before movement, cell by cell. *)
Lemma Nnext_premove_cell (i A : nat) :
  premove i A = if (A <? nareas)%nat then cell i A (fresh 0%nat i A) else fresh 0%nat i A.
Proof.
  unfold Nnext_premove.
  induction nareas as [|n IH]; simpl; [reflexivity|].
  rewrite area_body_cell, IH. index_cases; subst; reflexivity.
Qed.

Lemma tempMat2_cell (Nnext : mat) (age BB AA : nat) :
  tempMat2_of nareas mov fresh Nnext age BB AA
  = if ((AA <? nareas) && (BB <? nareas))%nat
    then Nnext age AA * mov age AA BB
    else fresh (2 + age)%nat BB AA.
Proof.
  unfold tempMat2_of. apply for_range_fill.
Qed.

Lemma move_body_cell (Nnext : mat) (age : nat) (Nstore : mat) (i BB : nat) :
  move_body nareas mov fresh Nnext age Nstore i BB
  = if ((i =? age) && (BB <? nareas))%nat
    then sum_upto nareas (fun AA => Nnext age AA * mov age AA BB)
    else Nstore i BB.
Proof.
  unfold move_body.
  rewrite (for_range_cols 0 nareas age
             (fun BB' => sum_upto nareas
                           (fun AA => tempMat2_of nareas mov fresh Nnext age BB' AA))).
  index_cases.
  apply sum_upto_ext. intros AA HAA. rewrite tempMat2_cell.
  destruct (Nat.ltb_spec AA nareas), (Nat.ltb_spec BB nareas); simpl; try lia.
  reflexivity.
Qed.

Lemma move_loop_cell (Nnext : mat) (n : nat) (Nstore : mat) (age BB : nat) :
  for_range 0 n (move_body nareas mov fresh Nnext) Nstore age BB
  = if ((age <? n) && (BB <? nareas))%nat
    then sum_upto nareas (fun AA => Nnext age AA * mov age AA BB)
    else Nstore age BB.
Proof.
  induction n as [|n IH]; simpl; [reflexivity|].
  rewrite move_body_cell, IH. index_cases; subst; reflexivity.
Qed.

(** The matrix returned, cell by cell: movement applied to [Nnext]. *)
Lemma popdynOneTScpp_cell (age BB : nat) :
  onestep age BB
  = if ((age <? maxage) && (BB <? nareas))%nat
    then sum_upto nareas (fun AA => premove age AA * mov age AA BB)
    else fresh 1%nat age BB.
Proof. unfold popdynOneTScpp. apply move_loop_cell. Qed.

(** Cells of the age classes above 0 that the plus group does not touch. *)
Lemma premove_aged (a A : nat) :
  (A < nareas)%nat -> (1 <= a < maxage)%nat ->
  (plusgroup <= 0)%Z \/ (a < maxage - 1)%nat ->
  premove a A = Ncurr (a - 1)%nat A * exp (- Zcurr (a - 1)%nat A).
Proof.
  intros HA Ha Hp. rewrite Nnext_premove_cell.
  unfold premove_cell, plus_cell, aged_cell.
  destruct (Z.gtb_spec plusgroup 0); index_cases.
Qed.

(** The last age class under the plus group. *)
Lemma premove_plus (A : nat) :
  (A < nareas)%nat -> (2 <= maxage)%nat -> (plusgroup > 0)%Z ->
  premove (maxage - 1)%nat A
  = Ncurr (maxage - 2)%nat A * exp (- Zcurr (maxage - 2)%nat A)
    / (1 - exp (- Zcurr (maxage - 1)%nat A)).
Proof.
  intros HA Hm Hp. rewrite Nnext_premove_cell.
  unfold premove_cell, plus_cell, aged_cell.
  destruct (Z.gtb_spec plusgroup 0); [|lia].
  replace (maxage - 1 - 1)%nat with (maxage - 2)%nat by lia.
  index_cases.
Qed.

(** Age class 0 when no recruitment formula is selected. *)
Lemma premove_unassigned (A : nat) :
  SRrel <> 1 -> SRrel <> 2 -> (A < nareas)%nat -> (0 < maxage)%nat ->
  premove 0%nat A
  = plus_cell maxage Zcurr plusgroup 0 A (fresh 0%nat 0%nat A).
Proof.
  intros H1 H2 HA Hm. rewrite Nnext_premove_cell.
  unfold premove_cell, aged_cell, recruit_cell.
  destruct (Req_dec_T SRrel 2); [contradiction|].
  destruct (Req_dec_T SRrel 1); [contradiction|].
  index_cases.
Qed.

(** C1. For an age class whose movement fractions out of every source area
    sum to 1 over the destination areas, the movement step conserves
    abundance: the numbers-at-age returned, summed over the destination
    areas, equal the numbers-at-age before movement, summed over the source
    areas. *)
Theorem movement_conserves_abundance (age : nat) :
  (age < maxage)%nat ->
  (forall AA, (AA < nareas)%nat -> sum_upto nareas (fun BB => mov age AA BB) = 1) ->
  sum_upto nareas
    (fun BB =>
       popdynOneTScpp nareas maxage SSBcurr Ncurr Zcurr PerrYr hs R0a SSBpR aR bR
       mov SRrel plusgroup fresh age BB)
  = sum_upto nareas
      (fun AA =>
         Nnext_premove nareas maxage SSBcurr Ncurr Zcurr PerrYr hs R0a SSBpR aR bR
       SRrel plusgroup fresh age AA).
Proof.
  intros Hage Hmov.
  rewrite (sum_upto_ext nareas (fun BB => onestep age BB)
             (fun BB => sum_upto nareas (fun AA => premove age AA * mov age AA BB))).
  - rewrite sum_upto_swap. apply sum_upto_ext. intros AA HAA.
    rewrite sum_upto_scale_l, Hmov by assumption. lra.
  - intros BB HBB. rewrite popdynOneTScpp_cell. index_cases.
Qed.

(** C10, as amended. When the selector is neither 1 nor 2 the recruitment
    statements assign nothing, so age class 0 of [Nnext] reaches the movement
    loop holding what the uninitialised matrix held; only with a single age
    class and the plus group on is that value first divided by
    1 - exp(-Z) (line 57). The age-0 row returned is the movement of these
    values: it is determined by the uninitialised storage and by no
    recruitment input. *)
Theorem recruitment_unassigned (A : nat) :
  SRrel <> 1 -> SRrel <> 2 -> (A < nareas)%nat -> (0 < maxage)%nat ->
  (forall m i j, recruit_stmt SSBcurr PerrYr hs R0a SSBpR aR bR SRrel A m i j = m i j)
  /\ Nnext_premove nareas maxage SSBcurr Ncurr Zcurr PerrYr hs R0a SSBpR aR bR
       SRrel plusgroup fresh 0%nat A
     = (if ((plusgroup >? 0)%Z && (maxage =? 1)%nat)%bool
        then fresh 0%nat 0%nat A / (1 - exp (- Zcurr 0%nat A))
        else fresh 0%nat 0%nat A)
  /\ popdynOneTScpp nareas maxage SSBcurr Ncurr Zcurr PerrYr hs R0a SSBpR aR bR
       mov SRrel plusgroup fresh 0%nat A
     = sum_upto nareas
         (fun AA => (if ((plusgroup >? 0)%Z && (maxage =? 1)%nat)%bool
                     then fresh 0%nat 0%nat AA / (1 - exp (- Zcurr 0%nat AA))
                     else fresh 0%nat 0%nat AA) * mov 0%nat AA A).
Proof.
  intros H1 H2 HA Hm.
  assert (Hpre : forall AA, (AA < nareas)%nat ->
            premove 0%nat AA
            = (if ((plusgroup >? 0)%Z && (maxage =? 1)%nat)%bool
               then fresh 0%nat 0%nat AA / (1 - exp (- Zcurr 0%nat AA))
               else fresh 0%nat 0%nat AA)).
  { intros AA HAA. rewrite premove_unassigned by assumption.
    unfold plus_cell. destruct (plusgroup >? 0)%Z; cbn [andb]; [|reflexivity].
    destruct (Nat.eqb_spec maxage 1) as [E|E], (Nat.eqb_spec 0 (maxage - 1));
      try lia; [rewrite E|]; reflexivity. }
  split; [|split].
  - intros m i j. rewrite recruit_stmt_cell. unfold recruit_cell.
    destruct (Req_dec_T SRrel 2); [contradiction|].
    destruct (Req_dec_T SRrel 1); [contradiction|].
    index_cases.
  - apply Hpre, HA.
  - rewrite popdynOneTScpp_cell.
    destruct (Nat.ltb_spec 0 maxage), (Nat.ltb_spec A nareas); simpl; try lia.
    apply sum_upto_ext. intros AA HAA. rewrite Hpre by assumption. reflexivity.
Qed.

End OneTimeStepFacts.

(** ** The plus group, flag on against flag off *)

Section PlusGroup.

Variables (nareas maxage : nat) (SSBcurr : vec) (Ncurr Zcurr : mat)
          (PerrYr hs : R) (R0a SSBpR aR bR : vec) (mov : cube)
          (SRrel : R) (pg_on pg_off : Z) (fresh : nat -> mat).

Local Abbreviation premove_on :=
  (Nnext_premove nareas maxage SSBcurr Ncurr Zcurr PerrYr hs R0a SSBpR aR bR
     SRrel pg_on fresh).
Local Abbreviation premove_off :=
  (Nnext_premove nareas maxage SSBcurr Ncurr Zcurr PerrYr hs R0a SSBpR aR bR
     SRrel pg_off fresh).
Local Abbreviation onestep_on :=
  (popdynOneTScpp nareas maxage SSBcurr Ncurr Zcurr PerrYr hs R0a SSBpR aR bR
     mov SRrel pg_on fresh).
Local Abbreviation onestep_off :=
  (popdynOneTScpp nareas maxage SSBcurr Ncurr Zcurr PerrYr hs R0a SSBpR aR bR
     mov SRrel pg_off fresh).

Lemma premove_on_off (A : nat) :
  (A < nareas)%nat -> (pg_on > 0)%Z -> (pg_off <= 0)%Z ->
  premove_on (maxage - 1)%nat A
  = premove_off (maxage - 1)%nat A / (1 - exp (- Zcurr (maxage - 1)%nat A)).
Proof.
  intros HA Hon Hoff. rewrite !Nnext_premove_cell.
  unfold premove_cell, plus_cell.
  destruct (Z.gtb_spec pg_on 0); [|lia].
  destruct (Z.gtb_spec pg_off 0); [lia|].
  index_cases.
Qed.

(** At Z = 0 the plus group divides by zero. *)
Lemma plus_group_divisor_at_zero (A : nat) :
  Zcurr (maxage - 1)%nat A = 0 -> 1 - exp (- Zcurr (maxage - 1)%nat A) = 0.
Proof. intros H. rewrite H, Ropp_0, exp_0. lra. Qed.

(** C3, as amended. In every area the plus group divides the last age class
    of [Nnext] by 1 - exp(-Z) of that class. Hence, when that Z is positive
    in every area, the abundances of the last age class before movement are
    not negative and neither are the movement fractions, the last age class
    returned with the flag on is at least the one returned with the flag
    off, and strictly greater wherever the latter is positive. *)
Theorem plus_group_accumulates :
  (0 < maxage)%nat -> (pg_on > 0)%Z -> (pg_off <= 0)%Z ->
  (forall A, (A < nareas)%nat -> 0 < Zcurr (maxage - 1)%nat A) ->
  (forall A, (A < nareas)%nat ->
     0 <= Nnext_premove nareas maxage SSBcurr Ncurr Zcurr PerrYr hs R0a SSBpR aR bR
         SRrel pg_off fresh (maxage - 1)%nat A) ->
  (forall AA BB, (AA < nareas)%nat -> (BB < nareas)%nat ->
                 0 <= mov (maxage - 1)%nat AA BB) ->
  (forall A, (A < nareas)%nat ->
     Nnext_premove nareas maxage SSBcurr Ncurr Zcurr PerrYr hs R0a SSBpR aR bR
         SRrel pg_on fresh (maxage - 1)%nat A
     = Nnext_premove nareas maxage SSBcurr Ncurr Zcurr PerrYr hs R0a SSBpR aR bR
         SRrel pg_off fresh (maxage - 1)%nat A
       / (1 - exp (- Zcurr (maxage - 1)%nat A)))
  /\ (forall BB, (BB < nareas)%nat ->
       popdynOneTScpp nareas maxage SSBcurr Ncurr Zcurr PerrYr hs R0a SSBpR aR bR
         mov SRrel pg_off fresh (maxage - 1)%nat BB
       <= popdynOneTScpp nareas maxage SSBcurr Ncurr Zcurr PerrYr hs R0a SSBpR aR bR
         mov SRrel pg_on fresh (maxage - 1)%nat BB
       /\ (0 < popdynOneTScpp nareas maxage SSBcurr Ncurr Zcurr PerrYr hs R0a SSBpR aR bR
         mov SRrel pg_off fresh (maxage - 1)%nat BB ->
           popdynOneTScpp nareas maxage SSBcurr Ncurr Zcurr PerrYr hs R0a SSBpR aR bR
         mov SRrel pg_off fresh (maxage - 1)%nat BB
           < popdynOneTScpp nareas maxage SSBcurr Ncurr Zcurr PerrYr hs R0a SSBpR aR bR
         mov SRrel pg_on fresh (maxage - 1)%nat BB)).
Proof.
  intros Hm Hon Hoff HZ HN Hmov.
  split; [intros A HA; apply premove_on_off; assumption|].
  intros BB HBB. rewrite !popdynOneTScpp_cell.
  destruct (Nat.ltb_spec (maxage - 1) maxage); [|lia].
  destruct (Nat.ltb_spec BB nareas); [|lia]. cbn [andb].
  assert (Hterm : forall AA, (AA < nareas)%nat ->
            premove_off (maxage - 1)%nat AA * mov (maxage - 1)%nat AA BB
            <= premove_on (maxage - 1)%nat AA * mov (maxage - 1)%nat AA BB).
  { intros AA HAA. rewrite premove_on_off by assumption.
    apply Rmult_le_compat_r; [auto|].
    apply div_fraction_ge; [apply survival_deficit|]; auto. }
  split; [apply sum_upto_le; exact Hterm|].
  intros Hpos.
  destruct (sum_upto_pos_term nareas
              (fun AA => premove_off (maxage - 1)%nat AA * mov (maxage - 1)%nat AA BB))
    as (k & Hk & Hkpos); [|exact Hpos|].
  { intros AA HAA. apply Rmult_le_pos; auto. }
  apply (sum_upto_lt nareas _ _ k); [exact Hterm|exact Hk|].
  rewrite premove_on_off by assumption.
  assert (0 <= premove_off (maxage - 1)%nat k) by auto.
  assert (0 <= mov (maxage - 1)%nat k BB) by auto.
  assert (0 < premove_off (maxage - 1)%nat k) by nra.
  assert (0 < mov (maxage - 1)%nat k BB) by nra.
  apply Rmult_lt_compat_r; [assumption|].
  apply div_fraction_gt; [apply survival_deficit; auto|assumption].
Qed.

End PlusGroup.

(** ** The projection [popdynCPP] *)

(** Projects a variable out of the statements that do not assign it. *)
Ltac frame :=
  repeat first
    [ progress cbn [Narray Barray SSNarray SBarray VBarray Marray FMarray
                    FMretarray Zarray tempVec fishdist SSB0a hp
                    set_Narray set_Barray set_SSNarray set_SBarray set_VBarray
                    set_Marray set_FMarray set_FMretarray set_Zarray
                    set_tempVec set_fishdist set_SSB0a set_hp]
    | match goal with
      | |- context [?proj (for_range ?lo ?n ?b ?s)] =>
          rewrite (for_range_preserves proj lo n b s) by (intros; reflexivity)
      end ].

Section ProjectionFacts.

Variable pow : R -> R -> R.
Variable fresh : nat -> nat -> mat.
Variable fishdist0 : vec.
Variable h0 : heap.
Variable p : inputs.

Local Abbreviation st := (state_after pow fresh fishdist0 h0 p).
Local Abbreviation body := (year_body pow fresh h0 p).
Local Abbreviation first_year := (year0 pow fishdist0 h0 p).

(** *** Natural mortality *)

Lemma next_area_loop_Marray (yr : nat) (NY : mat) (n : nat) (s : pstate)
      (a y A : nat) :
  Marray (for_range 0 n (next_area p yr NY) s) a y A
  = if ((a <? maxage p) && (y =? yr + 1) && (A <? n))%nat
    then M_age p a (yr + 1)%nat else Marray s a y A.
Proof.
  induction n as [|n IH]; simpl.
  - index_cases.
  - unfold set_ages at 1. rewrite IH. index_cases; subst; reflexivity.
Qed.

Lemma year0_area_loop_Marray (n : nat) (s : pstate) (a y A : nat) :
  Marray (for_range 0 n (year0_area p) s) a y A
  = if ((a <? maxage p) && (y =? 0) && (A <? n))%nat
    then M_age p a 0%nat else Marray s a y A.
Proof.
  induction n as [|n IH]; simpl.
  - index_cases.
  - unfold set_ages at 1. rewrite IH. index_cases; subst; reflexivity.
Qed.

Lemma year_body_Marray (yr : nat) (s : pstate) (a y A : nat) :
  Marray (body yr s) a y A
  = if ((a <? maxage p) && (y =? yr + 1) && (A <? nareas p))%nat
    then M_age p a (yr + 1)%nat else Marray s a y A.
Proof.
  unfold year_body, unfished_stmt, Z_stmt, clamp_stmt, F_stmt, closure_stmt,
    fishdist_stmt.
  control_cases p; frame.
  all: rewrite next_area_loop_Marray; reflexivity.
Qed.

Lemma year0_Marray (a y A : nat) :
  Marray first_year a y A
  = if ((a <? maxage p) && (y =? 0) && (A <? nareas p))%nat
    then M_age p a 0%nat else 0.
Proof.
  unfold year0, Z_stmt, clamp_stmt, F_stmt, fishdist_stmt.
  control_cases p; frame.
  all: rewrite year0_area_loop_Marray; reflexivity.
Qed.


Lemma state_after_S (n : nat) : st (S n) = body n (st n).
Proof. reflexivity. Qed.

Lemma Marray_state (n a y A : nat) :
  Marray (st n) a y A
  = if ((a <? maxage p) && (y <=? n) && (A <? nareas p))%nat
    then M_age p a y else 0.
Proof.
  induction n as [|n IH].
  - change (st 0) with first_year. rewrite year0_Marray.
    index_cases; subst; reflexivity.
  - rewrite state_after_S, year_body_Marray, IH. index_cases; subst; reflexivity.
Qed.

(** *** Fishing mortality *)

Lemma F_effort_loop_FMarray (y n : nat) (s : pstate) (a y' A : nat) :
  FMarray (for_range 0 n (F_effort_area p y) s) a y' A
  = if ((a <? maxage p) && (y' =? y) && (A <? n))%nat
    then Effind p y * Qc p * fishdist s A * Vuln p a y / Asize_c p A
    else FMarray s a y' A.
Proof.
  induction n as [|n IH]; simpl.
  - index_cases.
  - unfold set_ages at 1. rewrite IH. frame. index_cases; subst; reflexivity.
Qed.

Lemma F_effort_loop_FMretarray (y n : nat) (s : pstate) (a y' A : nat) :
  FMretarray (for_range 0 n (F_effort_area p y) s) a y' A
  = if ((a <? maxage p) && (y' =? y) && (A <? n))%nat
    then Effind p y * Qc p * fishdist s A * Retc p a y / Asize_c p A
    else FMretarray s a y' A.
Proof.
  induction n as [|n IH]; simpl.
  - index_cases.
  - unfold set_ages at 1. rewrite IH. frame. index_cases; subst; reflexivity.
Qed.

Lemma F_apical_loop_FMarray (y n : nat) (s : pstate) (a y' A : nat) :
  FMarray (for_range 0 n (F_apical_area p y) s) a y' A
  = if ((a <? maxage p) && (y' =? y) && (A <? n))%nat
    then Fapic p * fishdist s A * Vuln p a y / Asize_c p A
    else FMarray s a y' A.
Proof.
  induction n as [|n IH]; simpl.
  - index_cases.
  - unfold set_ages at 1. rewrite IH. frame. index_cases; subst; reflexivity.
Qed.

Lemma F_apical_loop_FMretarray (y n : nat) (s : pstate) (a y' A : nat) :
  FMretarray (for_range 0 n (F_apical_area p y) s) a y' A
  = if ((a <? maxage p) && (y' =? y) && (A <? n))%nat
    then Fapic p * fishdist s A * Retc p a y / Asize_c p A
    else FMretarray s a y' A.
Proof.
  induction n as [|n IH]; simpl.
  - index_cases.
  - unfold set_ages at 1. rewrite IH. frame. index_cases; subst; reflexivity.
Qed.

(** The F statements of year [y] write year [y] only. *)
Lemma F_stmt_other_year (y : nat) (s : pstate) (a y' A : nat) :
  y' <> y ->
  FMarray (F_stmt p y s) a y' A = FMarray s a y' A
  /\ FMretarray (F_stmt p y s) a y' A = FMretarray s a y' A.
Proof.
  intros Hy. unfold F_stmt.
  destruct (control p =? 1)%Z, (control p =? 2)%Z;
    rewrite ?F_apical_loop_FMarray, ?F_apical_loop_FMretarray,
      ?F_effort_loop_FMarray, ?F_effort_loop_FMretarray;
    split; index_cases.
Qed.

(** In mode 3 they write nothing. *)
Lemma F_stmt_unfished (y : nat) (s : pstate) :
  control p = 3%Z -> F_stmt p y s = s.
Proof. intros H. unfold F_stmt. rewrite H. reflexivity. Qed.


Lemma year_body_FM_unfished (yr : nat) (s : pstate) :
  control p = 3%Z ->
  FMarray (body yr s) = FMarray s /\ FMretarray (body yr s) = FMretarray s.
Proof.
  intros H. open_year. rewrite F_stmt_unfished by assumption.
  rewrite H. cbn [Z.eqb Pos.eqb]. frame. split; reflexivity.
Qed.

Lemma year_body_FM_le (yr : nat) (s : pstate) (a y A : nat) :
  control p <> 3%Z ->
  FMarray (body yr s) a y A <= maxF p /\ FMretarray (body yr s) a y A <= maxF p.
Proof.
  intros H. open_year.
  destruct (Z.eqb_spec (control p) 3); [contradiction|]. frame.
  split; apply fill_above_le.
Qed.

(** Outside mode 3 an iteration leaves the F of the other years as it was,
    up to the Fmax condition. *)
Lemma year_body_FM_other (yr : nat) (s : pstate) (a y A : nat) :
  control p <> 3%Z -> y <> (yr + 1)%nat ->
  FMarray (body yr s) a y A = fill_above (maxF p) (FMarray s) a y A
  /\ FMretarray (body yr s) a y A = fill_above (maxF p) (FMretarray s) a y A.
Proof.
  intros H Hy. open_year.
  destruct (Z.eqb_spec (control p) 3); [contradiction|]. frame.
  unfold fill_above.
  match goal with
  | |- context [F_stmt p ?y1 ?s'] =>
      destruct (F_stmt_other_year y1 s' a y A Hy) as [-> ->]
  end.
  frame. split; reflexivity.
Qed.

Lemma year_body_Zarray (yr : nat) (s : pstate) (a y A : nat) :
  Zarray (body yr s) a y A
  = if ((a <? maxage p) && (y =? yr + 1) && (A <? nareas p))%nat
    then (if (control p =? 3)%Z
          then Marray (body yr s) a (yr + 1)%nat A
          else Marray (body yr s) a (yr + 1)%nat A
               + FMarray (body yr s) a (yr + 1)%nat A)
    else Zarray s a y A.
Proof.
  open_year. destruct (control p =? 3)%Z; frame.
  - unfold set_year. unfold F_stmt.
    destruct (control p =? 1)%Z, (control p =? 2)%Z; frame; reflexivity.
  - unfold set_year. unfold F_stmt.
    destruct (control p =? 1)%Z, (control p =? 2)%Z; frame; reflexivity.
Qed.

Lemma year_body_Narray (yr : nat) (s : pstate) (a y A : nat) :
  Narray (body yr s) a y A
  = if ((a <? maxage p) && (y =? yr + 1) && (A <? nareas p))%nat
    then NextYrN_of fresh h0 p yr s a A
    else Narray s a y A.
Proof.
  open_year. unfold F_stmt. control_cases p; frame; reflexivity.
Qed.

Lemma year0_FM_le (a y A : nat) :
  FMarray first_year a y A <= maxF p /\ FMretarray first_year a y A <= maxF p.
Proof. open_year. frame. split; apply fill_above_le. Qed.

Lemma year0_FM_unfished (a y A : nat) :
  control p = 3%Z ->
  FMarray first_year a y A = fill_above (maxF p) zeros a y A
  /\ FMretarray first_year a y A = fill_above (maxF p) zeros a y A.
Proof.
  intros H. open_year. rewrite F_stmt_unfished by assumption.
  frame. split; reflexivity.
Qed.

Lemma year0_Zarray (a y A : nat) :
  Zarray first_year a y A
  = if ((a <? maxage p) && (y =? 0) && (A <? nareas p))%nat
    then Marray first_year a 0%nat A + FMarray first_year a 0%nat A
    else 0.
Proof.
  open_year. unfold F_stmt. control_cases p; frame; reflexivity.
Qed.

(** Every stored F obeys the Fmax condition, whatever the mode. *)
Lemma FM_le_state (n a y A : nat) :
  FMarray (st n) a y A <= maxF p /\ FMretarray (st n) a y A <= maxF p.
Proof.
  induction n as [|n IH].
  - apply year0_FM_le.
  - rewrite state_after_S.
    destruct (Z.eq_dec (control p) 3) as [H|H].
    + destruct (year_body_FM_unfished n (st n) H) as [-> ->]. exact IH.
    + apply year_body_FM_le, H.
Qed.

(** In mode 3 the F cubes keep what the Fmax condition of the first year
    made of the zero cube. *)
Lemma FM_unfished_state (n a y A : nat) :
  control p = 3%Z ->
  FMarray (st n) a y A = fill_above (maxF p) zeros a y A
  /\ FMretarray (st n) a y A = fill_above (maxF p) zeros a y A.
Proof.
  intros H. induction n as [|n IH].
  - apply year0_FM_unfished, H.
  - rewrite state_after_S.
    destruct (year_body_FM_unfished n (st n) H) as [-> ->]. exact IH.
Qed.

Lemma fill_above_zeros (a y A : nat) :
  0 <= maxF p -> fill_above (maxF p) zeros a y A = 0.
Proof. intros H. apply fill_above_id. unfold zeros. exact H. Qed.

(** Outside mode 3, total mortality is natural plus fishing mortality in
    every year reached. *)
Lemma Z_total_state (n a y A : nat) :
  control p <> 3%Z ->
  (a < maxage p)%nat -> (y <= n)%nat -> (A < nareas p)%nat ->
  Zarray (st n) a y A = Marray (st n) a y A + FMarray (st n) a y A.
Proof.
  intros H Ha Hy HA. induction n as [|n IH].
  - change (st 0) with first_year. rewrite year0_Zarray.
    replace y with 0%nat by lia. index_cases.
  - rewrite state_after_S, year_body_Zarray.
    destruct (Z.eqb_spec (control p) 3); [contradiction|].
    destruct (Nat.eq_dec y (n + 1)) as [->|Hne].
    + index_cases.
    + destruct (year_body_FM_other n (st n) a y A H Hne) as [-> _].
      rewrite fill_above_id by apply FM_le_state.
      rewrite (year_body_Marray n (st n) a y A), IH by lia. index_cases.
Qed.

(** In mode 3, total mortality is natural mortality after the first year. *)
Lemma Z_unfished_state (n a y A : nat) :
  control p = 3%Z ->
  (a < maxage p)%nat -> (y <= n)%nat -> (A < nareas p)%nat ->
  Zarray (st n) a y A
  = if (y =? 0)%nat then Marray (st n) a y A + FMarray (st n) a y A
    else Marray (st n) a y A.
Proof.
  intros H Ha Hy HA. induction n as [|n IH].
  - change (st 0) with first_year. rewrite year0_Zarray.
    replace y with 0%nat by lia. index_cases.
  - rewrite state_after_S, year_body_Zarray.
    destruct (Z.eqb_spec (control p) 3); [|contradiction].
    destruct (year_body_FM_unfished n (st n) H) as [-> _].
    destruct (Nat.eq_dec y (n + 1)) as [->|Hne].
    + index_cases.
    + rewrite (year_body_Marray n (st n) a y A), IH by lia. index_cases.
Qed.

(** An iteration writes the year it computes and no other. *)
Lemma Narray_stable (n k a y A : nat) :
  (y <= n)%nat -> Narray (st (n + k)) a y A = Narray (st n) a y A.
Proof.
  intros Hy. induction k as [|k IH].
  - rewrite Nat.add_0_r. reflexivity.
  - rewrite Nat.add_succ_r, state_after_S, year_body_Narray, IH. index_cases.
Qed.

Lemma Zarray_stable (n k a y A : nat) :
  (y <= n)%nat -> Zarray (st (n + k)) a y A = Zarray (st n) a y A.
Proof.
  intros Hy. induction k as [|k IH].
  - rewrite Nat.add_0_r. reflexivity.
  - rewrite Nat.add_succ_r, state_after_S, year_body_Zarray, IH. index_cases.
Qed.


(** *** Vulnerable biomass and the distribution of effort *)

Lemma next_area_loop_tempVec (yr : nat) (NY : mat) (n : nat) (s : pstate) (A : nat) :
  (A < n)%nat ->
  tempVec (for_range 0 n (next_area p yr NY) s) A
  = accu_ages (maxage p) (VBarray (for_range 0 n (next_area p yr NY) s)) (yr + 1) A.
Proof.
  induction n as [|n IH]; intros HA; [lia|].
  simpl. unfold vec_set.
  destruct (Nat.eqb_spec A n) as [->|Hne]; [reflexivity|].
  rewrite IH by lia. unfold accu_ages. apply sum_upto_ext. intros a Ha.
  unfold set_ages. index_cases.
Qed.

Lemma year_body_tempVec (yr : nat) (s : pstate) (A : nat) :
  (A < nareas p)%nat ->
  tempVec (body yr s) A = accu_ages (maxage p) (VBarray (body yr s)) (yr + 1) A.
Proof.
  intros HA. open_year. unfold F_stmt. control_cases p; frame.
  all: apply next_area_loop_tempVec, HA.
Qed.

Lemma year_body_fishdist (yr : nat) (s : pstate) :
  fishdist (body yr s) = effort_share pow p yr (tempVec (body yr s)).
Proof.
  open_year. unfold F_stmt. control_cases p; frame; reflexivity.
Qed.

(** *** The heap *)

Lemma assign_frame (l : loc) (v : vec) (h : heap) (l' : loc) :
  l' <> l -> cells (assign l v h) l' = cells h l'.
Proof.
  intros H. unfold assign. cbn [cells].
  destruct (Nat.eqb_spec l' l); [contradiction|reflexivity].
Qed.

Lemma store_frame (l : loc) (i : nat) (r : R) (h : heap) (l' : loc) :
  l' <> l -> cells (store l i r h) l' = cells h l'.
Proof. apply assign_frame. Qed.

Lemma clone_frame (l : loc) (h : heap) (l' : loc) :
  (l' < brk h)%nat -> cells (snd (clone l h)) l' = cells h l'.
Proof.
  intros H. unfold clone, alloc. cbn [snd cells].
  destruct (Nat.eqb_spec l' (brk h)); [lia|reflexivity].
Qed.

Lemma clone_fresh (l : loc) (h : heap) :
  fst (clone l h) = brk h /\ brk (snd (clone l h)) = S (brk h).
Proof. split; reflexivity. Qed.

(** The clones are new objects. *)
Lemma clones_fresh :
  R0c2 h0 p = brk h0 /\ aRc2 h0 p = S (brk h0) /\ bRc2 h0 p = S (S (brk h0)).
Proof. repeat split; reflexivity. Qed.

(** No statement of the projection writes to an object that existed at entry. *)
Lemma heap_frame_state (n : nat) (l : loc) :
  (l < brk h0)%nat -> cells (hp (st n)) l = cells h0 l.
Proof.
  intros Hl. destruct clones_fresh as (HR & Ha & Hb).
  induction n as [|n IH].
  - change (st 0) with first_year. open_year. unfold F_stmt.
    control_cases p; frame.
    all: unfold decls, heap3, heap2, heap1; cbn [hp];
      rewrite !clone_frame; [reflexivity| | |];
      unfold clone, alloc; cbn [snd brk]; lia.
  - rewrite state_after_S. open_year.
    destruct (control p =? 3)%Z.
    + apply (for_range_invariant
               (fun s' => cells (hp s') l = cells h0 l)).
      * intros k s' Hs'. unfold recpars_area. frame.
        rewrite !store_frame by lia. exact Hs'.
      * frame. rewrite assign_frame by lia.
        apply (for_range_invariant
                 (fun s' => cells (hp s') l = cells h0 l)).
        -- intros k s' Hs'. unfold unfished_area. frame.
           rewrite store_frame by lia. exact Hs'.
        -- frame. unfold F_stmt.
           destruct (control p =? 1)%Z, (control p =? 2)%Z; frame; exact IH.
    + frame. unfold F_stmt.
      destruct (control p =? 1)%Z, (control p =? 2)%Z; frame; exact IH.
Qed.


Lemma next_area_loop_VBarray (yr : nat) (NY : mat) (n : nat) (s : pstate)
      (a y A : nat) :
  VBarray (for_range 0 n (next_area p yr NY) s) a y A
  = if ((a <? maxage p) && (y =? yr + 1) && (A <? n))%nat
    then NY a A * WtAge p a (yr + 1)%nat * Vuln p a (yr + 1)%nat
    else VBarray s a y A.
Proof.
  induction n as [|n IH]; simpl.
  - index_cases.
  - unfold set_ages at 1. rewrite IH. index_cases; subst; reflexivity.
Qed.

Lemma year_body_VBarray (yr : nat) (s : pstate) (a y A : nat) :
  VBarray (body yr s) a y A
  = if ((a <? maxage p) && (y =? yr + 1) && (A <? nareas p))%nat
    then NextYrN_of fresh h0 p yr s a A * WtAge p a (yr + 1)%nat
         * Vuln p a (yr + 1)%nat
    else VBarray s a y A.
Proof.
  open_year. unfold F_stmt. control_cases p; frame.
  all: rewrite next_area_loop_VBarray; reflexivity.
Qed.

Lemma VBarray_stable (n k a y A : nat) :
  (y <= n)%nat -> VBarray (st (n + k)) a y A = VBarray (st n) a y A.
Proof.
  intros Hy. induction k as [|k IH].
  - rewrite Nat.add_0_r. reflexivity.
  - rewrite Nat.add_succ_r, state_after_S, year_body_VBarray, IH. index_cases.
Qed.

(** *** What is returned *)

Lemma popdynCPP_list :
  fst (popdynCPP pow fresh fishdist0 h0 p)
  = [Narray (st (pyears p - 1)); Barray (st (pyears p - 1));
     SSNarray (st (pyears p - 1)); SBarray (st (pyears p - 1));
     VBarray (st (pyears p - 1)); FMarray (st (pyears p - 1));
     FMretarray (st (pyears p - 1)); Zarray (st (pyears p - 1))].
Proof. reflexivity. Qed.

(** With a zero apical F and a cap that is not negative, mode 2 fishes
    nothing (over the reals, where 0 times any share is 0). *)
Lemma F_stmt_zero_apical (y : nat) (s : pstate) :
  control p = 2%Z -> Fapic p = 0 ->
  (forall a y' A, FMarray s a y' A = 0 /\ FMretarray s a y' A = 0) ->
  forall a y' A,
    FMarray (F_stmt p y s) a y' A = 0 /\ FMretarray (F_stmt p y s) a y' A = 0.
Proof.
  intros Hc HF Hs a y' A. unfold F_stmt. rewrite Hc. cbn [Z.eqb Pos.eqb].
  rewrite F_apical_loop_FMarray, F_apical_loop_FMretarray, HF.
  destruct (Hs a y' A) as [-> ->].
  split; destruct ((a <? maxage p) && (y' =? y) && (A <? nareas p))%nat;
    unfold Rdiv; ring.
Qed.

Lemma FM_zero_apical (n a y A : nat) :
  control p = 2%Z -> Fapic p = 0 -> 0 <= maxF p ->
  FMarray (st n) a y A = 0 /\ FMretarray (st n) a y A = 0.
Proof.
  intros Hc HF Hm. revert a y A. induction n as [|n IH]; intros a y A.
  - change (st 0) with first_year. open_year. frame.
    unfold fill_above.
    match goal with
    | |- context [F_stmt p ?y1 ?s'] =>
        destruct (F_stmt_zero_apical y1 s' Hc HF) with (a := a) (y' := y) (A := A)
          as [-> ->]
    end.
    + intros. frame. split; reflexivity.
    + split; destruct (Rgt_dec 0 (maxF p)); lra.
  - rewrite state_after_S. open_year. rewrite Hc. cbn [Z.eqb Pos.eqb]. frame.
    unfold fill_above.
    match goal with
    | |- context [F_stmt p ?y1 ?s'] =>
        destruct (F_stmt_zero_apical y1 s' Hc HF) with (a := a) (y' := y) (A := A)
          as [-> ->]
    end.
    + intros. frame. apply IH.
    + split; destruct (Rgt_dec 0 (maxF p)); lra.
Qed.

(** Total mortality returned, in terms of the schedule and the F returned. *)
Lemma Zarray_final (a y A : nat) :
  (a < maxage p)%nat -> (y < pyears p)%nat -> (A < nareas p)%nat ->
  Zarray (st (pyears p - 1)) a y A
  = M_age p a y
    + (if ((control p =? 3)%Z && (0 <? y)%nat)%bool then 0
       else FMarray (st (pyears p - 1)) a y A).
Proof.
  intros Ha Hy HA.
  destruct (Z.eqb_spec (control p) 3) as [Hc|Hc]; cbn [andb].
  - rewrite Z_unfished_state, Marray_state by (assumption || lia).
    index_cases; lra.
  - rewrite Z_total_state, Marray_state by (assumption || lia).
    index_cases.
Qed.

(** From one year to the next: survival, ageing and movement, in terms of the
    cubes returned. *)
Lemma numbers_next_year (n a A : nat) :
  (n + 1 < pyears p)%nat -> (1 <= a < maxage p)%nat -> (A < nareas p)%nat ->
  (plusgroup p <= 0)%Z \/ (a < maxage p - 1)%nat ->
  Narray (st (pyears p - 1)) a (n + 1)%nat A
  = sum_upto (nareas p)
      (fun AA => Narray (st (pyears p - 1)) (a - 1)%nat n AA
                 * exp (- Zarray (st (pyears p - 1)) (a - 1)%nat n AA)
                 * movc p n a AA A).
Proof.
  intros Hn Ha HA Hp.
  replace (pyears p - 1)%nat with (S n + (pyears p - 1 - S n))%nat at 1 by lia.
  rewrite Narray_stable by lia.
  rewrite state_after_S, year_body_Narray.
  destruct (Nat.ltb_spec a (maxage p)); [|lia].
  destruct (Nat.eqb_spec (n + 1) (n + 1)); [|lia].
  destruct (Nat.ltb_spec A (nareas p)); [|lia]. cbn [andb].
  unfold NextYrN_of. rewrite popdynOneTScpp_cell.
  destruct (Nat.ltb_spec a (maxage p)); [|lia].
  destruct (Nat.ltb_spec A (nareas p)); [|lia]. cbn [andb].
  apply sum_upto_ext. intros AA HAA.
  rewrite premove_aged by assumption.
  replace (pyears p - 1)%nat with (n + (pyears p - 1 - n))%nat by lia.
  rewrite Narray_stable, Zarray_stable by lia. reflexivity.
Qed.

(** C2, as amended. The realized fishing mortality and the realized retained
    fishing mortality returned never exceed [maxF]. The realized total
    mortality is the natural mortality plus that capped fishing mortality
    (natural mortality alone in mode 3 after the first year): it is bounded by
    M + max(0, maxF), not by [maxF].  In control modes 1 and 2, where the
    fishing mortality is computed from the effort shares, the divisors of the
    run are taken not to be 0: the area sizes, the summed effort weights and
    the fraction of effort in open areas ([shares_defined]), and the
    Beverton-Holt denominator and the plus-group divisor of every transition
    ([transition_defined]).  In the other modes no quotient feeds the fishing
    or the total mortality. *)
Theorem fishing_mortality_capped (a y A : nat) :
  (a < maxage p)%nat -> (y < pyears p)%nat -> (A < nareas p)%nat ->
  (control p = 1%Z \/ control p = 2%Z ->
   shares_defined pow p (nth 4 (fst (popdynCPP pow fresh fishdist0 h0 p)) zeros)
   /\ transition_defined h0 p
        (nth 3 (fst (popdynCPP pow fresh fishdist0 h0 p)) zeros)
        (nth 7 (fst (popdynCPP pow fresh fishdist0 h0 p)) zeros)) ->
  nth 5 (fst (popdynCPP pow fresh fishdist0 h0 p)) zeros a y A <= maxF p
  /\ nth 6 (fst (popdynCPP pow fresh fishdist0 h0 p)) zeros a y A <= maxF p
  /\ nth 7 (fst (popdynCPP pow fresh fishdist0 h0 p)) zeros a y A
     = M_age p a y
       + (if ((control p =? 3)%Z && (0 <? y)%nat)%bool then 0
          else nth 5 (fst (popdynCPP pow fresh fishdist0 h0 p)) zeros a y A)
  /\ nth 7 (fst (popdynCPP pow fresh fishdist0 h0 p)) zeros a y A
     <= M_age p a y + Rmax 0 (maxF p).
Proof.
  intros Ha Hy HA _. rewrite popdynCPP_list. cbn [nth].
  destruct (FM_le_state (pyears p - 1) a y A) as [HF HR].
  pose proof (Zarray_final a y A Ha Hy HA) as HZ.
  repeat split; try assumption.
  rewrite HZ. pose proof (Rmax_l 0 (maxF p)). pose proof (Rmax_r 0 (maxF p)).
  destruct ((control p =? 3)%Z && (0 <? y)%nat)%bool; lra.
Qed.

(** C5. In the iteration that computes year [yr + 1], the final effort share
    of an area is its closure-masked normalized weight, that is [MPA(yr, A)]
    times the area's vulnerable biomass of year [yr + 1] to the power
    [Spat_targc] over the sum of these powers, multiplied by
    (fracE + (1 - fracE)) / fracE, where [fracE] is the sum of the masked
    weights; when [fracE] is positive the final shares sum to 1. The vulnerable
    biomass is that of the cube returned. *)
Theorem effort_reallocation (yr : nat) :
  (yr + 1 < pyears p)%nat ->
  let s := state_after pow fresh fishdist0 h0 p (S yr) in
  let VB := nth 4 (fst (popdynCPP pow fresh fishdist0 h0 p)) zeros in
  let w := fun A =>
             pow (accu_ages (maxage p) VB (yr + 1) A) (Spat_targc p)
             / sum_upto (nareas p)
                 (fun A' => pow (accu_ages (maxage p) VB (yr + 1) A') (Spat_targc p)) in
  let d1 := fun A => MPA p yr A * w A in
  let fracE := sum_upto (nareas p) d1 in
  (forall A, (A < nareas p)%nat ->
             fishdist s A = d1 A * (fracE + (1 - fracE)) / fracE)
  /\ (0 < fracE -> sum_upto (nareas p) (fishdist s) = 1).
Proof.
  intros Hyr s VB w d1 fracE.
  assert (Htv : forall A, (A < nareas p)%nat ->
            tempVec s A = accu_ages (maxage p) VB (yr + 1) A).
  { intros A HA. unfold s, VB. rewrite popdynCPP_list. cbn [nth].
    rewrite state_after_S, year_body_tempVec by assumption.
    unfold accu_ages. apply sum_upto_ext. intros a Ha.
    rewrite <- state_after_S.
    replace (pyears p - 1)%nat with (S yr + (pyears p - 1 - S yr))%nat by lia.
    rewrite VBarray_stable by lia. reflexivity. }
  assert (Hden : sum_upto (nareas p) (fun A' => pow (tempVec s A') (Spat_targc p))
                 = sum_upto (nareas p)
                     (fun A' => pow (accu_ages (maxage p) VB (yr + 1) A') (Spat_targc p))).
  { apply sum_upto_ext. intros A' HA'. rewrite Htv by assumption. reflexivity. }
  assert (Hfrac : sum_upto (nareas p)
                    (fun A1 => MPA p yr A1
                               * (pow (tempVec s A1) (Spat_targc p)
                                  / sum_upto (nareas p)
                                      (fun A' => pow (tempVec s A') (Spat_targc p))))
                  = fracE).
  { unfold fracE, d1, w. apply sum_upto_ext. intros A1 HA1.
    rewrite Hden, Htv by assumption. reflexivity. }
  assert (Hshare : forall A, (A < nareas p)%nat ->
            fishdist s A = d1 A * (fracE + (1 - fracE)) / fracE).
  { intros A HA. unfold s at 1. rewrite state_after_S, year_body_fishdist.
    rewrite <- state_after_S. fold s. unfold effort_share.
    rewrite Hfrac, Hden, Htv by assumption. reflexivity. }
  split; [exact Hshare|].
  intros Hpos.
  rewrite (sum_upto_ext _ _ (fun A => / fracE * d1 A)).
  - rewrite sum_upto_scale_l. fold fracE. field. lra.
  - intros A HA. rewrite Hshare by assumption. field. lra.
Qed.

(** C6. For every iteration [yr] of the loop over years, the numbers-at-age
    of year [yr + 1] returned are the transition [popdynOneTScpp] of the state
    of year [yr], called with the recruitment deviation [Prec(yr + maxage)]:
    the series is read at the current year plus the maximum age. *)
Theorem recruitment_deviation_offset (yr a A : nat) :
  (yr + 1 < pyears p)%nat -> (a < maxage p)%nat -> (A < nareas p)%nat ->
  let s := state_after pow fresh fishdist0 h0 p yr in
  nth 0 (fst (popdynCPP pow fresh fishdist0 h0 p)) zeros a (yr + 1)%nat A
  = popdynOneTScpp (nareas p) (maxage p) (SB_of p yr s)
      (fun a' A' => Narray s a' yr A') (fun a' A' => Zarray s a' yr A')
      (Prec p (yr + maxage p)%nat) (hc p)
      (cells (hp s) (R0c2 h0 p)) (cells (hp s) (SSBpRc p))
      (cells (hp s) (aRc2 h0 p)) (cells (hp s) (bRc2 h0 p))
      (movc p yr) (SRrelc p) (plusgroup p) (fresh yr) a A.
Proof.
  intros Hyr Ha HA s. rewrite popdynCPP_list. cbn [nth].
  replace (pyears p - 1)%nat with (S yr + (pyears p - 1 - S yr))%nat by lia.
  rewrite Narray_stable by lia.
  rewrite state_after_S, year_body_Narray. index_cases.
Qed.

(** C8, as amended. In control mode 3 with a cap [maxF] that is not negative,
    the realized fishing mortality and retained fishing mortality returned are
    zero and the realized total mortality is the natural-mortality schedule
    alone, for every age, year and area. *)
Theorem unfished_mode_no_fishing (a y A : nat) :
  control p = 3%Z -> 0 <= maxF p ->
  (a < maxage p)%nat -> (y < pyears p)%nat -> (A < nareas p)%nat ->
  nth 5 (fst (popdynCPP pow fresh fishdist0 h0 p)) zeros a y A = 0
  /\ nth 6 (fst (popdynCPP pow fresh fishdist0 h0 p)) zeros a y A = 0
  /\ nth 7 (fst (popdynCPP pow fresh fishdist0 h0 p)) zeros a y A = M_age p a y.
Proof.
  intros Hc Hm Ha Hy HA. rewrite popdynCPP_list. cbn [nth].
  destruct (FM_unfished_state (pyears p - 1) a y A Hc) as [HF HR].
  rewrite fill_above_zeros in HF, HR by assumption.
  repeat split; try assumption.
  rewrite Z_unfished_state, Marray_state, HF by (assumption || lia).
  index_cases; lra.
Qed.

(** C9. The vectors behind the handles [R0c], [aRc] and [bRc] hold on return
    what they held at entry, in every control mode: the clones are objects of
    their own, and the updates of mode 3 are written to the clones. *)
Theorem caller_vectors_unchanged :
  (R0c p < brk h0)%nat -> (aRc p < brk h0)%nat -> (bRc p < brk h0)%nat ->
  (cells (snd (popdynCPP pow fresh fishdist0 h0 p)) (R0c p) = cells h0 (R0c p)
   /\ cells (snd (popdynCPP pow fresh fishdist0 h0 p)) (aRc p) = cells h0 (aRc p)
   /\ cells (snd (popdynCPP pow fresh fishdist0 h0 p)) (bRc p) = cells h0 (bRc p))
  /\ (R0c2 h0 p <> R0c p /\ aRc2 h0 p <> aRc p /\ bRc2 h0 p <> bRc p).
Proof.
  intros HR Ha Hb. split.
  - change (snd (popdynCPP pow fresh fishdist0 h0 p)) with (hp (st (pyears p - 1))).
    repeat split; apply heap_frame_state; assumption.
  - destruct clones_fresh as (-> & -> & ->). lia.
Qed.

End ProjectionFacts.

(** ** Control modes 1 and 2 *)

Section ControlModes.

Variable pow : R -> R -> R.
Variable fresh : nat -> nat -> mat.
Variable fishdist0 : vec.
Variable h0 : heap.
Variable p : inputs.

Lemma F_stmt_modes (y : nat) (s : pstate) :
  Effind p y * Qc p = Fapic p ->
  F_stmt (with_control 1 p) y s = F_stmt (with_control 2 p) y s.
Proof.
  intros H. unfold F_stmt. cbn [control with_control Z.eqb Pos.eqb].
  apply for_range_ext. intros k s' _.
  unfold F_effort_area, F_apical_area.
  cbn [Effind Qc Fapic maxage Vuln Retc Asize_c with_control].
  rewrite H. reflexivity.
Qed.

(** The other statements never read [control], or read it only to compare
    it with 3. *)
Lemma statements_modes :
  year0_area (with_control 1 p) = year0_area (with_control 2 p)
  /\ fishdist_stmt pow (with_control 1 p) = fishdist_stmt pow (with_control 2 p)
  /\ clamp_stmt (with_control 1 p) = clamp_stmt (with_control 2 p)
  /\ Z_stmt (with_control 1 p) = Z_stmt (with_control 2 p)
  /\ next_area (with_control 1 p) = next_area (with_control 2 p)
  /\ closure_stmt (with_control 1 p) = closure_stmt (with_control 2 p)
  /\ decls fishdist0 h0 (with_control 1 p) = decls fishdist0 h0 (with_control 2 p)
  /\ NextYrN_of fresh h0 (with_control 1 p) = NextYrN_of fresh h0 (with_control 2 p).
Proof. repeat split; reflexivity. Qed.

Lemma year0_modes :
  Effind p 0%nat * Qc p = Fapic p ->
  year0 pow fishdist0 h0 (with_control 1 p) = year0 pow fishdist0 h0 (with_control 2 p).
Proof.
  intros H. destruct statements_modes as (H1 & H2 & H3 & H4 & _ & _ & H7 & _).
  unfold year0. cbn [nareas maxage Ncurr with_control].
  rewrite (F_stmt_modes 0 _ H), H1, H2, H3, H4, H7. reflexivity.
Qed.

Lemma year_body_modes (yr : nat) (s : pstate) :
  Effind p (yr + 1)%nat * Qc p = Fapic p ->
  year_body pow fresh h0 (with_control 1 p) yr s
  = year_body pow fresh h0 (with_control 2 p) yr s.
Proof.
  intros H. destruct statements_modes as (_ & H2 & H3 & H4 & H5 & H6 & _ & H8).
  unfold year_body. cbn [control nareas maxage with_control Z.eqb Pos.eqb].
  rewrite (F_stmt_modes (yr + 1) _ H), H2, H3, H4, H5, H6, H8. reflexivity.
Qed.

Lemma state_after_modes (n : nat) :
  (forall y, (y <= n)%nat -> Effind p y * Qc p = Fapic p) ->
  state_after pow fresh fishdist0 h0 (with_control 1 p) n
  = state_after pow fresh fishdist0 h0 (with_control 2 p) n.
Proof.
  intros H. induction n as [|n IH].
  - apply year0_modes, H. lia.
  - unfold state_after in *. simpl. rewrite IH by (intros; apply H; lia).
    apply year_body_modes. replace (n + 1)%nat with (S n) by lia. apply H. lia.
Qed.

(** C7. When effort times catchability equals the apical F in every year of
    the projection, control mode 1 and control mode 2 return the same
    fishing-mortality-at-age and the same retained fishing-mortality-at-age.
    This holds for any number of areas and any closure schedule, so in
    particular with one area and no closures. *)
Theorem control_modes_agree :
  (0 < pyears p)%nat ->
  (forall y, (y < pyears p)%nat -> Effind p y * Qc p = Fapic p) ->
  nth 5 (fst (popdynCPP pow fresh fishdist0 h0 (with_control 1 p))) zeros
  = nth 5 (fst (popdynCPP pow fresh fishdist0 h0 (with_control 2 p))) zeros
  /\ nth 6 (fst (popdynCPP pow fresh fishdist0 h0 (with_control 1 p))) zeros
     = nth 6 (fst (popdynCPP pow fresh fishdist0 h0 (with_control 2 p))) zeros.
Proof.
  intros Hp H. unfold popdynCPP. cbn [pyears with_control].
  rewrite state_after_modes by (intros; apply H; lia).
  split; reflexivity.
Qed.

End ControlModes.

(** ** Survival and ageing *)

(** C4, as amended. Before movement, the abundance of every age class
    a >= 1 in every area is the input abundance at age a - 1 times
    exp(-Z(a - 1)), except for the last age class when the plus group is on,
    where that product is further divided by 1 - exp(-Z) of the last class.
    In a projection with one area, two age classes, natural mortality 0.2, no
    realized fishing mortality, no plus group and all fish staying in the area,
    the age-1 abundance of year n + 1 is the age-0 abundance of year n times
    exp(-0.2). *)
Theorem survival_and_ageing :
  (forall nareas maxage SSBcurr Ncurr Zcurr PerrYr hs R0a SSBpR aR bR SRrel
          plusgroup fresh a A,
      (A < nareas)%nat -> (1 <= a < maxage)%nat ->
      (plusgroup <= 0)%Z \/ (a < maxage - 1)%nat ->
      Nnext_premove nareas maxage SSBcurr Ncurr Zcurr PerrYr hs R0a SSBpR aR bR
        SRrel plusgroup fresh a A
      = Ncurr (a - 1)%nat A * exp (- Zcurr (a - 1)%nat A))
  /\ (forall nareas maxage SSBcurr Ncurr Zcurr PerrYr hs R0a SSBpR aR bR SRrel
             plusgroup fresh A,
         (A < nareas)%nat -> (2 <= maxage)%nat -> (plusgroup > 0)%Z ->
         Nnext_premove nareas maxage SSBcurr Ncurr Zcurr PerrYr hs R0a SSBpR aR bR
           SRrel plusgroup fresh (maxage - 1)%nat A
         = Ncurr (maxage - 2)%nat A * exp (- Zcurr (maxage - 2)%nat A)
           / (1 - exp (- Zcurr (maxage - 1)%nat A)))
  /\ (forall pow fresh fishdist0 h0 p n,
         nareas p = 1%nat -> maxage p = 2%nat -> (plusgroup p <= 0)%Z ->
         (forall y, (y < pyears p)%nat -> M_age p 0%nat y = 0.2) ->
         (forall y, (y < pyears p)%nat ->
                    nth 5 (fst (popdynCPP pow fresh fishdist0 h0 p)) zeros
                      0%nat y 0%nat = 0) ->
         (forall y, movc p y 1%nat 0%nat 0%nat = 1) ->
         (n + 1 < pyears p)%nat ->
         nth 0 (fst (popdynCPP pow fresh fishdist0 h0 p)) zeros 1%nat (n + 1)%nat 0%nat
         = nth 0 (fst (popdynCPP pow fresh fishdist0 h0 p)) zeros 0%nat n 0%nat
           * exp (- 0.2)).
Proof.
  split; [|split].
  - intros. apply premove_aged; assumption.
  - intros. apply premove_plus; assumption.
  - intros pow fresh fishdist0 h0 p n Hareas Hages Hplus HM HF Hmov Hn.
    rewrite popdynCPP_list in *. cbn [nth] in *.
    rewrite numbers_next_year by lia.
    rewrite Hareas. cbn [sum_upto Nat.sub]. rewrite Hmov.
    rewrite Zarray_final by lia. rewrite HM, HF by lia.
    replace (0.2 + (if ((control p =? 3)%Z && (0 <? n)%nat)%bool then 0 else 0))
      with 0.2 by (destruct ((control p =? 3)%Z && (0 <? n)%nat)%bool; lra).
    replace (- (0.2)) with (-0.2) by lra. lra.
Qed.

(** ** Which recruitment deviations are read *)

Section Deviations.

Variable pow : R -> R -> R.
Variable fresh : nat -> nat -> mat.
Variable fishdist0 : vec.
Variable h0 : heap.
Variable p : inputs.
Variables d d' : vec.

(** Only the call of [popdynOneTScpp] reads [Prec]. *)
Lemma statements_Prec :
  year0_area (with_Prec d p) = year0_area (with_Prec d' p)
  /\ next_area (with_Prec d p) = next_area (with_Prec d' p)
  /\ fishdist_stmt pow (with_Prec d p) = fishdist_stmt pow (with_Prec d' p)
  /\ closure_stmt (with_Prec d p) = closure_stmt (with_Prec d' p)
  /\ F_stmt (with_Prec d p) = F_stmt (with_Prec d' p)
  /\ clamp_stmt (with_Prec d p) = clamp_stmt (with_Prec d' p)
  /\ Z_stmt (with_Prec d p) = Z_stmt (with_Prec d' p)
  /\ decls fishdist0 h0 (with_Prec d p) = decls fishdist0 h0 (with_Prec d' p)
  /\ unfished_area h0 (with_Prec d p) = unfished_area h0 (with_Prec d' p)
  /\ recpars_area h0 (with_Prec d p) = recpars_area h0 (with_Prec d' p)
  /\ R0c2 h0 (with_Prec d p) = R0c2 h0 (with_Prec d' p)
  /\ R0 h0 (with_Prec d p) = R0 h0 (with_Prec d' p).
Proof. repeat split; reflexivity. Qed.

Lemma year0_Prec :
  year0 pow fishdist0 h0 (with_Prec d p) = year0 pow fishdist0 h0 (with_Prec d' p).
Proof.
  destruct statements_Prec as (H1 & _ & H3 & _ & H5 & H6 & H7 & H8 & _).
  unfold year0. cbn [nareas maxage Ncurr with_Prec].
  rewrite H1, H3, H5, H6, H7, H8. reflexivity.
Qed.

Lemma unfished_stmt_Prec (yr : nat) (s : pstate) :
  unfished_stmt h0 (with_Prec d p) yr s = unfished_stmt h0 (with_Prec d' p) yr s.
Proof.
  destruct statements_Prec as (_ & _ & _ & _ & _ & _ & _ & _ & H9 & H10 & H11 & H12).
  unfold unfished_stmt. cbn [nareas maxage SSB0c with_Prec].
  rewrite H9, H10, H11, H12. reflexivity.
Qed.

Lemma NextYrN_of_Prec (yr : nat) (s : pstate) :
  d (yr + maxage p)%nat = d' (yr + maxage p)%nat ->
  NextYrN_of fresh h0 (with_Prec d p) yr s = NextYrN_of fresh h0 (with_Prec d' p) yr s.
Proof.
  intros H. unfold NextYrN_of. cbn [Prec maxage with_Prec]. rewrite H. reflexivity.
Qed.

Lemma year_body_Prec (yr : nat) (s : pstate) :
  d (yr + maxage p)%nat = d' (yr + maxage p)%nat ->
  year_body pow fresh h0 (with_Prec d p) yr s
  = year_body pow fresh h0 (with_Prec d' p) yr s.
Proof.
  intros H.
  destruct statements_Prec as (_ & H2 & H3 & H4 & H5 & H6 & H7 & _).
  unfold year_body. cbn [control nareas maxage with_Prec].
  rewrite (NextYrN_of_Prec yr s H), H2, H3, H4, H5, H6, H7, unfished_stmt_Prec.
  reflexivity.
Qed.

Lemma state_after_Prec (n : nat) :
  (forall yr, (yr < n)%nat -> d (yr + maxage p)%nat = d' (yr + maxage p)%nat) ->
  state_after pow fresh fishdist0 h0 (with_Prec d p) n
  = state_after pow fresh fishdist0 h0 (with_Prec d' p) n.
Proof.
  intros H. induction n as [|n IH].
  - apply year0_Prec.
  - unfold state_after in *. simpl. rewrite IH by (intros; apply H; lia).
    apply year_body_Prec, H. lia.
Qed.

(** X1. The projection reads the deviation series only at the indices
    [yr + maxage] of its iterations: two series that agree there give the same
    result, whatever they hold elsewhere, in particular at the indices below
    [maxage]. *)
Theorem deviations_read_at_offset :
  (forall yr, (yr + 1 < pyears p)%nat ->
              d (yr + maxage p)%nat = d' (yr + maxage p)%nat) ->
  popdynCPP pow fresh fishdist0 h0 (with_Prec d p)
  = popdynCPP pow fresh fishdist0 h0 (with_Prec d' p).
Proof.
  intros H. unfold popdynCPP. cbn [pyears with_Prec].
  rewrite state_after_Prec by (intros; apply H; lia). reflexivity.
Qed.

End Deviations.

(** ** The concrete run *)

Lemma scenario_no_fishing (cap : R) (n a y A : nat) :
  0 <= cap ->
  FMarray (state_after Rpower (fun _ => junk) ones scen_heap (scenario 2 cap 0) n)
    a y A = 0.
Proof. intros H. apply FM_zero_apical; [reflexivity|reflexivity|exact H]. Qed.

(** Survival at mortality 0.2. *)
Lemma survival_02 : 0 < exp (- scen_Z 0%nat 0%nat) < 1.
Proof.
  unfold scen_Z. pose proof (survival_deficit 0.2 ltac:(lra)).
  pose proof (exp_pos (- (0.2))). lra.
Qed.

(** *** C1 *)

(** Two areas that exchange half of their fish. *)
Lemma movement_conserves_abundance_mix :
  sum_upto 2
    (fun BB => popdynOneTScpp 2 2 ones scen_N scen_Z 1 0.7 ones ones ones ones
                 mix 1 0 junk 1%nat BB)
  = sum_upto 2
      (fun AA => Nnext_premove 2 2 ones scen_N scen_Z 1 0.7 ones ones ones ones
                   1 0 junk 1%nat AA).
Proof.
  apply movement_conserves_abundance; [lia|].
  intros AA _. unfold mix. simpl. lra.
Defined.

(** *** C3 *)

(** With no fish of age 0 to survive into the last age class, the plus group
    changes nothing although Z is positive. *)
Lemma plus_group_not_strict :
  0 < scen_Z 1%nat 0%nat
  /\ popdynOneTScpp 1 2 ones no_fish scen_Z 1 0.7 ones ones ones ones stay 1 1
       junk 1%nat 0%nat
     = popdynOneTScpp 1 2 ones no_fish scen_Z 1 0.7 ones ones ones ones stay 1 0
         junk 1%nat 0%nat.
Proof.
  split; [unfold scen_Z; lra|].
  rewrite !popdynOneTScpp_cell. cbn [Nat.ltb Nat.leb andb sum_upto].
  rewrite premove_plus, premove_aged by lia.
  unfold no_fish, Rdiv. simpl. ring.
Qed.

Lemma plus_group_accumulates_scenario :
  popdynOneTScpp 1 2 ones scen_N scen_Z 1 0.7 ones ones ones ones stay 1 0
    junk 1%nat 0%nat
  < popdynOneTScpp 1 2 ones scen_N scen_Z 1 0.7 ones ones ones ones stay 1 1
      junk 1%nat 0%nat.
Proof.
  pose proof survival_02 as Hs.
  assert (Hoff : forall A, (A < 1)%nat ->
            Nnext_premove 1 2 ones scen_N scen_Z 1 0.7 ones ones ones ones 1 0
              junk 1%nat A = 100 * exp (- scen_Z 0%nat 0%nat)).
  { intros A HA. rewrite premove_aged by lia. reflexivity. }
  destruct (plus_group_accumulates 1 2 ones scen_N scen_Z 1 0.7 ones ones ones
              ones stay 1 1 0 junk) as [_ H].
  - lia.
  - lia.
  - lia.
  - intros A _. unfold scen_Z. lra.
  - intros A HA. change (2 - 1)%nat with 1%nat. rewrite Hoff by assumption. lra.
  - intros AA BB _ _. unfold stay. lra.
  - destruct (H 0%nat) as [_ Hlt]; [lia|]. apply Hlt.
    change (2 - 1)%nat with 1%nat. rewrite popdynOneTScpp_cell.
    cbn [Nat.ltb Nat.leb andb sum_upto]. rewrite Hoff by lia.
    unfold stay. lra.
Defined.

(** *** C4 *)

(** With the plus group on, the last age class before movement exceeds the
    survivors of the age class below. *)
Lemma plus_group_changes_last_age :
  (1 <= 1 < 2)%nat
  /\ scen_N 0%nat 0%nat * exp (- scen_Z 0%nat 0%nat)
     < Nnext_premove 1 2 ones scen_N scen_Z 1 0.7 ones ones ones ones 1 1 junk
         1%nat 0%nat.
Proof.
  split; [lia|].
  pose proof survival_02 as Hs.
  pose proof (premove_plus 1 2 ones scen_N scen_Z 1 0.7 ones ones ones ones 1 1
                junk 0) as Hplus.
  change (2 - 2)%nat with 0%nat in Hplus. change (2 - 1)%nat with 1%nat in Hplus.
  rewrite Hplus by lia.
  apply div_fraction_gt.
  - unfold scen_Z in *. lra.
  - unfold scen_N. lra.
Qed.

Lemma survival_and_ageing_scenario :
  nth 0 (fst (scen_run 2 0.8 0)) zeros 1%nat 1%nat 0%nat
  = nth 0 (fst (scen_run 2 0.8 0)) zeros 0%nat 0%nat 0%nat * exp (- 0.2).
Proof.
  destruct survival_and_ageing as (_ & _ & H).
  apply (H Rpower (fun _ => junk) ones scen_heap (scenario 2 0.8 0) 0%nat).
  - reflexivity.
  - reflexivity.
  - simpl. lia.
  - intros y _. reflexivity.
  - intros y _. rewrite popdynCPP_list. cbn [nth].
    apply scenario_no_fishing. lra.
  - intros y. reflexivity.
  - simpl. lia.
Defined.

(** *** C2 *)

(** With a cap of 0.1 and no fishing, total mortality is the natural mortality
    0.2, above the cap. *)
Lemma total_mortality_exceeds_cap :
  maxF (scenario 2 0.1 0) = 0.1
  /\ nth 7 (fst (scen_run 2 0.1 0)) zeros 0%nat 0%nat 0%nat = 0.2
  /\ maxF (scenario 2 0.1 0)
     < nth 7 (fst (scen_run 2 0.1 0)) zeros 0%nat 0%nat 0%nat.
Proof.
  assert (H : nth 7 (fst (scen_run 2 0.1 0)) zeros 0%nat 0%nat 0%nat = 0.2).
  { unfold scen_run. rewrite popdynCPP_list. cbn [nth].
    rewrite Zarray_final by (simpl; lia).
    rewrite scenario_no_fishing by lra.
    cbn [control scenario Z.eqb Pos.eqb andb M_age]. lra. }
  split; [reflexivity|]. split; [exact H|]. rewrite H. simpl. lra.
Qed.

(** *** C5 *)

Lemma effort_reallocation_scenario :
  sum_upto 1 (fishdist (scen_state 2 0.8 0 1)) = 1.
Proof.
  destruct (effort_reallocation Rpower (fun _ => junk) ones scen_heap
              (scenario 2 0.8 0) 0) as [_ H].
  - simpl. lia.
  - apply H. cbn [nareas scenario sum_upto MPA Spat_targc].
    match goal with
    | |- context [Rpower ?x ?y] =>
        pose proof (exp_pos (y * ln x)) as Hpos; fold (Rpower x y) in Hpos;
        set (t := Rpower x y) in *
    end.
    replace (0 + 1 * (t / (0 + t))) with 1 by (field; lra). lra.
Defined.

(** *** C6 *)

Lemma recruitment_deviation_offset_scenario :
  nth 0 (fst (scen_run 2 0.8 0)) zeros 0%nat 1%nat 0%nat
  = popdynOneTScpp 1 2 (SB_of (scenario 2 0.8 0) 0 (scen_state 2 0.8 0 0))
      (fun a' A' => Narray (scen_state 2 0.8 0 0) a' 0%nat A')
      (fun a' A' => Zarray (scen_state 2 0.8 0 0) a' 0%nat A')
      (Prec (scenario 2 0.8 0) (0 + 2)%nat) 0.7
      (cells (hp (scen_state 2 0.8 0 0)) (R0c2 scen_heap (scenario 2 0.8 0)))
      (cells (hp (scen_state 2 0.8 0 0)) 1%nat)
      (cells (hp (scen_state 2 0.8 0 0)) (aRc2 scen_heap (scenario 2 0.8 0)))
      (cells (hp (scen_state 2 0.8 0 0)) (bRc2 scen_heap (scenario 2 0.8 0)))
      stay 1 0 (junk) 0%nat 0%nat.
Proof.
  apply (recruitment_deviation_offset Rpower (fun _ => junk) ones scen_heap
           (scenario 2 0.8 0) 0 0 0); simpl; lia.
Defined.

(** *** C7 *)

Lemma control_modes_agree_scenario :
  nth 5 (fst (scen_run 1 0.8 0.3)) zeros = nth 5 (fst (scen_run 2 0.8 0.3)) zeros
  /\ nth 6 (fst (scen_run 1 0.8 0.3)) zeros = nth 6 (fst (scen_run 2 0.8 0.3)) zeros.
Proof.
  apply (control_modes_agree Rpower (fun _ => junk) ones scen_heap
           (scenario 1 0.8 0.3)).
  - simpl. lia.
  - intros y _. simpl. lra.
Defined.

(** *** C8 *)

(** With a negative cap, the Fmax condition of the first year replaces the
    zeros of the F cube by the cap. *)
Lemma unfished_negative_cap :
  control (scenario 3 (-1) 0) = 3%Z
  /\ nth 5 (fst (scen_run 3 (-1) 0)) zeros 0%nat 0%nat 0%nat = -1
  /\ nth 7 (fst (scen_run 3 (-1) 0)) zeros 0%nat 0%nat 0%nat = 0.2 + -1.
Proof.
  assert (HF : FMarray (scen_state 3 (-1) 0 (3 - 1)) 0%nat 0%nat 0%nat = -1).
  { unfold scen_state.
    destruct (FM_unfished_state Rpower (fun _ => junk) ones scen_heap
                (scenario 3 (-1) 0) (3 - 1) 0 0 0 eq_refl) as [-> _].
    unfold fill_above, zeros. cbn [maxF scenario].
    destruct (Rgt_dec 0 (-1)); lra. }
  split; [reflexivity|]. split.
  - exact HF.
  - unfold scen_run. rewrite popdynCPP_list. cbn [nth].
    rewrite Zarray_final by (simpl; lia).
    cbn [control scenario Z.eqb Pos.eqb andb M_age Nat.ltb Nat.leb pyears].
    unfold scen_state in HF. cbn [pyears scenario]. rewrite HF. reflexivity.
Qed.

Lemma unfished_mode_no_fishing_scenario :
  nth 5 (fst (scen_run 3 0.8 0)) zeros 1%nat 2%nat 0%nat = 0
  /\ nth 6 (fst (scen_run 3 0.8 0)) zeros 1%nat 2%nat 0%nat = 0
  /\ nth 7 (fst (scen_run 3 0.8 0)) zeros 1%nat 2%nat 0%nat = 0.2.
Proof.
  apply (unfished_mode_no_fishing Rpower (fun _ => junk) ones scen_heap
           (scenario 3 0.8 0) 1 2 0).
  - reflexivity.
  - simpl. lra.
  - simpl. lia.
  - simpl. lia.
  - simpl. lia.
Defined.

(** *** C9 *)

Lemma caller_vectors_unchanged_scenario :
  (cells (snd (scen_run 3 0.8 0)) 0%nat = cells scen_heap 0%nat
   /\ cells (snd (scen_run 3 0.8 0)) 2%nat = cells scen_heap 2%nat
   /\ cells (snd (scen_run 3 0.8 0)) 3%nat = cells scen_heap 3%nat)
  /\ (R0c2 scen_heap (scenario 3 0.8 0) <> 0%nat
      /\ aRc2 scen_heap (scenario 3 0.8 0) <> 2%nat
      /\ bRc2 scen_heap (scenario 3 0.8 0) <> 3%nat).
Proof.
  apply (caller_vectors_unchanged Rpower (fun _ => junk) ones scen_heap
           (scenario 3 0.8 0)); simpl; lia.
Defined.

(** *** C10 *)

(** One age class with the plus group on: line 57 rewrites the age-0 row
    before the movement loop reads it. *)
Lemma unassigned_row_rescaled :
  (3 <> 1 /\ 3 <> 2)
  /\ junk 0%nat 0%nat 0%nat
     < Nnext_premove 1 1 ones scen_N scen_Z 1 0.7 ones ones ones ones 3 1 junk
         0%nat 0%nat.
Proof.
  split; [split; lra|].
  pose proof survival_02 as Hs.
  rewrite premove_unassigned by (lra || lia).
  unfold plus_cell. cbn [Z.gtb Z.compare Nat.sub Nat.eqb andb].
  apply div_fraction_gt.
  - unfold scen_Z in *. lra.
  - unfold junk. lra.
Qed.

(** The selector 3 leaves age 0 to the uninitialised storage: the 7 held
    there comes back, neither zero nor an error. *)
Lemma recruitment_unassigned_scenario :
  Nnext_premove 1 2 ones scen_N scen_Z 1 0.7 ones ones ones ones 3 0 junk
    0%nat 0%nat = 7
  /\ popdynOneTScpp 1 2 ones scen_N scen_Z 1 0.7 ones ones ones ones stay 3 0
       junk 0%nat 0%nat = 7.
Proof.
  destruct (recruitment_unassigned 1 2 ones scen_N scen_Z 1 0.7 ones ones ones
              ones stay 3 0 junk 0) as (_ & H1 & H2).
  - lra.
  - lra.
  - lia.
  - lia.
  - split.
    + rewrite H1. reflexivity.
    + rewrite H2. simpl. unfold junk, stay. lra.
Defined.

(** *** X1 *)

(** The deviations of the years below [maxage] are never read. *)
Lemma deviations_read_at_offset_scenario :
  popdynCPP Rpower (fun _ => junk) ones scen_heap
    (with_Prec (fun i => if (i <? 2)%nat then 5 else 1) (scenario 2 0.8 0))
  = popdynCPP Rpower (fun _ => junk) ones scen_heap
      (with_Prec ones (scenario 2 0.8 0)).
Proof.
  apply deviations_read_at_offset.
  intros yr _. cbn [maxage scenario]. unfold ones.
  destruct (Nat.ltb_spec (yr + 2) 2); [lia|reflexivity].
Defined.

(** * Further properties of the transition and of the projection *)

(** ** More on the transition: recruitment, movement, signs *)

Lemma sum_upto_nonneg (n : nat) (f : nat -> R) :
  (forall i, (i < n)%nat -> 0 <= f i) -> 0 <= sum_upto n f.
Proof.
  intros H. rewrite <- (sum_upto_zero n). apply sum_upto_le. exact H.
Qed.

(** A sum against the indicator of one index picks that index. *)
Lemma sum_upto_pick (n k : nat) (f : nat -> R) :
  (k < n)%nat ->
  sum_upto n (fun i => f i * (if (i =? k)%nat then 1 else 0)) = f k.
Proof.
  induction n as [|n IH]; intros Hk; [lia|]. simpl.
  destruct (Nat.eqb_spec n k) as [->|Hne].
  - rewrite (sum_upto_ext k _ (fun _ => 0)).
    + rewrite sum_upto_zero. lra.
    + intros i Hi. destruct (Nat.eqb_spec i k); [lia|lra].
  - rewrite IH by lia. lra.
Qed.

Section TransitionMore.

Variables (nareas maxage : nat) (SSBcurr : vec) (Ncurr Zcurr : mat)
          (PerrYr hs : R) (R0a SSBpR aR bR : vec) (mov : cube)
          (SRrel : R) (plusgroup : Z) (fresh : nat -> mat).

(** Age class 0 before movement, when the plus group leaves it alone. *)
Lemma premove_recruits (A : nat) :
  (A < nareas)%nat -> (0 < maxage)%nat ->
  (1 < maxage)%nat \/ (plusgroup <= 0)%Z ->
  Nnext_premove nareas maxage SSBcurr Ncurr Zcurr PerrYr hs R0a SSBpR aR bR
    SRrel plusgroup fresh 0%nat A
  = recruit_cell SSBcurr PerrYr hs R0a SSBpR aR bR SRrel A (fresh 0%nat 0%nat A).
Proof.
  intros HA Hm Hp. rewrite Nnext_premove_cell.
  unfold premove_cell, plus_cell, aged_cell.
  destruct (Z.gtb_spec plusgroup 0); index_cases.
Qed.

(** X2. With the identity as movement tensor (every fish stays in its area)
    the movement loop hands back [Nnext] unchanged. *)
Theorem identity_movement_is_noop (age BB : nat) :
  (age < maxage)%nat -> (BB < nareas)%nat ->
  (forall AA B, (AA < nareas)%nat -> (B < nareas)%nat ->
                mov age AA B = if (AA =? B)%nat then 1 else 0) ->
  popdynOneTScpp nareas maxage SSBcurr Ncurr Zcurr PerrYr hs R0a SSBpR aR bR
    mov SRrel plusgroup fresh age BB
  = Nnext_premove nareas maxage SSBcurr Ncurr Zcurr PerrYr hs R0a SSBpR aR bR
      SRrel plusgroup fresh age BB.
Proof.
  intros Hage HBB Hmov. rewrite popdynOneTScpp_cell.
  destruct (Nat.ltb_spec age maxage); [|lia].
  destruct (Nat.ltb_spec BB nareas); [|lia]. cbn [andb].
  rewrite <- (sum_upto_pick nareas BB
                (fun AA => Nnext_premove nareas maxage SSBcurr Ncurr Zcurr PerrYr
                             hs R0a SSBpR aR bR SRrel plusgroup fresh age AA))
    by assumption.
  apply sum_upto_ext. intros AA HAA. rewrite Hmov by assumption. reflexivity.
Qed.

(** X3. Beverton-Holt recruitment (selector 1) is anchored as the steepness
    parameter says: at the unfished spawning biomass [SSBpR * R0a] an area
    recruits [PerrYr * R0a], and at 20% of it [PerrYr * hs * R0a]. *)
Theorem beverton_holt_anchors (A : nat) :
  SRrel = 1 -> (A < nareas)%nat -> (0 < maxage)%nat ->
  (1 < maxage)%nat \/ (plusgroup <= 0)%Z ->
  SSBpR A * R0a A <> 0 ->
  (hs <> 0 -> SSBcurr A = SSBpR A * R0a A ->
   Nnext_premove nareas maxage SSBcurr Ncurr Zcurr PerrYr hs R0a SSBpR aR bR
     SRrel plusgroup fresh 0%nat A = PerrYr * R0a A)
  /\ (SSBcurr A = 0.2 * (SSBpR A * R0a A) ->
      Nnext_premove nareas maxage SSBcurr Ncurr Zcurr PerrYr hs R0a SSBpR aR bR
        SRrel plusgroup fresh 0%nat A = PerrYr * (hs * R0a A)).
Proof.
  intros HS HA Hm Hp H0.
  rewrite premove_recruits by assumption.
  unfold recruit_cell, recruit_BH.
  destruct (Req_dec_T SRrel 2); [lra|].
  destruct (Req_dec_T SRrel 1); [|contradiction].
  set (S0 := SSBpR A * R0a A) in *.
  split.
  - intros Hh ->.
    replace (S0 * (1 - hs) + (5 * hs - 1) * S0) with (4 * hs * S0) by ring.
    field. split; assumption.
  - intros ->.
    replace 0.2 with (2 / 10) by lra.
    replace (S0 * (1 - hs) + (5 * hs - 1) * (2 / 10 * S0)) with (8 / 10 * S0)
      by field.
    field. assumption.
Qed.

End TransitionMore.

(** ** The shape of the two recruitment curves *)

Lemma div_le_cross (a b c d : R) :
  0 < b -> 0 < d -> a * d <= c * b -> a / b <= c / d.
Proof.
  intros Hb Hd H. apply (Rmult_le_reg_r (b * d)); [nra|].
  replace (a / b * (b * d)) with (a * d) by (field; lra).
  replace (c / d * (b * d)) with (c * b) by (field; lra).
  exact H.
Qed.

(** [x * exp(-x)] is largest at [x = 1]. *)
Lemma xexp_max (x : R) : x * exp (- x) <= exp (- 1).
Proof.
  pose proof (exp_ineq1_le (x - 1)) as H.
  pose proof (exp_pos (- x)) as Hp.
  replace (exp (- 1)) with (exp (x - 1) * exp (- x)).
  - apply Rmult_le_compat_r; lra.
  - rewrite <- exp_plus. f_equal. ring.
Qed.

(** Beyond [1 / b] the curve [s * exp(-b * s)] goes down. *)
Lemma xexp_decreasing (b s1 s2 : R) :
  0 < b -> 1 / b <= s1 -> s1 <= s2 ->
  s2 * exp (- b * s2) <= s1 * exp (- b * s1).
Proof.
  intros Hb H1 H12.
  assert (Hinv : 0 < 1 / b) by (apply Rdiv_lt_0_compat; lra).
  assert (Hbs : 1 <= b * s1).
  { replace 1 with (b * (1 / b)) by (field; lra).
    apply Rmult_le_compat_l; lra. }
  pose proof (exp_ineq1_le (b * (s2 - s1))) as He.
  pose proof (exp_pos (- b * s2)) as Hp.
  replace (exp (- b * s1)) with (exp (b * (s2 - s1)) * exp (- b * s2)).
  - rewrite <- Rmult_assoc. apply Rmult_le_compat_r; [lra|]. nra.
  - rewrite <- exp_plus. f_equal. ring.
Qed.

Section RecruitmentShape.

Variables (nareas maxage : nat) (SSB1 SSB2 : vec) (Ncurr Zcurr : mat)
          (PerrYr hs : R) (R0a SSBpR aR bR : vec)
          (SRrel : R) (plusgroup : Z) (fresh : nat -> mat).

(** X4. Beverton-Holt recruitment (selector 1) does not decrease when the
    spawning biomass of the area grows, for a steepness from 0.2 up to but
    excluding 1, positive unfished recruitment and spawning-per-recruit, and
    a deviation that is not negative. *)
Theorem beverton_holt_monotone (A : nat) :
  SRrel = 1 -> (A < nareas)%nat -> (0 < maxage)%nat ->
  (1 < maxage)%nat \/ (plusgroup <= 0)%Z ->
  0 <= PerrYr -> 0 < R0a A -> 0 < SSBpR A -> 0.2 <= hs < 1 ->
  0 <= SSB1 A <= SSB2 A ->
  Nnext_premove nareas maxage SSB1 Ncurr Zcurr PerrYr hs R0a SSBpR aR bR
    SRrel plusgroup fresh 0%nat A
  <= Nnext_premove nareas maxage SSB2 Ncurr Zcurr PerrYr hs R0a SSBpR aR bR
       SRrel plusgroup fresh 0%nat A.
Proof.
  intros HS HA Hm Hp HP HR0 Hspr Hh H12.
  rewrite !premove_recruits by assumption.
  unfold recruit_cell, recruit_BH.
  destruct (Req_dec_T SRrel 2); [lra|].
  destruct (Req_dec_T SRrel 1); [|contradiction].
  set (a := SSBpR A * R0a A * (1 - hs)).
  set (b := 5 * hs - 1).
  assert (Ha : 0 < a) by (unfold a; apply Rmult_lt_0_compat; nra).
  assert (Hb : 0 <= b) by (unfold b; lra).
  assert (Hk : 0 <= PerrYr * (4 * R0a A * hs)) by (apply Rmult_le_pos; nra).
  apply div_le_cross; [nra|nra|].
  apply Rminus_le.
  replace (PerrYr * (4 * R0a A * hs * SSB1 A) * (a + b * SSB2 A)
           - PerrYr * (4 * R0a A * hs * SSB2 A) * (a + b * SSB1 A))
    with (- (PerrYr * (4 * R0a A * hs) * (a * (SSB2 A - SSB1 A)))) by ring.
  assert (0 <= PerrYr * (4 * R0a A * hs) * (a * (SSB2 A - SSB1 A)))
    by (apply Rmult_le_pos; [assumption|nra]).
  lra.
Qed.

(** X5. Ricker recruitment (selector 2) with a positive [bR] never exceeds
    what the area recruits at the spawning biomass [1 / bR], which is
    [PerrYr * aR / bR * exp(-1)], and it does not increase once the spawning
    biomass has passed [1 / bR]. *)
Theorem ricker_dome (A : nat) :
  SRrel = 2 -> (A < nareas)%nat -> (0 < maxage)%nat ->
  (1 < maxage)%nat \/ (plusgroup <= 0)%Z ->
  0 <= PerrYr -> 0 <= aR A -> 0 < bR A ->
  Nnext_premove nareas maxage SSB1 Ncurr Zcurr PerrYr hs R0a SSBpR aR bR
    SRrel plusgroup fresh 0%nat A
  <= PerrYr * aR A * (1 / bR A) * exp (- 1)
  /\ (SSB1 A = 1 / bR A ->
      Nnext_premove nareas maxage SSB1 Ncurr Zcurr PerrYr hs R0a SSBpR aR bR
        SRrel plusgroup fresh 0%nat A
      = PerrYr * aR A * (1 / bR A) * exp (- 1))
  /\ (1 / bR A <= SSB1 A <= SSB2 A ->
      Nnext_premove nareas maxage SSB2 Ncurr Zcurr PerrYr hs R0a SSBpR aR bR
        SRrel plusgroup fresh 0%nat A
      <= Nnext_premove nareas maxage SSB1 Ncurr Zcurr PerrYr hs R0a SSBpR aR bR
           SRrel plusgroup fresh 0%nat A).
Proof.
  intros HS HA Hm Hp HP Ha Hb.
  rewrite !premove_recruits by assumption.
  unfold recruit_cell, recruit_Ricker.
  destruct (Req_dec_T SRrel 2); [|contradiction].
  assert (Hk : 0 <= PerrYr * aR A) by (apply Rmult_le_pos; assumption).
  split; [|split].
  - rewrite !(Rmult_assoc (PerrYr * aR A)).
    apply Rmult_le_compat_l; [assumption|].
    pose proof (xexp_max (bR A * SSB1 A)) as H.
    replace (- (bR A * SSB1 A)) with (- bR A * SSB1 A) in H by ring.
    apply (Rmult_le_reg_l (bR A)); [assumption|].
    replace (bR A * (1 / bR A * exp (- 1))) with (exp (- 1)) by (field; lra).
    lra.
  - intros ->. replace (- bR A * (1 / bR A)) with (- 1) by (field; lra).
    reflexivity.
  - intros [H1 H2]. rewrite !(Rmult_assoc (PerrYr * aR A)).
    apply Rmult_le_compat_l; [assumption|].
    apply xexp_decreasing; assumption.
Qed.

End RecruitmentShape.

(** ** Signs *)

Section TransitionSigns.

Variables (nareas maxage : nat) (SSBcurr : vec) (Ncurr Zcurr : mat)
          (PerrYr hs : R) (R0a SSBpR aR bR : vec) (mov : cube)
          (SRrel : R) (plusgroup : Z) (fresh : nat -> mat).

Lemma recruit_BH_nonneg (A : nat) :
  0 <= PerrYr -> 0.2 <= hs < 1 -> 0 < R0a A -> 0 < SSBpR A -> 0 <= SSBcurr A ->
  0 <= recruit_BH SSBcurr PerrYr hs R0a SSBpR A.
Proof.
  intros HP Hh HR Hs HS. unfold recruit_BH.
  assert (0 < SSBpR A * R0a A * (1 - hs)) by (apply Rmult_lt_0_compat; nra).
  assert (0 <= (5 * hs - 1) * SSBcurr A) by (apply Rmult_le_pos; lra).
  apply Rmult_le_pos.
  - apply Rmult_le_pos; [assumption|].
    apply Rmult_le_pos; [|assumption]. nra.
  - apply Rlt_le, Rinv_0_lt_compat. lra.
Qed.

Lemma recruit_Ricker_nonneg (A : nat) :
  0 <= PerrYr -> 0 <= aR A -> 0 <= SSBcurr A ->
  0 <= recruit_Ricker SSBcurr PerrYr aR bR A.
Proof.
  intros HP Ha HS. unfold recruit_Ricker.
  pose proof (exp_pos (- bR A * SSBcurr A)).
  repeat apply Rmult_le_pos; lra.
Qed.

(** [Nnext] before movement is not negative. *)
Lemma Nnext_premove_nonneg (age AA : nat) :
  (age < maxage)%nat -> (AA < nareas)%nat ->
  (forall a A, (a < maxage)%nat -> (A < nareas)%nat -> 0 <= Ncurr a A) ->
  (forall A, (A < nareas)%nat -> 0 <= SSBcurr A) ->
  0 <= PerrYr ->
  (SRrel = 1 /\ 0.2 <= hs < 1
   /\ forall A, (A < nareas)%nat -> 0 < R0a A /\ 0 < SSBpR A)
  \/ (SRrel = 2 /\ forall A, (A < nareas)%nat -> 0 <= aR A) ->
  (plusgroup <= 0)%Z
  \/ (forall A, (A < nareas)%nat -> 0 < Zcurr (maxage - 1)%nat A) ->
  0 <= Nnext_premove nareas maxage SSBcurr Ncurr Zcurr PerrYr hs R0a SSBpR aR bR
         SRrel plusgroup fresh age AA.
Proof.
  intros Hage HAA HN HS HP Hrec Hplus.
  rewrite Nnext_premove_cell.
  destruct (Nat.ltb_spec AA nareas); [|lia].
  unfold premove_cell.
  assert (Hinner : 0 <= aged_cell maxage Ncurr Zcurr age AA
                          (if (age =? 0)%nat
                           then recruit_cell SSBcurr PerrYr hs R0a SSBpR aR bR SRrel AA
                                  (fresh 0%nat age AA)
                           else fresh 0%nat age AA)).
  { unfold aged_cell.
    destruct (Nat.leb_spec 1 age); cbn [andb].
    - destruct (Nat.ltb_spec age maxage); [|lia].
      apply Rmult_le_pos; [apply HN; lia|apply Rlt_le, exp_pos].
    - destruct (Nat.eqb_spec age 0); [|lia].
      unfold recruit_cell.
      destruct Hrec as [(-> & Hh & Hpar)|(-> & Hpar)].
      + destruct (Req_dec_T 1 2); [lra|].
        destruct (Req_dec_T 1 1); [|lra].
        destruct (Hpar AA HAA). apply recruit_BH_nonneg; auto.
      + destruct (Req_dec_T 2 2); [|lra].
        apply recruit_Ricker_nonneg; auto. }
  unfold plus_cell.
  destruct (Z.gtb_spec plusgroup 0); cbn [andb]; [|exact Hinner].
  destruct (Nat.eqb_spec age (maxage - 1)); [|exact Hinner].
  destruct Hplus as [Hoff|HZ]; [lia|].
  pose proof (survival_deficit _ (HZ AA HAA)) as Hd.
  apply Rmult_le_pos; [exact Hinner|].
  apply Rlt_le, Rinv_0_lt_compat. lra.
Qed.

(** Movement with fractions that are not negative keeps a sign. *)
Lemma movement_nonneg (Nnext : mat) (age BB : nat) :
  (forall AA, (AA < nareas)%nat -> 0 <= Nnext age AA) ->
  (forall AA, (AA < nareas)%nat -> 0 <= mov age AA BB) ->
  0 <= sum_upto nareas (fun AA => Nnext age AA * mov age AA BB).
Proof.
  intros HN Hmov. apply sum_upto_nonneg. intros AA HAA.
  apply Rmult_le_pos; auto.
Qed.

Lemma popdynOneTScpp_nonneg (age BB : nat) :
  (age < maxage)%nat -> (BB < nareas)%nat ->
  (forall a A, (a < maxage)%nat -> (A < nareas)%nat -> 0 <= Ncurr a A) ->
  (forall a AA B, (a < maxage)%nat -> (AA < nareas)%nat -> (B < nareas)%nat ->
                  0 <= mov a AA B) ->
  (forall A, (A < nareas)%nat -> 0 <= SSBcurr A) ->
  0 <= PerrYr ->
  (SRrel = 1 /\ 0.2 <= hs < 1
   /\ forall A, (A < nareas)%nat -> 0 < R0a A /\ 0 < SSBpR A)
  \/ (SRrel = 2 /\ forall A, (A < nareas)%nat -> 0 <= aR A) ->
  (plusgroup <= 0)%Z
  \/ (forall A, (A < nareas)%nat -> 0 < Zcurr (maxage - 1)%nat A) ->
  0 <= popdynOneTScpp nareas maxage SSBcurr Ncurr Zcurr PerrYr hs R0a SSBpR aR bR
         mov SRrel plusgroup fresh age BB.
Proof.
  intros Hage HBB HN Hmov HS HP Hrec Hplus.
  rewrite popdynOneTScpp_cell.
  destruct (Nat.ltb_spec age maxage); [|lia].
  destruct (Nat.ltb_spec BB nareas); [|lia]. cbn [andb].
  apply movement_nonneg; [|auto].
  intros AA HAA. apply Nnext_premove_nonneg; assumption.
Qed.

(** X6. The transition keeps abundance nonnegative.  When the input
    numbers-at-age, the spawning biomass and the movement fractions are not
    negative, the recruitment parameters are those of a Beverton-Holt curve
    (selector 1, steepness from 0.2 up to but excluding 1, positive [R0a] and
    [SSBpR]) or of a Ricker curve (selector 2, [aR] not negative), the
    deviation is not negative, and the plus group is off or the total
    mortality of the last age class is positive, every number-at-age returned
    is nonnegative. *)
Theorem transition_nonnegative (age BB : nat) :
  (age < maxage)%nat -> (BB < nareas)%nat ->
  (forall a A, (a < maxage)%nat -> (A < nareas)%nat -> 0 <= Ncurr a A) ->
  (forall a AA B, (a < maxage)%nat -> (AA < nareas)%nat -> (B < nareas)%nat ->
                  0 <= mov a AA B) ->
  (forall A, (A < nareas)%nat -> 0 <= SSBcurr A) ->
  0 <= PerrYr ->
  (SRrel = 1 /\ 0.2 <= hs < 1
   /\ forall A, (A < nareas)%nat -> 0 < R0a A /\ 0 < SSBpR A)
  \/ (SRrel = 2 /\ forall A, (A < nareas)%nat -> 0 <= aR A) ->
  (plusgroup <= 0)%Z
  \/ (forall A, (A < nareas)%nat -> 0 < Zcurr (maxage - 1)%nat A) ->
  0 <= popdynOneTScpp nareas maxage SSBcurr Ncurr Zcurr PerrYr hs R0a SSBpR aR bR
         mov SRrel plusgroup fresh age BB.
Proof.
  intros Hage HBB HN Hmov HS HP Hrec Hplus.
  rewrite popdynOneTScpp_cell.
  destruct (Nat.ltb_spec age maxage); [|lia].
  destruct (Nat.ltb_spec BB nareas); [|lia]. cbn [andb].
  apply movement_nonneg.
  - intros AA HAA. apply Nnext_premove_nonneg; assumption.
  - intros AA HAA. apply Hmov; assumption.
Qed.

End TransitionSigns.

(** The matrix returned depends on its arguments only through the cells inside
    the dimensions. *)
Lemma popdynOneTScpp_ext (nareas maxage : nat) (SSB SSB' : vec) (N N' Zc Zc' : mat)
      (PerrYr hs : R) (R0a R0a' SSBpR SSBpR' aR aR' bR bR' : vec) (mov : cube)
      (SRrel : R) (plusgroup : Z) (fresh : nat -> mat) (age BB : nat) :
  (forall a A, (a < maxage)%nat -> (A < nareas)%nat ->
               N a A = N' a A /\ Zc a A = Zc' a A) ->
  (forall A, (A < nareas)%nat ->
             SSB A = SSB' A /\ R0a A = R0a' A /\ SSBpR A = SSBpR' A
             /\ aR A = aR' A /\ bR A = bR' A) ->
  popdynOneTScpp nareas maxage SSB N Zc PerrYr hs R0a SSBpR aR bR mov SRrel
    plusgroup fresh age BB
  = popdynOneTScpp nareas maxage SSB' N' Zc' PerrYr hs R0a' SSBpR' aR' bR' mov
      SRrel plusgroup fresh age BB.
Proof.
  intros Hm Hv. rewrite !popdynOneTScpp_cell.
  destruct (Nat.ltb_spec age maxage); [|reflexivity].
  destruct (Nat.ltb_spec BB nareas); [|reflexivity]. cbn [andb].
  apply sum_upto_ext. intros AA HAA. f_equal.
  rewrite !Nnext_premove_cell.
  destruct (Nat.ltb_spec AA nareas); [|lia].
  destruct (Hv AA HAA) as (E1 & E2 & E3 & E4 & E5).
  unfold premove_cell, plus_cell, aged_cell, recruit_cell, recruit_BH,
    recruit_Ricker.
  rewrite E1, E2, E3, E4, E5.
  destruct (Hm (maxage - 1)%nat AA) as [_ ->]; [lia|assumption|].
  destruct (Nat.leb_spec 1 age); cbn [andb].
  - destruct (Hm (age - 1)%nat AA) as [-> ->]; [lia|assumption|]. reflexivity.
  - reflexivity.
Qed.


(** ** More on the projection *)

Section ProjectionMore.

Variable pow : R -> R -> R.
Variable fresh : nat -> nat -> mat.
Variable fishdist0 : vec.
Variable h0 : heap.
Variable p : inputs.

Local Abbreviation st := (state_after pow fresh fishdist0 h0 p).
Local Abbreviation body := (year_body pow fresh h0 p).
Local Abbreviation first_year := (year0 pow fishdist0 h0 p).

(** *** The derived cubes *)

Lemma next_area_loop_derived (yr : nat) (NY : mat) (n : nat) (s : pstate)
      (a y A : nat) :
  Barray (for_range 0 n (next_area p yr NY) s) a y A
  = (if ((a <? maxage p) && (y =? yr + 1) && (A <? n))%nat
     then NY a A * WtAge p a (yr + 1)%nat else Barray s a y A)
  /\ SSNarray (for_range 0 n (next_area p yr NY) s) a y A
     = (if ((a <? maxage p) && (y =? yr + 1) && (A <? n))%nat
        then NY a A * MatAge p a (yr + 1)%nat else SSNarray s a y A)
  /\ SBarray (for_range 0 n (next_area p yr NY) s) a y A
     = (if ((a <? maxage p) && (y =? yr + 1) && (A <? n))%nat
        then NY a A * WtAge p a (yr + 1)%nat * MatAge p a (yr + 1)%nat
        else SBarray s a y A).
Proof.
  induction n as [|n (IH1 & IH2 & IH3)]; simpl.
  - repeat split; index_cases.
  - unfold set_ages at 1 2 3. rewrite IH1, IH2, IH3.
    repeat split; index_cases; subst; reflexivity.
Qed.

Lemma year0_area_loop_derived (n : nat) (s : pstate) (a y A : nat) :
  Barray (for_range 0 n (year0_area p) s) a y A
  = (if ((a <? maxage p) && (y =? 0) && (A <? n))%nat
     then Ncurr p a A * WtAge p a 0%nat else Barray s a y A)
  /\ SSNarray (for_range 0 n (year0_area p) s) a y A
     = (if ((a <? maxage p) && (y =? 0) && (A <? n))%nat
        then Ncurr p a A * MatAge p a 0%nat else SSNarray s a y A)
  /\ SBarray (for_range 0 n (year0_area p) s) a y A
     = (if ((a <? maxage p) && (y =? 0) && (A <? n))%nat
        then Ncurr p a A * WtAge p a 0%nat * MatAge p a 0%nat
        else SBarray s a y A)
  /\ VBarray (for_range 0 n (year0_area p) s) a y A
     = (if ((a <? maxage p) && (y =? 0) && (A <? n))%nat
        then Ncurr p a A * WtAge p a 0%nat * Vuln p a 0%nat
        else VBarray s a y A).
Proof.
  induction n as [|n (IH1 & IH2 & IH3 & IH4)]; simpl.
  - repeat split; index_cases.
  - unfold set_ages at 1 2 3 4. rewrite IH1, IH2, IH3, IH4.
    repeat split; index_cases; subst; reflexivity.
Qed.

Lemma year_body_derived (yr : nat) (s : pstate) (a y A : nat) :
  Barray (body yr s) a y A
  = (if ((a <? maxage p) && (y =? yr + 1) && (A <? nareas p))%nat
     then NextYrN_of fresh h0 p yr s a A * WtAge p a (yr + 1)%nat
     else Barray s a y A)
  /\ SSNarray (body yr s) a y A
     = (if ((a <? maxage p) && (y =? yr + 1) && (A <? nareas p))%nat
        then NextYrN_of fresh h0 p yr s a A * MatAge p a (yr + 1)%nat
        else SSNarray s a y A)
  /\ SBarray (body yr s) a y A
     = (if ((a <? maxage p) && (y =? yr + 1) && (A <? nareas p))%nat
        then NextYrN_of fresh h0 p yr s a A * WtAge p a (yr + 1)%nat
             * MatAge p a (yr + 1)%nat
        else SBarray s a y A).
Proof.
  open_year. unfold F_stmt. control_cases p; frame.
  all: match goal with
       | |- context [for_range _ ?n (next_area _ _ ?NY) ?s0] =>
           destruct (next_area_loop_derived yr NY n s0 a y A) as (-> & -> & ->)
       end; repeat split; reflexivity.
Qed.

Lemma year0_cubes (a y A : nat) :
  Narray first_year a y A
  = (if ((a <? maxage p) && (y =? 0) && (A <? nareas p))%nat
     then Ncurr p a A else 0)
  /\ Barray first_year a y A
     = (if ((a <? maxage p) && (y =? 0) && (A <? nareas p))%nat
        then Ncurr p a A * WtAge p a 0%nat else 0)
  /\ SSNarray first_year a y A
     = (if ((a <? maxage p) && (y =? 0) && (A <? nareas p))%nat
        then Ncurr p a A * MatAge p a 0%nat else 0)
  /\ SBarray first_year a y A
     = (if ((a <? maxage p) && (y =? 0) && (A <? nareas p))%nat
        then Ncurr p a A * WtAge p a 0%nat * MatAge p a 0%nat else 0)
  /\ VBarray first_year a y A
     = (if ((a <? maxage p) && (y =? 0) && (A <? nareas p))%nat
        then Ncurr p a A * WtAge p a 0%nat * Vuln p a 0%nat else 0).
Proof.
  open_year. unfold F_stmt. control_cases p; frame.
  all: match goal with
       | |- context [for_range _ ?n (year0_area _) ?s0] =>
           destruct (year0_area_loop_derived n s0 a y A) as (-> & -> & -> & ->)
       end; repeat split; reflexivity.
Qed.

(** The cubes derived from the numbers, in every year reached. *)
Lemma derived_state (n a y A : nat) :
  (a < maxage p)%nat -> (y <= n)%nat -> (A < nareas p)%nat ->
  Barray (st n) a y A = Narray (st n) a y A * WtAge p a y
  /\ SSNarray (st n) a y A = Narray (st n) a y A * MatAge p a y
  /\ SBarray (st n) a y A = Narray (st n) a y A * WtAge p a y * MatAge p a y
  /\ VBarray (st n) a y A = Narray (st n) a y A * WtAge p a y * Vuln p a y.
Proof.
  intros Ha Hy HA. induction n as [|n IH].
  - change (st 0) with first_year.
    destruct (year0_cubes a y A) as (-> & -> & -> & -> & ->).
    replace y with 0%nat by lia. index_cases. repeat split; reflexivity.
  - rewrite state_after_S.
    destruct (year_body_derived n (st n) a y A) as (-> & -> & ->).
    rewrite year_body_VBarray, year_body_Narray.
    destruct (Nat.eq_dec y (n + 1)) as [->|Hne].
    + index_cases. repeat split; reflexivity.
    + destruct IH as (IH1 & IH2 & IH3 & IH4); [lia|].
      index_cases. repeat split; assumption.
Qed.

(** X7. The cubes returned are consistent with one another: in every year,
    age and area, biomass is numbers times weight, mature numbers are numbers
    times maturity, spawning biomass is numbers times weight times maturity,
    and vulnerable biomass is numbers times weight times vulnerability; the
    numbers of the first year are the starting abundance [Ncurr]. *)
Theorem derived_cubes (a y A : nat) :
  (a < maxage p)%nat -> (y < pyears p)%nat -> (A < nareas p)%nat ->
  let out := fst (popdynCPP pow fresh fishdist0 h0 p) in
  nth 1 out zeros a y A = nth 0 out zeros a y A * WtAge p a y
  /\ nth 2 out zeros a y A = nth 0 out zeros a y A * MatAge p a y
  /\ nth 3 out zeros a y A = nth 0 out zeros a y A * WtAge p a y * MatAge p a y
  /\ nth 4 out zeros a y A = nth 0 out zeros a y A * WtAge p a y * Vuln p a y
  /\ nth 0 out zeros a 0%nat A = Ncurr p a A.
Proof.
  intros Ha Hy HA out. unfold out. rewrite popdynCPP_list. cbn [nth].
  destruct (derived_state (pyears p - 1) a y A) as (H1 & H2 & H3 & H4);
    try assumption; try lia.
  repeat split; try assumption.
  replace (pyears p - 1)%nat with (0 + (pyears p - 1))%nat by lia.
  rewrite Narray_stable by lia. change (st 0) with first_year.
  destruct (year0_cubes a 0 A) as (-> & _). index_cases.
Qed.


(** *** Cohorts from one year to the next *)

(** X8. With movement fractions that sum to 1 out of every area, a cohort
    followed from year [n] to year [n + 1] keeps, summed over the areas, the
    survivors exp(-Z) of each area (last age class under the plus group
    apart); so when numbers and total mortality are not negative it does not
    grow. *)
Theorem cohort_survival (n a : nat) :
  (n + 1 < pyears p)%nat -> (1 <= a < maxage p)%nat ->
  (plusgroup p <= 0)%Z \/ (a < maxage p - 1)%nat ->
  (forall AA, (AA < nareas p)%nat ->
              sum_upto (nareas p) (fun B => movc p n a AA B) = 1) ->
  let N := nth 0 (fst (popdynCPP pow fresh fishdist0 h0 p)) zeros in
  let Z := nth 7 (fst (popdynCPP pow fresh fishdist0 h0 p)) zeros in
  sum_upto (nareas p) (fun A => N a (n + 1)%nat A)
  = sum_upto (nareas p) (fun AA => N (a - 1)%nat n AA * exp (- Z (a - 1)%nat n AA))
  /\ ((forall AA, (AA < nareas p)%nat ->
                  0 <= N (a - 1)%nat n AA /\ 0 <= Z (a - 1)%nat n AA) ->
      sum_upto (nareas p) (fun A => N a (n + 1)%nat A)
      <= sum_upto (nareas p) (fun AA => N (a - 1)%nat n AA)).
Proof.
  intros Hn Ha Hp Hmov N Z.
  assert (Heq : sum_upto (nareas p) (fun A => N a (n + 1)%nat A)
                = sum_upto (nareas p)
                    (fun AA => N (a - 1)%nat n AA * exp (- Z (a - 1)%nat n AA))).
  { unfold N, Z. rewrite popdynCPP_list. cbn [nth].
    rewrite (sum_upto_ext _ _
               (fun A => sum_upto (nareas p)
                  (fun AA => Narray (st (pyears p - 1)) (a - 1)%nat n AA
                             * exp (- Zarray (st (pyears p - 1)) (a - 1)%nat n AA)
                             * movc p n a AA A))).
    - rewrite sum_upto_swap. apply sum_upto_ext. intros AA HAA.
      rewrite sum_upto_scale_l, Hmov by assumption. lra.
    - intros A HA. apply numbers_next_year; assumption. }
  split; [exact Heq|].
  intros Hsign. rewrite Heq. apply sum_upto_le. intros AA HAA.
  destruct (Hsign AA HAA) as [HN HZ].
  assert (exp (- Z (a - 1)%nat n AA) <= 1).
  { rewrite <- exp_0. destruct (Req_dec (Z (a - 1)%nat n AA) 0) as [->|Hne].
    - rewrite Ropp_0. lra.
    - apply Rlt_le, exp_increasing. lra. }
  pose proof (exp_pos (- Z (a - 1)%nat n AA)). nra.
Qed.

(** *** The realized fishing mortality *)

Lemma fill_above_Rmin (m : R) (C : cube) (a y A : nat) :
  fill_above m C a y A = Rmin (C a y A) m.
Proof.
  unfold fill_above, Rmin.
  destruct (Rgt_dec (C a y A) m), (Rle_dec (C a y A) m); lra.
Qed.

(** What the F statements of year [y] leave in year [y]. *)
Lemma F_stmt_year (y : nat) (s : pstate) (a A : nat) :
  (a < maxage p)%nat -> (A < nareas p)%nat ->
  FMarray (F_stmt p y s) a y A
  = (if (control p =? 2)%Z
     then Fapic p * fishdist s A * Vuln p a y / Asize_c p A
     else if (control p =? 1)%Z
          then Effind p y * Qc p * fishdist s A * Vuln p a y / Asize_c p A
          else FMarray s a y A)
  /\ FMretarray (F_stmt p y s) a y A
     = (if (control p =? 2)%Z
        then Fapic p * fishdist s A * Retc p a y / Asize_c p A
        else if (control p =? 1)%Z
             then Effind p y * Qc p * fishdist s A * Retc p a y / Asize_c p A
             else FMretarray s a y A).
Proof.
  intros Ha HA. unfold F_stmt.
  destruct (control p =? 2)%Z, (control p =? 1)%Z;
    rewrite ?F_apical_loop_FMarray, ?F_apical_loop_FMretarray,
      ?F_effort_loop_FMarray, ?F_effort_loop_FMretarray; frame;
    split; index_cases.
Qed.

Lemma F_stmt_fishdist (y : nat) (s : pstate) :
  fishdist (F_stmt p y s) = fishdist s.
Proof.
  unfold F_stmt. destruct (control p =? 1)%Z, (control p =? 2)%Z; frame; reflexivity.
Qed.


Lemma F_stmt_tempVec (y : nat) (s : pstate) :
  tempVec (F_stmt p y s) = tempVec s.
Proof.
  unfold F_stmt. destruct (control p =? 1)%Z, (control p =? 2)%Z; frame; reflexivity.
Qed.

Lemma year_body_FM_year (yr : nat) (s : pstate) (a A : nat) :
  control p <> 3%Z -> (a < maxage p)%nat -> (A < nareas p)%nat ->
  FMarray (body yr s) a (yr + 1)%nat A
  = Rmin (if (control p =? 2)%Z
          then Fapic p * fishdist (body yr s) A * Vuln p a (yr + 1)%nat / Asize_c p A
          else if (control p =? 1)%Z
               then Effind p (yr + 1)%nat * Qc p * fishdist (body yr s) A
                    * Vuln p a (yr + 1)%nat / Asize_c p A
               else FMarray s a (yr + 1)%nat A) (maxF p)
  /\ FMretarray (body yr s) a (yr + 1)%nat A
     = Rmin (if (control p =? 2)%Z
             then Fapic p * fishdist (body yr s) A * Retc p a (yr + 1)%nat / Asize_c p A
             else if (control p =? 1)%Z
                  then Effind p (yr + 1)%nat * Qc p * fishdist (body yr s) A
                       * Retc p a (yr + 1)%nat / Asize_c p A
                  else FMretarray s a (yr + 1)%nat A) (maxF p).
Proof.
  intros Hc Ha HA. open_year.
  destruct (Z.eqb_spec (control p) 3); [contradiction|]. frame.
  rewrite !fill_above_Rmin, F_stmt_fishdist.
  match goal with
  | |- context [F_stmt p ?y1 ?s'] =>
      destruct (F_stmt_year y1 s' a A Ha HA) as [-> ->]
  end.
  frame. split; reflexivity.
Qed.

Lemma year0_FM_year (a A : nat) :
  (a < maxage p)%nat -> (A < nareas p)%nat ->
  FMarray first_year a 0%nat A
  = Rmin (if (control p =? 2)%Z
          then Fapic p * fishdist first_year A * Vuln p a 0%nat / Asize_c p A
          else if (control p =? 1)%Z
               then Effind p 0%nat * Qc p * fishdist first_year A
                    * Vuln p a 0%nat / Asize_c p A
               else 0) (maxF p)
  /\ FMretarray first_year a 0%nat A
     = Rmin (if (control p =? 2)%Z
             then Fapic p * fishdist first_year A * Retc p a 0%nat / Asize_c p A
             else if (control p =? 1)%Z
                  then Effind p 0%nat * Qc p * fishdist first_year A
                       * Retc p a 0%nat / Asize_c p A
                  else 0) (maxF p).
Proof.
  intros Ha HA. open_year. frame.
  rewrite !fill_above_Rmin, F_stmt_fishdist.
  match goal with
  | |- context [F_stmt p ?y1 ?s'] =>
      destruct (F_stmt_year y1 s' a A Ha HA) as [-> ->]
  end.
  frame. split; reflexivity.
Qed.

(** Later iterations leave the F of a year as it is. *)
Lemma FMarray_stable (n k a y A : nat) :
  (y <= n)%nat ->
  FMarray (st (n + k)) a y A = FMarray (st n) a y A
  /\ FMretarray (st (n + k)) a y A = FMretarray (st n) a y A.
Proof.
  intros Hy. induction k as [|k [IH1 IH2]].
  - rewrite Nat.add_0_r. split; reflexivity.
  - rewrite Nat.add_succ_r, state_after_S.
    destruct (Z.eq_dec (control p) 3) as [Hc|Hc].
    + destruct (year_body_FM_unfished pow fresh h0 p (n + k) (st (n + k)) Hc)
        as [-> ->].
      split; assumption.
    + destruct (year_body_FM_other pow fresh h0 p (n + k) (st (n + k)) a y A Hc)
        as [-> ->]; [lia|].
      destruct (FM_le_state pow fresh fishdist0 h0 p (n + k) a y A).
      rewrite !fill_above_id by assumption. split; assumption.
Qed.

(** X9. In control modes 1 and 2 the realized fishing mortality of every year
    is the hard cap min(raw, maxF) of the raw value
    [Effind(y) * Qc * share * Vuln / Asize] (mode 1) or
    [Fapic * share * Vuln / Asize] (mode 2), where [share] is what [fishdist]
    holds for the area when the year is computed; the retained fishing
    mortality is the same with [Retc] for [Vuln]. *)
Theorem realized_fishing_mortality (a y A : nat) :
  control p = 1%Z \/ control p = 2%Z ->
  (a < maxage p)%nat -> (y < pyears p)%nat -> (A < nareas p)%nat ->
  let share := fishdist (state_after pow fresh fishdist0 h0 p y) A in
  let mult := if (control p =? 2)%Z then Fapic p else Effind p y * Qc p in
  nth 5 (fst (popdynCPP pow fresh fishdist0 h0 p)) zeros a y A
  = Rmin (mult * share * Vuln p a y / Asize_c p A) (maxF p)
  /\ nth 6 (fst (popdynCPP pow fresh fishdist0 h0 p)) zeros a y A
     = Rmin (mult * share * Retc p a y / Asize_c p A) (maxF p).
Proof.
  intros Hc Ha Hy HA share mult. rewrite popdynCPP_list. cbn [nth].
  replace (pyears p - 1)%nat with (y + (pyears p - 1 - y))%nat by lia.
  destruct (FMarray_stable y (pyears p - 1 - y) a y A (le_n y)) as [-> ->].
  unfold share, mult.
  destruct y as [|y].
  - change (st 0) with first_year.
    destruct (year0_FM_year a A Ha HA) as [-> ->].
    destruct Hc as [Hc|Hc]; rewrite Hc; cbn [Z.eqb Pos.eqb]; split; reflexivity.
  - rewrite state_after_S. replace (S y) with (y + 1)%nat by lia.
    destruct (year_body_FM_year y (st y) a A) as [-> ->]; try assumption; try lia.
    destruct Hc as [Hc|Hc]; rewrite Hc; cbn [Z.eqb Pos.eqb]; split; reflexivity.
Qed.


(** *** The effort shares of the first year *)

Lemma sum_upto_first (n : nat) (f : nat -> R) :
  (0 < n)%nat -> (forall i, (0 < i < n)%nat -> f i = 0) -> sum_upto n f = f 0%nat.
Proof.
  induction n as [|n IH]; intros Hn Hf; [lia|]. simpl.
  destruct n as [|n].
  - simpl. lra.
  - rewrite IH, (Hf (S n)) by (try lia; intros; apply Hf; lia). lra.
Qed.

Lemma year0_area_loop_tempVec (n : nat) (s : pstate) (A : nat) :
  (A < n)%nat ->
  tempVec (for_range 0 n (year0_area p) s) A
  = accu_slice (maxage p) (pyears p) (VBarray (for_range 0 n (year0_area p) s)) A.
Proof.
  induction n as [|n IH]; intros HA; [lia|].
  simpl. unfold vec_set.
  destruct (Nat.eqb_spec A n) as [->|Hne]; [reflexivity|].
  rewrite IH by lia. unfold accu_slice.
  apply sum_upto_ext. intros y Hy. apply sum_upto_ext. intros a Ha.
  unfold set_ages. index_cases.
Qed.

Lemma year0_fishdist (A : nat) :
  fishdist first_year A
  = pow (tempVec first_year A) (Spat_targc p)
    / sum_upto (nareas p) (fun A' => pow (tempVec first_year A') (Spat_targc p)).
Proof.
  open_year. frame. rewrite !F_stmt_fishdist, !F_stmt_tempVec. frame. reflexivity.
Qed.

Lemma year0_tempVec (A : nat) :
  (0 < pyears p)%nat -> (A < nareas p)%nat ->
  tempVec first_year A = accu_ages (maxage p) (VBarray first_year) 0 A.
Proof.
  intros Hp HA.
  assert (H : tempVec first_year A
              = accu_slice (maxage p) (pyears p) (VBarray first_year) A).
  { open_year. unfold F_stmt. control_cases p; frame.
    all: apply year0_area_loop_tempVec, HA. }
  rewrite H. unfold accu_slice, accu_ages.
  rewrite sum_upto_first; [reflexivity|assumption|].
  intros y Hy. rewrite (sum_upto_ext _ _ (fun _ => 0)); [apply sum_upto_zero|].
  intros a Ha. destruct (year0_cubes a y A) as (_ & _ & _ & _ & ->).
  index_cases.
Qed.

(** X10. In the first year the effort is spread over the areas in proportion
    to the vulnerable biomass of that year raised to [Spat_targc]: although
    line 162 accumulates the whole slice of [VBarray], only its first year is
    filled then, and no closure is applied. *)
Theorem first_year_effort_share (A : nat) :
  (0 < pyears p)%nat -> (A < nareas p)%nat ->
  let VB := nth 4 (fst (popdynCPP pow fresh fishdist0 h0 p)) zeros in
  fishdist (state_after pow fresh fishdist0 h0 p 0) A
  = pow (accu_ages (maxage p) VB 0 A) (Spat_targc p)
    / sum_upto (nareas p)
        (fun A' => pow (accu_ages (maxage p) VB 0 A') (Spat_targc p)).
Proof.
  intros Hp HA VB.
  assert (Htv : forall A', (A' < nareas p)%nat ->
            tempVec first_year A' = accu_ages (maxage p) VB 0 A').
  { intros A' HA'. rewrite year0_tempVec by assumption.
    unfold VB, accu_ages. rewrite popdynCPP_list. cbn [nth].
    apply sum_upto_ext. intros a Ha.
    replace (pyears p - 1)%nat with (0 + (pyears p - 1))%nat by lia.
    rewrite VBarray_stable by lia. reflexivity. }
  change (st 0) with first_year. rewrite year0_fishdist, Htv by assumption.
  f_equal. apply sum_upto_ext. intros A' HA'. rewrite Htv by assumption.
  reflexivity.
Qed.


(** *** The unfished reference run *)

Lemma store_same (l : loc) (i : nat) (r : R) (h : heap) (i' : nat) :
  cells (store l i r h) l i' = if (i' =? i)%nat then r else cells h l i'.
Proof.
  unfold store, assign, vec_set. cbn [cells]. rewrite Nat.eqb_refl. reflexivity.
Qed.

Lemma assign_same (l : loc) (v : vec) (h : heap) :
  cells (assign l v h) l = v.
Proof. unfold assign. cbn [cells]. rewrite Nat.eqb_refl. reflexivity. Qed.

Lemma for_range_S {S : Type} (n : nat) (f : nat -> S -> S) (s : S) :
  for_range 0 (Datatypes.S n) f s = f n (for_range 0 n f s).
Proof. reflexivity. Qed.

Lemma hp_set_hp (h : heap) (s : pstate) : hp (set_hp h s) = h.
Proof. reflexivity. Qed.

Lemma SSB0a_set_hp (h : heap) (s : pstate) : SSB0a (set_hp h s) = SSB0a s.
Proof. reflexivity. Qed.

Lemma hp_set_SSB0a (v : vec) (s : pstate) : hp (set_SSB0a v s) = hp s.
Proof. reflexivity. Qed.

Lemma SSB0a_set_SSB0a (v : vec) (s : pstate) : SSB0a (set_SSB0a v s) = v.
Proof. reflexivity. Qed.

Lemma SBarray_set_SSB0a (v : vec) (s : pstate) :
  SBarray (set_SSB0a v s) = SBarray s.
Proof. reflexivity. Qed.

Lemma unfished_area_loop (yr n : nat) (s : pstate) (A : nat) :
  SSB0a (for_range 0 n (unfished_area h0 p yr) s) A
  = (if (A <? n)%nat then accu_ages (maxage p) (SBarray s) (yr + 1) A
     else SSB0a s A)
  /\ cells (hp (for_range 0 n (unfished_area h0 p yr) s)) (R0c2 h0 p) A
     = (if (A <? n)%nat then accu_ages (maxage p) (SBarray s) yr A
        else cells (hp s) (R0c2 h0 p) A)
  /\ (forall l, l <> R0c2 h0 p ->
        cells (hp (for_range 0 n (unfished_area h0 p yr) s)) l = cells (hp s) l).
Proof.
  induction n as [|n (IH1 & IH2 & IH3)].
  - repeat split.
  - rewrite !for_range_S.
    assert (HSB : SBarray (for_range 0 n (unfished_area h0 p yr) s) = SBarray s)
      by (apply (for_range_preserves SBarray); reflexivity).
    set (L := for_range 0 n (unfished_area h0 p yr) s) in *.
    unfold unfished_area. cbv zeta.
    rewrite hp_set_hp, SSB0a_set_hp, SSB0a_set_SSB0a, hp_set_SSB0a,
      SBarray_set_SSB0a, HSB.
    repeat split.
    + unfold vec_set. rewrite IH1. index_cases; subst; reflexivity.
    + rewrite store_same, IH2. index_cases; subst; reflexivity.
    + intros l Hl. rewrite store_frame by assumption. apply IH3, Hl.
Qed.

Lemma recpars_area_loop (n : nat) (s : pstate) (A : nat) :
  SSBpRc p <> aRc2 h0 p -> SSBpRc p <> bRc2 h0 p ->
  SSB0a (for_range 0 n (recpars_area h0 p) s) = SSB0a s
  /\ cells (hp (for_range 0 n (recpars_area h0 p) s)) (bRc2 h0 p) A
     = (if (A <? n)%nat then ln (5 * hc p) / (0.8 * SSB0a s A)
        else cells (hp s) (bRc2 h0 p) A)
  /\ cells (hp (for_range 0 n (recpars_area h0 p) s)) (aRc2 h0 p) A
     = (if (A <? n)%nat
        then exp (ln (5 * hc p) / (0.8 * SSB0a s A) * SSB0a s A)
             / cells (hp s) (SSBpRc p) A
        else cells (hp s) (aRc2 h0 p) A)
  /\ (forall l, l <> aRc2 h0 p -> l <> bRc2 h0 p ->
        cells (hp (for_range 0 n (recpars_area h0 p) s)) l = cells (hp s) l).
Proof.
  intros Hsa Hsb.
  assert (Hab : aRc2 h0 p <> bRc2 h0 p).
  { destruct (clones_fresh h0 p) as (_ & -> & ->). lia. }
  induction n as [|n (IH1 & IH2 & IH3 & IH4)].
  - repeat split.
  - rewrite !for_range_S.
    set (L := for_range 0 n (recpars_area h0 p) s) in *.
    unfold recpars_area. cbv zeta.
    rewrite !hp_set_hp, !SSB0a_set_hp.
    repeat split.
    + exact IH1.
    + rewrite store_frame by (intros E; apply Hab; symmetry; exact E).
      rewrite store_same, IH2, IH1. index_cases; subst; reflexivity.
    + rewrite store_same, store_same, Nat.eqb_refl.
      rewrite !store_frame by assumption.
      rewrite IH3, IH1, (IH4 (SSBpRc p)) by assumption.
      index_cases; subst; reflexivity.
    + intros l Hla Hlb. rewrite !store_frame by assumption. apply IH4; assumption.
Qed.


Lemma sum_upto_div (n : nat) (f : nat -> R) (c : R) :
  sum_upto n (fun i => f i / c) = sum_upto n f / c.
Proof.
  unfold Rdiv. rewrite <- (Rmult_comm (/ c)), <- sum_upto_scale_l.
  apply sum_upto_ext. intros. ring.
Qed.

(** What the statements of mode 3 leave behind, area by area. *)
Lemma unfished_stmt_spec (yr : nat) (s : pstate) (A : nat) :
  (SSBpRc p < brk h0)%nat -> (A < nareas p)%nat ->
  SBarray (unfished_stmt h0 p yr s) = SBarray s
  /\ SSB0a (unfished_stmt h0 p yr s) A
     = accu_ages (maxage p) (SBarray s) (yr + 1) A
       / (sum_upto (nareas p)
            (fun A' => accu_ages (maxage p) (SBarray s) (yr + 1) A') / SSB0c p)
  /\ cells (hp (unfished_stmt h0 p yr s)) (R0c2 h0 p) A
     = accu_ages (maxage p) (SBarray s) yr A
       / (sum_upto (nareas p)
            (fun A' => accu_ages (maxage p) (SBarray s) yr A') / R0 h0 p)
  /\ cells (hp (unfished_stmt h0 p yr s)) (bRc2 h0 p) A
     = ln (5 * hc p) / (0.8 * SSB0a (unfished_stmt h0 p yr s) A)
  /\ cells (hp (unfished_stmt h0 p yr s)) (aRc2 h0 p) A
     = exp (cells (hp (unfished_stmt h0 p yr s)) (bRc2 h0 p) A
            * SSB0a (unfished_stmt h0 p yr s) A)
       / cells (hp s) (SSBpRc p) A.
Proof.
  intros HS HA.
  destruct (clones_fresh h0 p) as (HR & Ha & Hb).
  assert (Hsa : SSBpRc p <> aRc2 h0 p) by lia.
  assert (Hsb : SSBpRc p <> bRc2 h0 p) by lia.
  assert (Hsr : SSBpRc p <> R0c2 h0 p) by lia.
  assert (Hra : R0c2 h0 p <> aRc2 h0 p) by lia.
  assert (Hrb : R0c2 h0 p <> bRc2 h0 p) by lia.
  unfold unfished_stmt. cbv zeta.
  set (sa := set_Zarray _ s).
  set (sb := for_range 0 (nareas p) (unfished_area h0 p yr) sa).
  set (sc := set_SSB0a _ sb).
  set (sd := set_hp _ sc).
  assert (HSBb : SBarray sb = SBarray s)
    by (unfold sb; rewrite (for_range_preserves SBarray); reflexivity).
  assert (Hb1 : forall A', (A' < nareas p)%nat ->
            SSB0a sb A' = accu_ages (maxage p) (SBarray s) (yr + 1) A').
  { intros A' HA'. unfold sb.
    destruct (unfished_area_loop yr (nareas p) sa A') as (-> & _).
    destruct (Nat.ltb_spec A' (nareas p)); [reflexivity|lia]. }
  assert (Hb2 : forall A', (A' < nareas p)%nat ->
            cells (hp sb) (R0c2 h0 p) A'
            = accu_ages (maxage p) (SBarray s) yr A').
  { intros A' HA'. unfold sb.
    destruct (unfished_area_loop yr (nareas p) sa A') as (_ & -> & _).
    destruct (Nat.ltb_spec A' (nareas p)); [reflexivity|lia]. }
  assert (Hb3 : cells (hp sb) (SSBpRc p) = cells (hp s) (SSBpRc p)).
  { unfold sb. destruct (unfished_area_loop yr (nareas p) sa A) as (_ & _ & H).
    rewrite H by assumption. reflexivity. }
  assert (Hd1 : SSB0a sd A
                = accu_ages (maxage p) (SBarray s) (yr + 1) A
                  / (sum_upto (nareas p)
                       (fun A' => accu_ages (maxage p) (SBarray s) (yr + 1) A')
                     / SSB0c p)).
  { unfold sd, sc. rewrite SSB0a_set_hp, SSB0a_set_SSB0a, Hb1 by assumption.
    f_equal. f_equal. apply sum_upto_ext. exact Hb1. }
  assert (Hd2 : cells (hp sd) (R0c2 h0 p) A
                = accu_ages (maxage p) (SBarray s) yr A
                  / (sum_upto (nareas p)
                       (fun A' => accu_ages (maxage p) (SBarray s) yr A')
                     / R0 h0 p)).
  { unfold sd. rewrite hp_set_hp, assign_same.
    unfold sc. rewrite hp_set_SSB0a, Hb2 by assumption.
    f_equal. f_equal. apply sum_upto_ext. exact Hb2. }
  assert (Hd3 : cells (hp sd) (SSBpRc p) = cells (hp s) (SSBpRc p)).
  { unfold sd. rewrite hp_set_hp, assign_frame by assumption.
    unfold sc. rewrite hp_set_SSB0a. exact Hb3. }
  destruct (recpars_area_loop (nareas p) sd A Hsa Hsb) as (H1 & H2 & H3 & H4).
  destruct (Nat.ltb_spec A (nareas p)); [|lia].
  repeat split.
  - rewrite (for_range_preserves SBarray) by reflexivity. exact HSBb.
  - rewrite H1. exact Hd1.
  - rewrite H4 by assumption. exact Hd2.
  - rewrite H2, H1. reflexivity.
  - rewrite H3, H2, H1, Hd3. reflexivity.
Qed.

Lemma SBarray_stable (n k a y A : nat) :
  (y <= n)%nat -> SBarray (st (n + k)) a y A = SBarray (st n) a y A.
Proof.
  intros Hy. induction k as [|k IH].
  - rewrite Nat.add_0_r. reflexivity.
  - rewrite Nat.add_succ_r, state_after_S.
    destruct (year_body_derived (n + k) (st (n + k)) a y A) as (_ & _ & ->).
    rewrite IH. index_cases.
Qed.

Lemma year_body_unfished (yr : nat) (s : pstate) (A : nat) :
  control p = 3%Z -> (SSBpRc p < brk h0)%nat -> (A < nareas p)%nat ->
  SSB0a (body yr s) A
  = accu_ages (maxage p) (SBarray (body yr s)) (yr + 1) A
    / (sum_upto (nareas p)
         (fun A' => accu_ages (maxage p) (SBarray (body yr s)) (yr + 1) A')
       / SSB0c p)
  /\ cells (hp (body yr s)) (R0c2 h0 p) A
     = accu_ages (maxage p) (SBarray (body yr s)) yr A
       / (sum_upto (nareas p)
            (fun A' => accu_ages (maxage p) (SBarray (body yr s)) yr A')
          / R0 h0 p)
  /\ cells (hp (body yr s)) (bRc2 h0 p) A
     = ln (5 * hc p) / (0.8 * SSB0a (body yr s) A)
  /\ cells (hp (body yr s)) (aRc2 h0 p) A
     = exp (cells (hp (body yr s)) (bRc2 h0 p) A * SSB0a (body yr s) A)
       / cells (hp s) (SSBpRc p) A.
Proof.
  intros Hc HS HA. unfold year_body. rewrite Hc. cbn [Z.eqb Pos.eqb]. cbv zeta.
  rewrite F_stmt_unfished by assumption.
  set (s1 := closure_stmt p yr _).
  assert (Hhp : hp s1 = hp s).
  { unfold s1, closure_stmt, fishdist_stmt. frame. reflexivity. }
  destruct (unfished_stmt_spec yr s1 A HS HA) as (HSB & H1 & H2 & H3 & H4).
  rewrite HSB, H1, H2. rewrite H3 in H4 |- *. rewrite H1 in H4 |- *.
  rewrite H4, Hhp. repeat split; reflexivity.
Qed.

(** What an iteration of mode 3 leaves in [SSB0a] and in the clone of [R0c],
    in terms of the spawning biomass returned. *)
Lemma unfished_state_areas (yr A : nat) :
  control p = 3%Z -> (yr + 1 < pyears p)%nat -> (SSBpRc p < brk h0)%nat ->
  (A < nareas p)%nat ->
  SSB0a (st (S yr)) A
  = accu_ages (maxage p) (SBarray (st (pyears p - 1))) (yr + 1) A
    / (sum_upto (nareas p)
         (fun A' => accu_ages (maxage p) (SBarray (st (pyears p - 1))) (yr + 1) A')
       / SSB0c p)
  /\ cells (hp (st (S yr))) (R0c2 h0 p) A
     = accu_ages (maxage p) (SBarray (st (pyears p - 1))) yr A
       / (sum_upto (nareas p)
            (fun A' => accu_ages (maxage p) (SBarray (st (pyears p - 1))) yr A')
          / R0 h0 p).
Proof.
  intros Hc Hyr HS HA.
  assert (HSBs : forall y A', (y <= S yr)%nat ->
            accu_ages (maxage p) (SBarray (st (S yr))) y A'
            = accu_ages (maxage p) (SBarray (st (pyears p - 1))) y A').
  { intros y A' Hy. unfold accu_ages. apply sum_upto_ext. intros a Ha.
    replace (pyears p - 1)%nat with (S yr + (pyears p - 1 - S yr))%nat by lia.
    rewrite SBarray_stable by lia. reflexivity. }
  rewrite state_after_S.
  destruct (year_body_unfished yr (st yr) A Hc HS HA) as (-> & -> & _).
  rewrite <- state_after_S.
  rewrite !HSBs by lia.
  split; f_equal; f_equal; apply sum_upto_ext; intros A' HA';
    rewrite HSBs by lia; reflexivity.
Qed.

(** X11. In control mode 3 every iteration rescales the per-area spawning
    biomass of the new year and the per-area spawning biomass of the current
    year proportionally, so that, when the totals involved are not zero, the
    first sums to the reference [SSB0c] and the second, stored in the clone of
    [R0c], sums to the total unfished recruitment [sum(R0c)] taken at entry.
    The first is the spawning biomass handed to the next call of
    [popdynOneTScpp]. *)
Theorem unfished_rescaling (yr : nat) :
  control p = 3%Z -> (yr + 1 < pyears p)%nat -> (SSBpRc p < brk h0)%nat ->
  let s := state_after pow fresh fishdist0 h0 p (S yr) in
  let SB := nth 3 (fst (popdynCPP pow fresh fishdist0 h0 p)) zeros in
  let T1 := sum_upto (nareas p) (fun A => accu_ages (maxage p) SB (yr + 1) A) in
  let T0 := sum_upto (nareas p) (fun A => accu_ages (maxage p) SB yr A) in
  T1 <> 0 -> T0 <> 0 -> SSB0c p <> 0 -> R0 h0 p <> 0 ->
  (forall A, (A < nareas p)%nat ->
     SSB0a s A = accu_ages (maxage p) SB (yr + 1) A / (T1 / SSB0c p)
     /\ cells (hp s) (R0c2 h0 p) A = accu_ages (maxage p) SB yr A / (T0 / R0 h0 p))
  /\ sum_upto (nareas p) (SSB0a s) = SSB0c p
  /\ sum_upto (nareas p) (cells (hp s) (R0c2 h0 p)) = R0 h0 p
  /\ SB_of p (yr + 1) s = SSB0a s.
Proof.
  intros Hc Hyr HS s SB T1 T0 HT1 HT0 HS0 HR0.
  assert (Hper : forall A, (A < nareas p)%nat ->
            SSB0a s A = accu_ages (maxage p) SB (yr + 1) A / (T1 / SSB0c p)
            /\ cells (hp s) (R0c2 h0 p) A
               = accu_ages (maxage p) SB yr A / (T0 / R0 h0 p)).
  { intros A HA. unfold s, T1, T0, SB. rewrite popdynCPP_list. cbn [nth].
    apply unfished_state_areas; assumption. }
  split; [exact Hper|]. split; [|split].
  - rewrite (sum_upto_ext _ _
               (fun A => accu_ages (maxage p) SB (yr + 1) A / (T1 / SSB0c p)))
      by (intros A HA; apply Hper, HA).
    rewrite sum_upto_div.
    change (sum_upto (nareas p) (accu_ages (maxage p) SB (yr + 1))) with T1.
    field. split; assumption.
  - rewrite (sum_upto_ext _ _
               (fun A => accu_ages (maxage p) SB yr A / (T0 / R0 h0 p)))
      by (intros A HA; apply Hper, HA).
    rewrite sum_upto_div.
    change (sum_upto (nareas p) (accu_ages (maxage p) SB yr)) with T0.
    field. split; assumption.
  - unfold SB_of. rewrite Hc. cbn [Z.eqb Pos.eqb].
    destruct (Nat.ltb_spec 0 (yr + 1)); [reflexivity|lia].
Qed.

(** X12. The Ricker parameters that mode 3 recomputes keep the steepness: with
    the [aR] and [bR] left by an iteration, an area whose rescaled unfished
    spawning biomass is [S0] recruits at 20% of [S0] exactly [hc] times what it
    recruits at [S0], and at [S0] it recruits [PerrYr * S0 / SSBpRc]. *)
Theorem unfished_steepness (yr A : nat) (PerrYr : R) :
  control p = 3%Z -> (yr + 1 < pyears p)%nat -> (A < nareas p)%nat ->
  (SSBpRc p < brk h0)%nat -> 0 < hc p ->
  let s := state_after pow fresh fishdist0 h0 p (S yr) in
  let aR := cells (hp s) (aRc2 h0 p) in
  let bR := cells (hp s) (bRc2 h0 p) in
  SSB0a s A <> 0 -> cells h0 (SSBpRc p) A <> 0 ->
  recruit_Ricker (fun _ => 0.2 * SSB0a s A) PerrYr aR bR A
  = hc p * recruit_Ricker (fun _ => SSB0a s A) PerrYr aR bR A
  /\ recruit_Ricker (fun _ => SSB0a s A) PerrYr aR bR A
     = PerrYr * (SSB0a s A / cells h0 (SSBpRc p) A).
Proof.
  intros Hc Hyr HA HS Hh s aR bR HS0 Hspr.
  assert (Hb : bR A * SSB0a s A = ln (5 * hc p) / 0.8).
  { unfold bR, s. rewrite state_after_S.
    destruct (year_body_unfished yr (st yr) A Hc HS HA) as (_ & _ & -> & _).
    rewrite <- state_after_S. fold s. field. split; [lra|exact HS0]. }
  assert (Ha : aR A = exp (bR A * SSB0a s A) / cells h0 (SSBpRc p) A).
  { unfold aR, bR, s. rewrite state_after_S.
    destruct (year_body_unfished yr (st yr) A Hc HS HA) as (_ & _ & _ & ->).
    rewrite heap_frame_state by assumption. reflexivity. }
  assert (He : exp (0.8 * (bR A * SSB0a s A)) = 5 * hc p).
  { rewrite Hb. replace (0.8 * (ln (5 * hc p) / 0.8)) with (ln (5 * hc p))
      by (field; lra).
    apply exp_ln. lra. }
  unfold recruit_Ricker. split.
  - replace (- bR A * (0.2 * SSB0a s A))
      with (0.8 * (bR A * SSB0a s A) + - bR A * SSB0a s A) by lra.
    rewrite exp_plus, He. lra.
  - rewrite Ha. replace (- bR A * SSB0a s A) with (- (bR A * SSB0a s A)) by ring.
    rewrite exp_Ropp. field. split; [exact Hspr|].
    apply Rgt_not_eq, exp_pos.
Qed.


(** *** Outside mode 3 *)

Lemma year0_hp : hp first_year = heap3 h0 p.
Proof. open_year. unfold F_stmt. control_cases p; frame; reflexivity. Qed.

Lemma hp_outside_mode3 (n : nat) :
  control p <> 3%Z -> hp (st n) = heap3 h0 p.
Proof.
  intros Hc. induction n as [|n IH].
  - apply year0_hp.
  - rewrite state_after_S. open_year.
    destruct (Z.eqb_spec (control p) 3); [contradiction|].
    frame. unfold F_stmt.
    destruct (control p =? 1)%Z, (control p =? 2)%Z; frame; exact IH.
Qed.

Lemma heap3_cells :
  (R0c p < brk h0)%nat -> (aRc p < brk h0)%nat -> (bRc p < brk h0)%nat ->
  cells (heap3 h0 p) (R0c2 h0 p) = cells h0 (R0c p)
  /\ cells (heap3 h0 p) (aRc2 h0 p) = cells h0 (aRc p)
  /\ cells (heap3 h0 p) (bRc2 h0 p) = cells h0 (bRc p).
Proof.
  intros HR Ha Hb.
  destruct (clones_fresh h0 p) as (-> & -> & ->).
  assert (B1 : brk (heap1 h0 p) = S (brk h0)) by reflexivity.
  assert (B2 : brk (heap2 h0 p) = S (S (brk h0))) by reflexivity.
  repeat split.
  - unfold heap3. rewrite clone_frame by lia.
    unfold heap2. rewrite clone_frame by lia.
    unfold heap1, clone, alloc. cbn [snd cells].
    rewrite Nat.eqb_refl. reflexivity.
  - unfold heap3. rewrite clone_frame by lia.
    unfold heap2 at 1. unfold clone at 1. unfold alloc. cbn [snd cells].
    rewrite B1, Nat.eqb_refl.
    unfold heap1. rewrite clone_frame by lia. reflexivity.
  - unfold heap3 at 1. unfold clone at 1. unfold alloc. cbn [snd cells].
    rewrite B2, Nat.eqb_refl.
    unfold heap2. rewrite clone_frame by lia.
    unfold heap1. rewrite clone_frame by lia. reflexivity.
Qed.

(** The arguments of the call of iteration [yr], outside mode 3. *)
Lemma call_arguments (yr : nat) :
  control p <> 3%Z -> (yr + 1 < pyears p)%nat ->
  (R0c p < brk h0)%nat -> (aRc p < brk h0)%nat -> (bRc p < brk h0)%nat ->
  (SSBpRc p < brk h0)%nat ->
  let out := fst (popdynCPP pow fresh fishdist0 h0 p) in
  (forall a A, (a < maxage p)%nat -> (A < nareas p)%nat ->
     Narray (st yr) a yr A = nth 0 out zeros a yr A
     /\ Zarray (st yr) a yr A = nth 7 out zeros a yr A)
  /\ (forall A, (A < nareas p)%nat ->
        SB_of p yr (st yr) A = accu_ages (maxage p) (nth 3 out zeros) yr A
        /\ cells (hp (st yr)) (R0c2 h0 p) A = cells h0 (R0c p) A
        /\ cells (hp (st yr)) (SSBpRc p) A = cells h0 (SSBpRc p) A
        /\ cells (hp (st yr)) (aRc2 h0 p) A = cells h0 (aRc p) A
        /\ cells (hp (st yr)) (bRc2 h0 p) A = cells h0 (bRc p) A).
Proof.
  intros Hc Hyr HR Ha Hb HS out. unfold out. rewrite popdynCPP_list. cbn [nth].
  replace (pyears p - 1)%nat with (yr + (pyears p - 1 - yr))%nat by lia.
  split.
  - intros a A _ _. rewrite Narray_stable, Zarray_stable by lia.
    split; reflexivity.
  - intros A _.
    rewrite (heap_frame_state pow fresh fishdist0 h0 p yr (SSBpRc p)) by assumption.
    rewrite hp_outside_mode3 by assumption.
    destruct (heap3_cells HR Ha Hb) as (-> & -> & ->).
    repeat split. unfold SB_of.
    destruct (Z.eqb_spec (control p) 3); [contradiction|].
    rewrite andb_false_r. unfold accu_ages. apply sum_upto_ext. intros a _.
    rewrite SBarray_stable by lia. reflexivity.
Qed.

(** X13. Outside mode 3 the cubes returned satisfy the recursion of the
    transition: the numbers of year [yr + 1] are what [popdynOneTScpp] returns
    for the numbers, the total mortality and the spawning biomass of year [yr]
    as returned, the deviation [Prec(yr + maxage)], the movement of year [yr]
    and the recruitment parameters [R0c], [SSBpRc], [aRc] and [bRc] as the
    caller passed them. *)
Theorem projection_iterates_transition (yr a A : nat) :
  control p <> 3%Z -> (yr + 1 < pyears p)%nat ->
  (a < maxage p)%nat -> (A < nareas p)%nat ->
  (R0c p < brk h0)%nat -> (aRc p < brk h0)%nat -> (bRc p < brk h0)%nat ->
  (SSBpRc p < brk h0)%nat ->
  let out := fst (popdynCPP pow fresh fishdist0 h0 p) in
  nth 0 out zeros a (yr + 1)%nat A
  = popdynOneTScpp (nareas p) (maxage p)
      (fun A' => accu_ages (maxage p) (nth 3 out zeros) yr A')
      (fun a' A' => nth 0 out zeros a' yr A')
      (fun a' A' => nth 7 out zeros a' yr A')
      (Prec p (yr + maxage p)%nat) (hc p)
      (cells h0 (R0c p)) (cells h0 (SSBpRc p)) (cells h0 (aRc p))
      (cells h0 (bRc p)) (movc p yr) (SRrelc p) (plusgroup p) (fresh yr) a A.
Proof.
  intros Hc Hyr Ha HA HR HaR HbR HS out.
  destruct (call_arguments yr Hc Hyr HR HaR HbR HS) as [Hm Hv].
  fold out in Hm, Hv.
  transitivity (NextYrN_of fresh h0 p yr (st yr) a A).
  - unfold out. rewrite popdynCPP_list. cbn [nth].
    replace (pyears p - 1)%nat with (S yr + (pyears p - 1 - S yr))%nat by lia.
    rewrite Narray_stable by lia.
    rewrite state_after_S, year_body_Narray. index_cases.
  - unfold NextYrN_of. apply popdynOneTScpp_ext.
    + intros a' A' Ha' HA'. apply Hm; assumption.
    + intros A' HA'. apply Hv; assumption.
Qed.


(** The numbers of year [n] when the year has been computed. *)
Lemma numbers_nonneg_year (n : nat) :
  control p <> 3%Z ->
  (R0c p < brk h0)%nat -> (aRc p < brk h0)%nat -> (bRc p < brk h0)%nat ->
  (SSBpRc p < brk h0)%nat ->
  (forall a' A', (a' < maxage p)%nat -> (A' < nareas p)%nat -> 0 <= Ncurr p a' A') ->
  (forall a' y', 0 <= WtAge p a' y' /\ 0 <= MatAge p a' y') ->
  (forall y' a' AA B, 0 <= movc p y' a' AA B) ->
  (forall i, 0 <= Prec p i) ->
  (SRrelc p = 1 /\ 0.2 <= hc p < 1
   /\ forall A', (A' < nareas p)%nat ->
                 0 < cells h0 (R0c p) A' /\ 0 < cells h0 (SSBpRc p) A')
  \/ (SRrelc p = 2
      /\ forall A', (A' < nareas p)%nat -> 0 <= cells h0 (aRc p) A') ->
  (plusgroup p <= 0)%Z
  \/ (forall y' A', (y' < pyears p)%nat -> (A' < nareas p)%nat ->
        0 < nth 7 (fst (popdynCPP pow fresh fishdist0 h0 p)) zeros
              (maxage p - 1)%nat y' A') ->
  (n < pyears p)%nat ->
  forall a' A', (a' < maxage p)%nat -> (A' < nareas p)%nat ->
                0 <= Narray (st n) a' n A'.
Proof.
  intros Hc HR HaR HbR HS HN Hw Hmov HP Hrec Hplus.
  induction n as [|n IH]; intros Hn a' A' Ha' HA'.
  - change (st 0) with first_year.
    destruct (year0_cubes a' 0 A') as (-> & _). index_cases. auto.
  - specialize (IH ltac:(lia)).
    rewrite state_after_S, year_body_Narray.
    replace (S n) with (n + 1)%nat by lia. index_cases.
    destruct (call_arguments n Hc ltac:(lia) HR HaR HbR HS) as [Hm Hv].
    unfold NextYrN_of. apply popdynOneTScpp_nonneg; try assumption.
    + intros a2 AA B _ _ _. apply Hmov.
    + intros A2 HA2. destruct (Hv A2 HA2) as (HSB & _).
      unfold SB_of in *.
      destruct (Z.eqb_spec (control p) 3); [contradiction|].
      rewrite andb_false_r in *. unfold accu_ages.
      apply sum_upto_nonneg. intros a2 Ha2.
      destruct (derived_state n a2 n A2 Ha2 (le_n n) HA2) as (_ & _ & -> & _).
      destruct (Hw a2 n). specialize (IH a2 A2 Ha2 HA2).
      repeat apply Rmult_le_pos; assumption.
    + apply HP.
    + destruct Hrec as [(H1 & Hh & Hpar)|(H2 & Hpar)]; [left|right].
      * split; [exact H1|]. split; [exact Hh|].
        intros A2 HA2. destruct (Hv A2 HA2) as (_ & -> & -> & _).
        apply Hpar, HA2.
      * split; [exact H2|].
        intros A2 HA2. destruct (Hv A2 HA2) as (_ & _ & _ & -> & _).
        apply Hpar, HA2.
    + destruct Hplus as [Hoff|HZ]; [left; exact Hoff|right].
      intros A2 HA2.
      destruct (Hm (maxage p - 1)%nat A2) as [_ ->]; [lia|assumption|].
      apply HZ; [lia|assumption].
Qed.

(** X15. Outside mode 3 the projection keeps abundance nonnegative: with
    starting numbers, weights, maturities, movement fractions and deviations
    that are not negative, recruitment parameters of a Beverton-Holt curve
    (selector 1, steepness from 0.2 up to but excluding 1, positive [R0c] and
    [SSBpRc]) or of a Ricker curve (selector 2, [aRc] not negative), and the
    plus group off or a positive total mortality of the last age class, the
    numbers and the spawning biomass returned are not negative in any year.
    In control modes 1 and 2, where the total mortality that the numbers
    survive contains the fishing mortality, the divisors of the effort shares
    are taken not to be 0 ([shares_defined]: area sizes, summed effort weights,
    fraction of effort in open areas); the sign hypotheses keep the divisors
    of the transition positive. *)
Theorem projection_nonnegative (a y A : nat) :
  control p <> 3%Z ->
  (R0c p < brk h0)%nat -> (aRc p < brk h0)%nat -> (bRc p < brk h0)%nat ->
  (SSBpRc p < brk h0)%nat ->
  (forall a' A', (a' < maxage p)%nat -> (A' < nareas p)%nat -> 0 <= Ncurr p a' A') ->
  (forall a' y', 0 <= WtAge p a' y' /\ 0 <= MatAge p a' y') ->
  (forall y' a' AA B, 0 <= movc p y' a' AA B) ->
  (forall i, 0 <= Prec p i) ->
  (SRrelc p = 1 /\ 0.2 <= hc p < 1
   /\ forall A', (A' < nareas p)%nat ->
                 0 < cells h0 (R0c p) A' /\ 0 < cells h0 (SSBpRc p) A')
  \/ (SRrelc p = 2
      /\ forall A', (A' < nareas p)%nat -> 0 <= cells h0 (aRc p) A') ->
  (plusgroup p <= 0)%Z
  \/ (forall y' A', (y' < pyears p)%nat -> (A' < nareas p)%nat ->
        0 < nth 7 (fst (popdynCPP pow fresh fishdist0 h0 p)) zeros
              (maxage p - 1)%nat y' A') ->
  (control p = 1%Z \/ control p = 2%Z ->
   shares_defined pow p (nth 4 (fst (popdynCPP pow fresh fishdist0 h0 p)) zeros)) ->
  (a < maxage p)%nat -> (y < pyears p)%nat -> (A < nareas p)%nat ->
  0 <= nth 0 (fst (popdynCPP pow fresh fishdist0 h0 p)) zeros a y A
  /\ 0 <= nth 3 (fst (popdynCPP pow fresh fishdist0 h0 p)) zeros a y A.
Proof.
  intros Hc HR HaR HbR HS HN Hw Hmov HP Hrec Hplus _ Ha Hy HA.
  pose proof (numbers_nonneg_year y Hc HR HaR HbR HS HN Hw Hmov HP Hrec Hplus
                Hy a A Ha HA) as Hyear.
  rewrite popdynCPP_list. cbn [nth].
  destruct (derived_state (pyears p - 1) a y A) as (_ & _ & -> & _);
    try assumption; try lia.
  assert (H0 : 0 <= Narray (st (pyears p - 1)) a y A).
  { replace (pyears p - 1)%nat with (y + (pyears p - 1 - y))%nat by lia.
    rewrite Narray_stable by lia. exact Hyear. }
  destruct (Hw a y). split; [exact H0|].
  repeat apply Rmult_le_pos; assumption.
Qed.

(** *** Control values other than 1, 2 and 3 *)

Lemma F_stmt_idle (y : nat) (s : pstate) :
  control p <> 1%Z -> control p <> 2%Z -> F_stmt p y s = s.
Proof.
  intros H1 H2. unfold F_stmt.
  destruct (Z.eqb_spec (control p) 1); [contradiction|].
  destruct (Z.eqb_spec (control p) 2); [contradiction|]. reflexivity.
Qed.

Lemma FM_idle_state (n a y A : nat) :
  control p <> 1%Z -> control p <> 2%Z -> control p <> 3%Z ->
  FMarray (st n) a y A = fill_above (maxF p) zeros a y A
  /\ FMretarray (st n) a y A = fill_above (maxF p) zeros a y A.
Proof.
  intros H1 H2 H3. induction n as [|n IH].
  - change (st 0) with first_year. open_year.
    rewrite F_stmt_idle by assumption. frame. split; reflexivity.
  - rewrite state_after_S. open_year.
    destruct (Z.eqb_spec (control p) 3); [contradiction|].
    rewrite F_stmt_idle by assumption. frame.
    destruct (FM_le_state pow fresh fishdist0 h0 p n a y A).
    rewrite (fill_above_id _ (FMarray (st n))),
      (fill_above_id _ (FMretarray (st n))) by assumption.
    exact IH.
Qed.

(** X16. A control value other than 1, 2 and 3 is not rejected: with a cap
    that is not negative the projection runs without fishing, whatever the
    effort, the catchability and the apical F are.  The fishing mortality and
    the retained fishing mortality returned are 0 everywhere and the total
    mortality is the natural mortality. *)
Theorem unknown_mode_no_fishing (a y A : nat) :
  control p <> 1%Z -> control p <> 2%Z -> control p <> 3%Z -> 0 <= maxF p ->
  (a < maxage p)%nat -> (y < pyears p)%nat -> (A < nareas p)%nat ->
  nth 5 (fst (popdynCPP pow fresh fishdist0 h0 p)) zeros a y A = 0
  /\ nth 6 (fst (popdynCPP pow fresh fishdist0 h0 p)) zeros a y A = 0
  /\ nth 7 (fst (popdynCPP pow fresh fishdist0 h0 p)) zeros a y A = M_age p a y.
Proof.
  intros H1 H2 H3 Hm Ha Hy HA. rewrite popdynCPP_list. cbn [nth].
  destruct (FM_idle_state (pyears p - 1) a y A H1 H2 H3) as [HF HR].
  rewrite fill_above_zeros in HF, HR by assumption.
  rewrite Zarray_final by assumption. rewrite HF, HR.
  destruct (Z.eqb_spec (control p) 3); [contradiction|].
  cbn [andb]. repeat split; lra.
Qed.

End ProjectionMore.

(** ** The concrete runs, continued *)

(** *** X2 *)

Lemma identity_movement_is_noop_home :
  popdynOneTScpp 2 2 ones scen_N scen_Z 1 0.7 ones ones ones ones home 1 0 junk
    1%nat 0%nat
  = Nnext_premove 2 2 ones scen_N scen_Z 1 0.7 ones ones ones ones 1 0 junk
      1%nat 0%nat.
Proof.
  apply identity_movement_is_noop; [lia|lia|].
  intros AA B _ _. reflexivity.
Defined.

(** *** X3 *)

Lemma beverton_holt_anchors_scenario :
  Nnext_premove 1 2 ones scen_N scen_Z 1 0.7 ones ones ones ones 1 0 junk
    0%nat 0%nat = 1 * ones 0%nat
  /\ Nnext_premove 1 2 fifth scen_N scen_Z 1 0.7 ones ones ones ones 1 0 junk
       0%nat 0%nat = 1 * (0.7 * ones 0%nat).
Proof.
  split.
  - apply (beverton_holt_anchors 1 2 ones scen_N scen_Z 1 0.7 ones ones ones
             ones 1 0 junk 0); unfold ones; (lia || lra || auto).
  - apply (beverton_holt_anchors 1 2 fifth scen_N scen_Z 1 0.7 ones ones ones
             ones 1 0 junk 0); unfold ones, fifth; (lia || lra || auto).
Defined.

(** *** X4 *)

Lemma beverton_holt_monotone_scenario :
  Nnext_premove 1 2 fifth scen_N scen_Z 1 0.7 ones ones ones ones 1 0 junk
    0%nat 0%nat
  <= Nnext_premove 1 2 ones scen_N scen_Z 1 0.7 ones ones ones ones 1 0 junk
       0%nat 0%nat.
Proof.
  apply beverton_holt_monotone; unfold ones, fifth; (lia || lra || auto).
Defined.

(** *** X5 *)

Lemma ricker_dome_scenario :
  Nnext_premove 1 2 ones scen_N scen_Z 1 0.7 ones ones ones ones 2 0 junk
    0%nat 0%nat = 1 * ones 0%nat * (1 / ones 0%nat) * exp (- 1)
  /\ Nnext_premove 1 2 twice scen_N scen_Z 1 0.7 ones ones ones ones 2 0 junk
       0%nat 0%nat
     <= Nnext_premove 1 2 ones scen_N scen_Z 1 0.7 ones ones ones ones 2 0 junk
          0%nat 0%nat.
Proof.
  destruct (ricker_dome 1 2 ones twice scen_N scen_Z 1 0.7 ones ones ones ones
              2 0 junk 0) as (_ & Heq & Hle);
    try (unfold ones; (lia || lra || auto)).
  split.
  - apply Heq. unfold ones. lra.
  - apply Hle. unfold ones, twice. lra.
Defined.

(** *** X6 *)

Lemma transition_nonnegative_mix :
  0 <= popdynOneTScpp 2 2 ones scen_N scen_Z 1 0.7 ones ones ones ones mix 1 0
         junk 1%nat 0%nat.
Proof.
  apply transition_nonnegative.
  - lia.
  - lia.
  - intros a A _ _. unfold scen_N. destruct a; lra.
  - intros a AA B _ _ _. unfold mix. lra.
  - intros A _. unfold ones. lra.
  - lra.
  - left. split; [reflexivity|]. split; [lra|].
    intros A _. unfold ones. lra.
  - left. lia.
Defined.

(** *** X7 *)

Lemma derived_cubes_scenario :
  nth 3 (fst (scen_run 2 0.8 0)) zeros 0%nat 1%nat 0%nat
  = nth 0 (fst (scen_run 2 0.8 0)) zeros 0%nat 1%nat 0%nat * 1 * 1
  /\ nth 0 (fst (scen_run 2 0.8 0)) zeros 0%nat 0%nat 0%nat = 100.
Proof.
  destruct (derived_cubes Rpower (fun _ => junk) ones scen_heap
              (scenario 2 0.8 0) 0 1 0) as (_ & _ & H3 & _ & H0).
  - simpl. lia.
  - simpl. lia.
  - simpl. lia.
  - split; [exact H3|exact H0].
Defined.

(** *** X8 *)

Lemma cohort_survival_scenario :
  sum_upto 1 (fun A => nth 0 (fst (scen_run 2 0.8 0)) zeros 1%nat 1%nat A)
  = sum_upto 1
      (fun AA => nth 0 (fst (scen_run 2 0.8 0)) zeros 0%nat 0%nat AA
                 * exp (- nth 7 (fst (scen_run 2 0.8 0)) zeros 0%nat 0%nat AA)).
Proof.
  destruct (cohort_survival Rpower (fun _ => junk) ones scen_heap
              (scenario 2 0.8 0) 0 1) as [H _].
  - simpl. lia.
  - simpl. lia.
  - left. simpl. lia.
  - intros AA _. cbn [nareas scenario sum_upto movc]. unfold stay. lra.
  - exact H.
Defined.

(** *** X9 *)

Lemma realized_fishing_mortality_scenario :
  nth 5 (fst (scen_run 2 0.8 0.3)) zeros 0%nat 0%nat 0%nat
  = Rmin (0.3 * fishdist (scen_state 2 0.8 0.3 0) 0%nat * 1 / ones 0%nat) 0.8
  /\ nth 6 (fst (scen_run 2 0.8 0.3)) zeros 0%nat 0%nat 0%nat
     = Rmin (0.3 * fishdist (scen_state 2 0.8 0.3 0) 0%nat * 1 / ones 0%nat) 0.8.
Proof.
  apply (realized_fishing_mortality Rpower (fun _ => junk) ones scen_heap
           (scenario 2 0.8 0.3) 0 0 0).
  - right. reflexivity.
  - simpl. lia.
  - simpl. lia.
  - simpl. lia.
Defined.

(** *** X10 *)

Lemma first_year_effort_share_scenario :
  fishdist (scen_state 2 0.8 0 0) 0%nat
  = Rpower (accu_ages 2 (nth 4 (fst (scen_run 2 0.8 0)) zeros) 0 0) 1
    / sum_upto 1
        (fun A' => Rpower (accu_ages 2 (nth 4 (fst (scen_run 2 0.8 0)) zeros) 0 A') 1).
Proof.
  apply (first_year_effort_share Rpower (fun _ => junk) ones scen_heap
           (scenario 2 0.8 0) 0).
  - simpl. lia.
  - simpl. lia.
Defined.

(** *** X11 and X12 *)

(** The unfished run: the spawning biomass returned for years 0 and 1 is
    positive. *)
Lemma scen_unfished_biomass (y : nat) :
  (y <= 1)%nat ->
  0 < sum_upto 1
        (fun A => accu_ages 2
                    (SBarray (state_after Rpower (fun _ => junk) ones scen_heap
                                (scenario 3 0.8 0) 2)) y A).
Proof.
  intros Hy.
  set (p := scenario 3 0.8 0).
  set (st := state_after Rpower (fun _ => junk) ones scen_heap p).
  assert (HSB : forall a, (a < 2)%nat ->
            SBarray (st 2%nat) a y 0%nat = Narray (st 2%nat) a y 0%nat).
  { intros a Ha.
    destruct (derived_state Rpower (fun _ => junk) ones scen_heap p 2 a y 0)
      as (_ & _ & H & _); try (simpl; lia).
    fold st in H. rewrite H. cbn [WtAge MatAge p scenario]. lra. }
  cbn [sum_upto accu_ages]. unfold accu_ages. cbn [sum_upto].
  rewrite !HSB by lia.
  assert (H0 : forall a, (a < 2)%nat -> Narray (st 2%nat) a 0%nat 0%nat = scen_N a 0%nat).
  { intros a Ha. unfold st.
    rewrite (Narray_stable Rpower (fun _ => junk) ones scen_heap p 0 2) by lia.
    change (state_after Rpower (fun _ => junk) ones scen_heap p 0)
      with (year0 Rpower ones scen_heap p).
    destruct (year0_cubes Rpower ones scen_heap p a 0 0) as (-> & _).
    cbn [maxage nareas p scenario Ncurr].
    destruct a as [|[|a]]; [reflexivity|reflexivity|lia]. }
  destruct y as [|[|y]]; [| |lia].
  - rewrite !H0 by lia. unfold scen_N. lra.
  - assert (H1 : Narray (st 2%nat) 1%nat 1%nat 0%nat
                 = 0 + scen_N 0%nat 0%nat
                       * exp (- Zarray (st 2%nat) 0%nat 0%nat 0%nat) * 1).
    { pose proof (numbers_next_year Rpower (fun _ => junk) ones scen_heap p 0 1 0)
        as Hn.
      cbn [nareas p scenario sum_upto pyears Nat.sub Nat.add movc maxage
           plusgroup] in Hn.
      fold p in Hn. fold st in Hn.
      rewrite Hn by (lia || (left; lia)). rewrite H0 by lia.
      unfold stay. reflexivity. }
    assert (H2 : 0 <= Narray (st 2%nat) 0%nat 1%nat 0%nat).
    { unfold st.
      rewrite (Narray_stable Rpower (fun _ => junk) ones scen_heap p 1 1) by lia.
      rewrite state_after_S, year_body_Narray.
      cbn [maxage nareas p scenario Nat.ltb Nat.leb Nat.eqb Nat.add andb].
      fold p. unfold NextYrN_of.
      apply popdynOneTScpp_nonneg.
      - simpl. lia.
      - simpl. lia.
      - intros a A Ha HA.
        destruct (year0_cubes Rpower ones scen_heap p a 0 A) as (H & _).
        change (state_after Rpower (fun _ => junk) ones scen_heap p 0)
          with (year0 Rpower ones scen_heap p).
        rewrite H. cbn [maxage nareas p scenario Ncurr] in *.
        destruct (Nat.ltb_spec a 2); [|lia].
        destruct (Nat.ltb_spec A 1); [|lia]. cbn [andb Nat.eqb].
        unfold scen_N. destruct a; lra.
      - intros a AA B _ _ _. cbn [movc p scenario]. unfold stay. lra.
      - intros A HA. unfold SB_of. cbn [Nat.ltb Nat.leb andb].
        unfold accu_ages. apply sum_upto_nonneg. intros a Ha.
        change (state_after Rpower (fun _ => junk) ones scen_heap p 0)
          with (year0 Rpower ones scen_heap p).
        destruct (year0_cubes Rpower ones scen_heap p a 0 A) as (_ & _ & _ & -> & _).
        cbn [maxage nareas p scenario Ncurr WtAge MatAge] in *.
        destruct (Nat.ltb_spec a 2); [|lia].
        destruct (Nat.ltb_spec A 1); [|lia]. cbn [andb Nat.eqb].
        unfold scen_N. destruct a; lra.
      - cbn [Prec p scenario]. unfold ones. lra.
      - left. split; [reflexivity|]. split; [cbn [hc p scenario]; lra|].
        intros A HA.
        change (state_after Rpower (fun _ => junk) ones scen_heap p 0)
          with (year0 Rpower ones scen_heap p).
        rewrite year0_hp.
        destruct (heap3_cells scen_heap p) as (-> & _); try (simpl; lia).
        split; simpl; lra.
      - left. simpl. lia. }
    rewrite H1. unfold scen_N.
    pose proof (exp_pos (- Zarray (st 2%nat) 0%nat 0%nat 0%nat)). nra.
Qed.

Lemma unfished_rescaling_scenario :
  sum_upto 1 (SSB0a (scen_state 3 0.8 0 1)) = 1000
  /\ sum_upto 1 (cells (hp (scen_state 3 0.8 0 1)) (R0c2 scen_heap (scenario 3 0.8 0)))
     = R0 scen_heap (scenario 3 0.8 0).
Proof.
  destruct (unfished_rescaling Rpower (fun _ => junk) ones scen_heap
              (scenario 3 0.8 0) 0) as (_ & H1 & H2 & _).
  - reflexivity.
  - simpl. lia.
  - simpl. lia.
  - rewrite popdynCPP_list. cbn [nth]. apply Rgt_not_eq.
    apply (scen_unfished_biomass 1). lia.
  - rewrite popdynCPP_list. cbn [nth]. apply Rgt_not_eq.
    apply (scen_unfished_biomass 0). lia.
  - simpl. lra.
  - unfold R0. simpl. lra.
  - split; [exact H1|exact H2].
Defined.

Lemma scen_unfished_SSB0a : SSB0a (scen_state 3 0.8 0 1) 0%nat = 1000.
Proof.
  unfold scen_state.
  destruct (unfished_state_areas Rpower (fun _ => junk) ones scen_heap
              (scenario 3 0.8 0) 0 0) as (-> & _); try (simpl; lia).
  - pose proof (scen_unfished_biomass 1 ltac:(lia)) as H.
    cbn [sum_upto] in H.
    cbn [nareas maxage pyears scenario SSB0c sum_upto Nat.sub Nat.add].
    set (x := accu_ages 2 _ 1 0) in *.
    field. lra.
Qed.

Lemma unfished_steepness_scenario :
  recruit_Ricker (fun _ => 0.2 * SSB0a (scen_state 3 0.8 0 1) 0%nat) 1
    (cells (hp (scen_state 3 0.8 0 1)) (aRc2 scen_heap (scenario 3 0.8 0)))
    (cells (hp (scen_state 3 0.8 0 1)) (bRc2 scen_heap (scenario 3 0.8 0))) 0%nat
  = 0.7 * recruit_Ricker (fun _ => SSB0a (scen_state 3 0.8 0 1) 0%nat) 1
            (cells (hp (scen_state 3 0.8 0 1)) (aRc2 scen_heap (scenario 3 0.8 0)))
            (cells (hp (scen_state 3 0.8 0 1)) (bRc2 scen_heap (scenario 3 0.8 0)))
            0%nat.
Proof.
  destruct (unfished_steepness Rpower (fun _ => junk) ones scen_heap
              (scenario 3 0.8 0) 0 0 1) as [H _].
  - reflexivity.
  - simpl. lia.
  - simpl. lia.
  - simpl. lia.
  - simpl. lra.
  - fold (scen_state 3 0.8 0 1). rewrite scen_unfished_SSB0a. lra.
  - simpl. lra.
  - exact H.
Defined.

(** *** X13 *)

Lemma projection_iterates_transition_scenario :
  nth 0 (fst (scen_run 2 0.8 0)) zeros 0%nat 1%nat 0%nat
  = popdynOneTScpp 1 2
      (fun A' => accu_ages 2 (nth 3 (fst (scen_run 2 0.8 0)) zeros) 0 A')
      (fun a' A' => nth 0 (fst (scen_run 2 0.8 0)) zeros a' 0%nat A')
      (fun a' A' => nth 7 (fst (scen_run 2 0.8 0)) zeros a' 0%nat A')
      1 0.7 (cells scen_heap 0%nat) (cells scen_heap 1%nat)
      (cells scen_heap 2%nat) (cells scen_heap 3%nat) stay 1 0 junk 0%nat 0%nat.
Proof.
  apply (projection_iterates_transition Rpower (fun _ => junk) ones scen_heap
           (scenario 2 0.8 0) 0 0 0); simpl; lia.
Defined.

(** *** X14 *)


(** *** C2 and X15 *)

(** With one open area and [Rpower] for [pow] the effort weights are positive,
    whatever the vulnerable biomass is. *)
Lemma scen_shares_defined (ctl : Z) (cap fapic : R) (VB : cube) :
  shares_defined Rpower (scenario ctl cap fapic) VB.
Proof.
  unfold shares_defined.
  cbn [nareas pyears maxage Asize_c MPA Spat_targc scenario sum_upto].
  repeat split.
  - intros A _. unfold ones. lra.
  - intros y _.
    pose proof (exp_pos (1 * ln (accu_ages 2 VB y 0))) as Hpos.
    fold (Rpower (accu_ages 2 VB y 0) 1) in Hpos. lra.
  - intros yr _.
    pose proof (exp_pos (1 * ln (accu_ages 2 VB (yr + 1) 0))) as Hpos.
    fold (Rpower (accu_ages 2 VB (yr + 1) 0) 1) in Hpos.
    set (t := Rpower (accu_ages 2 VB (yr + 1) 0) 1) in *.
    replace (0 + 1 * (t / (0 + t))) with 1 by (field; lra). lra.
Qed.

(** The numbers of the run with fishing are not negative. *)
Lemma scen_numbers_nonneg (cap fapic : R) (a y A : nat) :
  (a < 2)%nat -> (y < 3)%nat -> (A < 1)%nat ->
  0 <= Narray (scen_state 2 cap fapic 2) a y A.
Proof.
  intros Ha Hy HA. unfold scen_state.
  replace 2%nat with (y + (2 - y))%nat by lia.
  rewrite Narray_stable by lia.
  apply numbers_nonneg_year.
  - cbn [control scenario]. lia.
  - cbn [R0c scenario scen_heap brk]. lia.
  - cbn [aRc scenario scen_heap brk]. lia.
  - cbn [bRc scenario scen_heap brk]. lia.
  - cbn [SSBpRc scenario scen_heap brk]. lia.
  - intros a' A' _ _. cbn [Ncurr scenario]. unfold scen_N. destruct a'; lra.
  - intros a' y'. cbn [WtAge MatAge scenario]. lra.
  - intros y' a' AA B. cbn [movc scenario]. unfold stay. lra.
  - intros i. cbn [Prec scenario]. unfold ones. lra.
  - left. split; [reflexivity|]. split; [cbn [hc scenario]; lra|].
    intros A' _. cbn [R0c SSBpRc scenario scen_heap cells]. lra.
  - left. cbn [plusgroup scenario]. lia.
  - cbn [pyears scenario]. lia.
  - cbn [maxage scenario]. lia.
  - cbn [nareas scenario]. lia.
Qed.

Lemma scen_transition_defined (cap fapic : R) :
  transition_defined scen_heap (scenario 2 cap fapic)
    (nth 3 (fst (scen_run 2 cap fapic)) zeros)
    (nth 7 (fst (scen_run 2 cap fapic)) zeros).
Proof.
  unfold transition_defined, scen_run. rewrite popdynCPP_list. cbn [nth].
  cbn [nareas pyears maxage SSBpRc R0c hc SRrelc plusgroup scenario Nat.sub].
  split; [simpl; lia|]. split.
  - intros _ yr A Hyr HA.
    assert (HSB : 0 <= accu_ages 2
                         (SBarray (state_after Rpower (fun _ => junk) ones
                                     scen_heap (scenario 2 cap fapic) 2)) yr A).
    { unfold accu_ages. apply sum_upto_nonneg. intros a Ha.
      assert (Hyr' : (yr <= 2)%nat) by lia.
      destruct (derived_state Rpower (fun _ => junk) ones scen_heap
                  (scenario 2 cap fapic) 2 a yr A Ha Hyr' HA) as (_ & _ & -> & _).
      pose proof (scen_numbers_nonneg cap fapic a yr A Ha ltac:(lia) HA) as HN.
      unfold scen_state in HN. cbn [WtAge MatAge scenario]. lra. }
    cbn [cells scen_heap]. lra.
  - intros Hplus. lia.
Qed.

(** An apical F of 0.3 under a cap of 0.1: the cap binds. *)
Lemma fishing_mortality_capped_scenario :
  nth 5 (fst (scen_run 2 0.1 0.3)) zeros 0%nat 0%nat 0%nat <= 0.1
  /\ nth 6 (fst (scen_run 2 0.1 0.3)) zeros 0%nat 0%nat 0%nat <= 0.1
  /\ nth 7 (fst (scen_run 2 0.1 0.3)) zeros 0%nat 0%nat 0%nat
     <= 0.2 + Rmax 0 0.1
  /\ maxF (scenario 2 0.1 0.3) < Fapic (scenario 2 0.1 0.3).
Proof.
  destruct (fishing_mortality_capped Rpower (fun _ => junk) ones scen_heap
              (scenario 2 0.1 0.3) 0 0 0) as (HF & HR & _ & HZ).
  - simpl. lia.
  - simpl. lia.
  - simpl. lia.
  - intros _. split.
    + apply scen_shares_defined.
    + apply scen_transition_defined.
  - split; [exact HF|]. split; [exact HR|]. split; [exact HZ|]. simpl. lra.
Defined.

Lemma projection_nonnegative_scenario :
  0 <= nth 0 (fst (scen_run 2 0.8 0.3)) zeros 0%nat 2%nat 0%nat
  /\ 0 <= nth 3 (fst (scen_run 2 0.8 0.3)) zeros 0%nat 2%nat 0%nat.
Proof.
  apply (projection_nonnegative Rpower (fun _ => junk) ones scen_heap
           (scenario 2 0.8 0.3) 0 2 0).
  - simpl. lia.
  - simpl. lia.
  - simpl. lia.
  - simpl. lia.
  - simpl. lia.
  - intros a A _ _. cbn [Ncurr scenario]. unfold scen_N. destruct a; lra.
  - intros a y. cbn [WtAge MatAge scenario]. lra.
  - intros y a AA B. cbn [movc scenario]. unfold stay. lra.
  - intros i. cbn [Prec scenario]. unfold ones. lra.
  - left. split; [reflexivity|]. split; [cbn [hc scenario]; lra|].
    intros A _. simpl. lra.
  - left. simpl. lia.
  - intros _. apply scen_shares_defined.
  - simpl. lia.
  - simpl. lia.
  - simpl. lia.
Defined.

(** *** X16 *)

(** Control value 0 with an apical F of 0.3. *)
Lemma unknown_mode_no_fishing_scenario :
  nth 5 (fst (scen_run 0 0.8 0.3)) zeros 1%nat 2%nat 0%nat = 0
  /\ nth 6 (fst (scen_run 0 0.8 0.3)) zeros 1%nat 2%nat 0%nat = 0
  /\ nth 7 (fst (scen_run 0 0.8 0.3)) zeros 1%nat 2%nat 0%nat = 0.2.
Proof.
  apply (unknown_mode_no_fishing Rpower (fun _ => junk) ones scen_heap
           (scenario 0 0.8 0.3) 1 2 0).
  - simpl. lia.
  - simpl. lia.
  - simpl. lia.
  - simpl. lra.
  - simpl. lia.
  - simpl. lia.
  - simpl. lia.
Defined.
